(** * heliusStream.js: the wallet+mint streaming client

    A shallow embedding of [createWalletMintStream] from
    [src/server/heliusStream.js].  The closure variables of the factory
    ([ws], [timers], [backoffMs], [pair], [inflightDetails], [seen],
    [shouldRun]) form the record [State]; everything the module does to the
    outside (callbacks, HTTP requests, socket calls, file writes) is appended
    to a trace of [Effect]s; what the outside does to the module (API calls,
    socket events, timers firing, replies to detail fetches) is an [Input] of
    the step function at the end of the model.

    An async function that awaits requests of its own ([start] with its
    backfill, the probe of a reconnect) runs to its end within one turn of
    the event loop, its replies taken from the network [Env].  The detail
    fetch of the live path is split in two turns, the notification and the
    reply, because other notifications arrive in between. *)

From Stdlib Require Import ZArith Ascii String List Bool Lia.
From stdpp Require Import gmap strings list.

Local Open Scope string_scope.
Local Open Scope list_scope.
Local Open Scope Z_scope.

(** ** JavaScript values used by the module *)

(** A wallet or mint as the callers pass it: [None] is [undefined]/[null]. *)
Definition truthy (o : option string) : bool :=
  match o with
  | Some s => negb (String.eqb s "")
  | None => false
  end.

(** [o || d] for strings. *)
Definition or_default (o : option string) (d : string) : string :=
  match o with
  | Some s => if String.eqb s "" then d else s
  | None => d
  end.

(** [s.slice(0, n)]. *)
Definition slice0 (n : nat) (s : string) : string := String.substring 0 n s.

Definition in_range (lo hi : nat) (c : ascii) : bool :=
  let n := nat_of_ascii c in ((lo <=? n) && (n <=? hi))%nat.

(** The character class [[1-9A-HJ-NP-Za-km-z]]. *)
Definition is_base58_char (c : ascii) : bool :=
  in_range 49 57 c || in_range 65 72 c || in_range 74 78 c
  || in_range 80 90 c || in_range 97 107 c || in_range 109 122 c.

(** [/^[1-9A-HJ-NP-Za-km-z]{32,44}$/.test(s)]. *)
Definition base58_test (s : string) : bool :=
  forallb is_base58_char (list_ascii_of_string s)
  && ((32 <=? String.length s) && (String.length s <=? 44))%nat.

(** ASCII case folding, as the [i] flag does it for an ASCII pattern. *)
Definition upcase (c : ascii) : ascii :=
  if in_range 97 122 c then ascii_of_nat (nat_of_ascii c - 32) else c.

Fixpoint prefix_ci (p s : string) : bool :=
  match p, s with
  | EmptyString, _ => true
  | String a p', String b s' => Ascii.eqb (upcase a) (upcase b) && prefix_ci p' s'
  | String _ _, EmptyString => false
  end.

Fixpoint contains_ci (p s : string) : bool :=
  prefix_ci p s ||
  match s with
  | EmptyString => false
  | String _ s' => contains_ci p s'
  end.

(** [/(Swap|Transfer|Initialize|Deposit|Withdraw)/i.test(l)]. *)
Definition default_keywordRegex (l : string) : bool :=
  existsb (fun k => contains_ci k l)
    ["Swap"; "Transfer"; "Initialize"; "Deposit"; "Withdraw"].

(** ** Data *)

Record Pair := { wallet : option string; mint : option string }.

(** The persisted state file: [{ lastSlot, lastSig }]. *)
Record Cursor := { lastSlot : Z; lastSig : option string }.

Definition default_cursor : Cursor := {| lastSlot := 0; lastSig := None |}.

Inductive Source := backfill | stream.

Record Event := {
  source : Source;
  ev_pair : Pair;
  slot : Z;
  signature : string;
  err : option string;
  log : string;
}.

(** One entry of a [getSignaturesForAddress] result. *)
Record SigInfo := { si_signature : string; si_slot : Z }.

Record Balance := { b_mint : string; b_owner : option string }.

Record Meta := {
  preTokenBalances : list Balance;
  postTokenBalances : list Balance;
}.

(** An account key is a string or an object with a [pubkey]. *)
Inductive AccountKey := KeyStr (k : string) | KeyObj (pubkey : string).

Record Tx := { meta : option Meta; accountKeys : list AccountKey }.

(** The [result] member of a JSON-RPC response. *)
Inductive JResult :=
| JNull
| JSigs (l : list SigInfo)
| JTx (tx : Tx)
| JObject.

(** How one HTTP request ends. *)
Inductive Reply :=
| NetFail (e : string)
| HttpErr (e : string)
| RpcErr (e : string)
| Result (j : JResult).

Inductive Request :=
| getLatestBlockhash
| getSignaturesForAddress (w : string) (limit minContextSlot : Z)
| getTransaction (sig : string).

(** The network: the reply to the request issued as the [t]-th effect. *)
Definition Env := nat -> Request -> Reply.

Inductive Level := info | warn | error.

Inductive Ctx :=
| CNone
| CErr (e : string)
| CReconnect (delayMs : Z) (tag : string)
| CBackfill (limit : Z) (w m : option string)
| CSub (w m : option string) (commitment : string)
| CSubId (id : string)
| CClose (code : Z) (reason : string)
| CHttp (body : string).

(** The four callbacks handed to [setInterval] and [setTimeout]. *)
Inductive TimerKind := TPing | TLiveness | TIdle | TProbe.

Inductive Effect :=
| OnLog (lvl : Level) (msg : string) (c : Ctx)
| OnEvent (e : Event)
| SaveEvent (e : Event)
| Fetch (r : Request)
| WsNew (h : nat)
| WsSend (h : nat) (mentions : list string) (commitment : string)
| WsPing (h : nat)
| WsTerminate (h : nat)
| FsWrite (file : string) (c : Cursor)
| SetTimer (k : TimerKind) (delay : Z)
| Rejected (e : string).

(** ** Configuration ([cfg]) *)

Record Config := {
  commitment : string;
  persist : bool;
  persistDir : string;
  backfillLimit : Z;
  maxDetailConcurrency : Z;
  filterMode : string;
  keywordRegex : option (string -> bool);
  logPredicate : option (string -> bool);
  pingIntervalMs : Z;
  pongTimeoutMs : Z;
  maxBackoffMs : Z;
  noMsgTimeoutMs : Z;
  (** [None] is [null]; otherwise the callback, which returns the message
      of the error it throws or rejects with, if it does. *)
  saveEvent : option (Event -> option string);
}.

Definition default_config : Config := {|
  commitment := "finalized";
  persist := true;
  persistDir := ".helius_state";
  backfillLimit := 15;
  maxDetailConcurrency := 2;
  filterMode := "keywords";
  keywordRegex := Some default_keywordRegex;
  logPredicate := None;
  pingIntervalMs := 12000;
  pongTimeoutMs := 8000;
  maxBackoffMs := 5000;
  noMsgTimeoutMs := 60000;
  saveEvent := None;
|}.

(** ** State *)

(** Timer handles; [None] is [null]. *)
Record Timers := {
  ping : option nat;
  liveness : option nat;
  idle : option nat;
  probe : option nat;
}.

Record State := {
  ws : option nat;
  timers : Timers;
  backoffMs : Z;
  pair : Pair;
  inflightDetails : Z;
  seen : list string;
  shouldRun : bool;
}.

Definition initial_state : State := {|
  ws := None;
  timers := {| ping := None; liveness := None; idle := None; probe := None |};
  backoffMs := 1000;
  pair := {| wallet := None; mint := None |};
  inflightDetails := 0;
  seen := [];
  shouldRun := false;
|}.

(** ** What lives outside the closure *)

Inductive ReadyState := CONNECTING | OPEN | CLOSING | CLOSED.

(** A socket object: its [readyState] and which listeners it carries. *)
Record Socket := {
  readyState : ReadyState;
  listeners : bool;
  pong_listener : bool;
}.

(** A live-path detail fetch between its request and its reply. *)
Record Job := {
  j_signature : string;
  j_logs : list string;
  j_err : option string;
  j_slot : Z;
}.

Record World := {
  st : State;
  (** the state files, by path *)
  disk : gmap string Cursor;
  (** the socket objects, by handle *)
  socks : gmap nat Socket;
  (** timers that are armed: handle, callback, delay *)
  pool : list (nat * TimerKind * Z);
  (** detail fetches in flight *)
  jobs : list (nat * Job);
  (** next fresh handle *)
  fresh : nat;
  (** everything done to the outside, oldest first *)
  trace : list Effect;
}.

Definition initial_world : World := {|
  st := initial_state;
  disk := ∅;
  socks := ∅;
  pool := [];
  jobs := [];
  fresh := 0;
  trace := [];
|}.

(** Field updates. *)
Definition set_ws (v : option nat) (s : State) : State :=
  {| ws := v; timers := timers s; backoffMs := backoffMs s; pair := pair s;
     inflightDetails := inflightDetails s; seen := seen s;
     shouldRun := shouldRun s |}.
Definition set_timers (v : Timers) (s : State) : State :=
  {| ws := ws s; timers := v; backoffMs := backoffMs s; pair := pair s;
     inflightDetails := inflightDetails s; seen := seen s;
     shouldRun := shouldRun s |}.
Definition set_backoffMs (v : Z) (s : State) : State :=
  {| ws := ws s; timers := timers s; backoffMs := v; pair := pair s;
     inflightDetails := inflightDetails s; seen := seen s;
     shouldRun := shouldRun s |}.
Definition set_pair (v : Pair) (s : State) : State :=
  {| ws := ws s; timers := timers s; backoffMs := backoffMs s; pair := v;
     inflightDetails := inflightDetails s; seen := seen s;
     shouldRun := shouldRun s |}.
Definition set_inflightDetails (v : Z) (s : State) : State :=
  {| ws := ws s; timers := timers s; backoffMs := backoffMs s; pair := pair s;
     inflightDetails := v; seen := seen s; shouldRun := shouldRun s |}.
Definition set_seen (v : list string) (s : State) : State :=
  {| ws := ws s; timers := timers s; backoffMs := backoffMs s; pair := pair s;
     inflightDetails := inflightDetails s; seen := v;
     shouldRun := shouldRun s |}.
Definition set_shouldRun (v : bool) (s : State) : State :=
  {| ws := ws s; timers := timers s; backoffMs := backoffMs s; pair := pair s;
     inflightDetails := inflightDetails s; seen := seen s; shouldRun := v |}.

Definition with_st (f : State -> State) (w : World) : World :=
  {| st := f (st w); disk := disk w; socks := socks w; pool := pool w;
     jobs := jobs w; fresh := fresh w; trace := trace w |}.
Definition with_disk (f : gmap string Cursor -> gmap string Cursor)
    (w : World) : World :=
  {| st := st w; disk := f (disk w); socks := socks w; pool := pool w;
     jobs := jobs w; fresh := fresh w; trace := trace w |}.
Definition with_socks (f : gmap nat Socket -> gmap nat Socket)
    (w : World) : World :=
  {| st := st w; disk := disk w; socks := f (socks w); pool := pool w;
     jobs := jobs w; fresh := fresh w; trace := trace w |}.
Definition with_pool (f : list (nat * TimerKind * Z) -> list (nat * TimerKind * Z))
    (w : World) : World :=
  {| st := st w; disk := disk w; socks := socks w; pool := f (pool w);
     jobs := jobs w; fresh := fresh w; trace := trace w |}.
Definition with_jobs (f : list (nat * Job) -> list (nat * Job))
    (w : World) : World :=
  {| st := st w; disk := disk w; socks := socks w; pool := pool w;
     jobs := f (jobs w); fresh := fresh w; trace := trace w |}.
Definition with_fresh (f : nat -> nat) (w : World) : World :=
  {| st := st w; disk := disk w; socks := socks w; pool := pool w;
     jobs := jobs w; fresh := f (fresh w); trace := trace w |}.
Definition with_trace (f : list Effect -> list Effect) (w : World) : World :=
  {| st := st w; disk := disk w; socks := socks w; pool := pool w;
     jobs := jobs w; fresh := fresh w; trace := f (trace w) |}.

(** ** The monad: state that survives a [throw] *)

Inductive Res (A : Type) :=
| Ok (a : A)
| Throw (e : string).
Arguments Ok {A} a.
Arguments Throw {A} e.

Definition M (A : Type) : Type := World -> Res A * World.

Definition ret {A} (a : A) : M A := fun w => (Ok a, w).

Definition bind {A B} (m : M A) (k : A -> M B) : M B :=
  fun w =>
    match m w with
    | (Ok a, w') => k a w'
    | (Throw e, w') => (Throw e, w')
    end.

Definition throw {A} (e : string) : M A := fun w => (Throw e, w).

(** [try { m } catch (e) { h e }]. *)
Definition try_catch {A} (m : M A) (h : string -> M A) : M A :=
  fun w =>
    match m w with
    | (Ok a, w') => (Ok a, w')
    | (Throw e, w') => h e w'
    end.

Definition gets {A} (f : World -> A) : M A := fun w => (Ok (f w), w).
Definition modify (f : World -> World) : M unit := fun w => (Ok tt, f w).

Notation "x <- m ;; k" := (bind m (fun x => k))
  (at level 100, m at next level, right associativity).
Notation "m ;; k" := (bind m (fun _ => k))
  (at level 100, right associativity).

Definition when (b : bool) (m : M unit) : M unit := if b then m else ret tt.

(** Final world and result of a computation. *)
Definition exec {A} (m : M A) (w : World) : World := snd (m w).
Definition outcome {A} (m : M A) (w : World) : Res A := fst (m w).

Definition emit (e : Effect) : M unit :=
  modify (with_trace (fun t => t ++ [e])).

(** ** The seen-set: a JavaScript [Set], which keeps insertion order *)

Definition has (x : string) (s : list string) : bool :=
  existsb (String.eqb x) s.

(** [seen.add(x)]. *)
Definition add (x : string) (s : list string) : list string :=
  if has x s then s else s ++ [x].

(** [remember(sig)] on the set itself. *)
Definition remember_set (sig : string) (s : list string) : list string :=
  let s1 := add sig s in
  if (5000 <? Z.of_nat (length s1)) then tl s1 else s1.

(** ** Persistence helpers *)

Definition stateKey (w m : option string) : string :=
  let a := slice0 6 (or_default w "none") in
  let b := slice0 6 (or_default m "none") in
  a +:+ "_" +:+ b.

(** [path.join(dir, name)], for a directory and a plain file name. *)
Definition path_join (dir name : string) : string := dir +:+ "/" +:+ name.

(** ** Timers and sockets, as Node and the [ws] package provide them *)

Definition set_ping (v : option nat) (t : Timers) : Timers :=
  {| ping := v; liveness := liveness t; idle := idle t; probe := probe t |}.
Definition set_liveness (v : option nat) (t : Timers) : Timers :=
  {| ping := ping t; liveness := v; idle := idle t; probe := probe t |}.
Definition set_idle (v : option nat) (t : Timers) : Timers :=
  {| ping := ping t; liveness := liveness t; idle := v; probe := probe t |}.
Definition set_probe (v : option nat) (t : Timers) : Timers :=
  {| ping := ping t; liveness := liveness t; idle := idle t; probe := v |}.

Definition handle_is (h : nat) (x : nat * TimerKind * Z) : bool :=
  (fst (fst x) =? h)%nat.

(** [setTimeout(cb, delay)] and [setInterval(cb, delay)]: a fresh handle. *)
Definition setTimer (k : TimerKind) (delay : Z) : M nat :=
  fun w =>
    (Ok (fresh w),
     with_trace (fun t => t ++ [SetTimer k delay])
       (with_fresh S (with_pool (fun p => p ++ [(fresh w, k, delay)]) w))).

(** [clearTimeout(h)] and [clearInterval(h)]. *)
Definition clearTimer (h : nat) : M unit :=
  modify (with_pool (List.filter (fun x => negb (handle_is h x)))).

(** [if (t) clearTimeout(t)]: the variable keeps the stale handle. *)
Definition clear_handle (o : option nat) : M unit :=
  match o with
  | Some h => clearTimer h
  | None => ret tt
  end.

Definition set_readyState (r : ReadyState) (s : Socket) : Socket :=
  {| readyState := r; listeners := listeners s;
     pong_listener := pong_listener s |}.

Definition is_open (h : nat) (w : World) : bool :=
  match socks w !! h with
  | Some s => match readyState s with OPEN => true | _ => false end
  | None => false
  end.

(** [new WebSocket(WS_URL, ...)]. *)
Definition new_WebSocket : M nat :=
  fun w =>
    let h := fresh w in
    (Ok h,
     with_trace (fun t => t ++ [WsNew h])
       (with_fresh S
          (with_socks
             (insert h {| readyState := CONNECTING; listeners := false;
                          pong_listener := false |}) w))).

(** [s.terminate()]: nothing on a closed socket; the [close] event follows
    later. *)
Definition terminate (h : nat) : M unit :=
  emit (WsTerminate h);;
  modify (with_socks (alter (fun s =>
    match readyState s with
    | CLOSED => s
    | _ => set_readyState CLOSING s
    end) h)).

Definition removeAllListeners (h : nat) : M unit :=
  modify (with_socks (alter (fun s =>
    {| readyState := readyState s; listeners := false;
       pong_listener := false |}) h)).

Definition attach_listeners (h : nat) : M unit :=
  modify (with_socks (alter (fun s =>
    {| readyState := readyState s; listeners := true;
       pong_listener := pong_listener s |}) h)).

Definition attach_pong (h : nat) : M unit :=
  modify (with_socks (alter (fun s =>
    {| readyState := readyState s; listeners := listeners s;
       pong_listener := true |}) h)).

Definition get_st : M State := gets st.
Definition modify_st (f : State -> State) : M unit := modify (with_st f).
Definition modify_timers (f : Timers -> Timers) : M unit :=
  modify_st (fun s => set_timers (f (timers s)) s).

(** [try { ws.terminate() } catch {}]: with [ws] null the [TypeError] is
    swallowed. *)
Definition try_ws_terminate : M unit :=
  s <- get_st;;
  match ws s with
  | Some h => terminate h
  | None => ret tt
  end.

(** [Math.round(b * 1.5)] on an integer [b]: the product is exact in a
    double for every [b] below 2^51, and [Math.round] rounds a half up,
    so the result is the floor of [(3b + 1) / 2]. *)
Definition round_times_1_5 (b : Z) : Z := (3 * b + 1) / 2.

(** ** The client *)

Section Client.

Variable cfg : Config.
Variable env : Env.

Definition onLog (l : Level) (msg : string) (c : Ctx) : M unit :=
  emit (OnLog l msg c).

Definition stateFile (w m : option string) : string :=
  path_join (persistDir cfg) ("state_" +:+ stateKey w m +:+ ".json").

(** A missing or unreadable file gives the default. *)
Definition loadState (w m : option string) : M Cursor :=
  if negb (persist cfg) then ret default_cursor
  else
    d <- gets disk;;
    ret (default default_cursor (d !! stateFile w m)).

(** Failures of [mkdirSync] and [writeFileSync] are swallowed by the
    source; the disk of the model is always writable. *)
Definition saveState (w m : option string) (c : Cursor) : M unit :=
  if negb (persist cfg) then ret tt
  else
    emit (FsWrite (stateFile w m) c);;
    modify (with_disk (insert (stateFile w m) c)).

Definition remember (sig : string) : M unit :=
  modify_st (fun s => set_seen (remember_set sig (seen s)) s).

Definition clear_key (get : Timers -> option nat)
    (set : option nat -> Timers -> Timers) : M unit :=
  s <- get_st;;
  match get (timers s) with
  | Some h => clearTimer h;; modify_timers (set None)
  | None => ret tt
  end.

Definition clearAllTimers : M unit :=
  clear_key ping set_ping;;
  clear_key liveness set_liveness;;
  clear_key idle set_idle;;
  clear_key probe set_probe.

(** The part of [rpc] before its [await]: the request leaves.  The value
    is the time of the request, which selects the reply. *)
Definition rpc_send (r : Request) : M nat :=
  t <- gets (fun w => length (trace w));;
  emit (Fetch r);;
  ret t.

(** The part of [rpc] after its [await].  An aborted request (the
    [rpcTimeoutMs] timer) is a [NetFail]. *)
Definition rpc_recv (r : Reply) : M JResult :=
  match r with
  | NetFail e => throw e
  | HttpErr e => throw ("HTTP " +:+ e)
  | RpcErr e => throw e
  | Result j => ret j
  end.

Definition rpc (r : Request) : M JResult :=
  t <- rpc_send r;;
  rpc_recv (env t r).

Definition key_string (k : AccountKey) : string :=
  match k with
  | KeyStr s => s
  | KeyObj p => p
  end.

(** The two checks of [txHasWalletMintPair] on a transaction with [meta]. *)
Definition mintSeen (p : Pair) (m : Meta) : bool :=
  match mint p with
  | Some mt =>
      truthy (Some mt)
      && existsb (fun b => String.eqb (b_mint b) mt)
           (preTokenBalances m ++ postTokenBalances m)
  | None => false
  end.

Definition walletSeen (p : Pair) (m : Meta) (keys : list AccountKey) : bool :=
  match wallet p with
  | Some wl =>
      truthy (Some wl)
      && (existsb (fun b =>
                     match b_owner b with
                     | Some o => String.eqb o wl
                     | None => false
                     end)
            (preTokenBalances m ++ postTokenBalances m)
          || existsb (String.eqb wl) (map key_string keys))
  | None => false
  end.

(** Whether a transaction touches both the wallet and the mint of [p]. *)
Definition touches (p : Pair) (tx : Tx) : bool :=
  match meta tx with
  | Some m => mintSeen p m && walletSeen p m (accountKeys tx)
  | None => false
  end.

(** [txHasWalletMintPair] from the reply of its [getTransaction] on. *)
Definition txHasWalletMintPair_k (r : Reply) : M bool :=
  try_catch
    (j <- rpc_recv r;;
     s <- get_st;;
     match j with
     | JTx tx => ret (touches (pair s) tx)
     | _ => ret false
     end)
    (fun e =>
       onLog error "txHasWalletMintPair failed" (CErr e);;
       ret false).

Definition txHasWalletMintPair (sig : string) : M bool :=
  t <- rpc_send (getTransaction sig);;
  txHasWalletMintPair_k (env t (getTransaction sig)).

(** [if (cfg.saveEvent) await Promise.resolve(cfg.saveEvent(event))].  The
    call is run to its completion in place: what other turns of the event
    loop do while it is awaited is outside this model. *)
Definition run_saveEvent (e : Event) : M unit :=
  match saveEvent cfg with
  | Some f =>
      emit (SaveEvent e);;
      match f e with
      | Some msg => throw msg
      | None => ret tt
      end
  | None => ret tt
  end.

(** The event [backfillOnce] builds for an item. *)
Definition backfill_event (w m : option string) (i : SigInfo) : Event :=
  {| source := backfill; ev_pair := {| wallet := w; mint := m |};
     slot := si_slot i; signature := si_signature i; err := None;
     log := "backfill-scan" |}.

(** The [for] loop of [backfillOnce]. *)
Fixpoint backfill_loop (w m : option string) (sigs : list SigInfo) : M unit :=
  match sigs with
  | [] => ret tt
  | i :: rest =>
      s <- get_st;;
      if has (si_signature i) (seen s) then backfill_loop w m rest
      else
        ok <- txHasWalletMintPair (si_signature i);;
        if negb ok then backfill_loop w m rest
        else
          let event := backfill_event w m i in
          run_saveEvent event;;
          emit (OnEvent event);;
          remember (si_signature i);;
          c <- loadState w m;;
          saveState w m
            {| lastSlot := Z.max (lastSlot c) (si_slot i);
               lastSig := Some (si_signature i) |};;
          backfill_loop w m rest
  end.

(** One turn of that loop: the body with its [continue]s. *)
Definition backfill_item (w m : option string) (i : SigInfo) : M unit :=
  s <- get_st;;
  if has (si_signature i) (seen s) then ret tt
  else
    ok <- txHasWalletMintPair (si_signature i);;
    if negb ok then ret tt
    else
      let event := backfill_event w m i in
      run_saveEvent event;;
      emit (OnEvent event);;
      remember (si_signature i);;
      c <- loadState w m;;
      saveState w m
        {| lastSlot := Z.max (lastSlot c) (si_slot i);
           lastSig := Some (si_signature i) |}.

Definition backfillOnce (w m : option string) (lastKnownSlot : Z) : M unit :=
  try_catch
    (onLog info "Backfill start" (CBackfill (backfillLimit cfg) w m);;
     if negb (truthy w) then ret tt
     else
       let since := Z.max 0 (lastKnownSlot - 1) in
       j <- rpc (getSignaturesForAddress (or_default w "")
                   (backfillLimit cfg) since);;
       sigs <- match j with
               | JSigs l => ret l
               | JNull => ret []
               | _ => throw "TypeError: sigs is not iterable"
               end;;
       backfill_loop w m sigs)
    (fun e => onLog error "Backfill error" (CErr e)).

Definition startHeartbeat : M unit :=
  s <- get_st;;
  clear_handle (ping (timers s));;
  clear_handle (liveness (timers s));;
  h <- setTimer TPing (pingIntervalMs cfg);;
  modify_timers (set_ping (Some h));;
  match ws s with
  | Some sk => attach_pong sk
  | None => throw "TypeError: Cannot read properties of null (reading 'on')"
  end.

Definition armIdleRecycle : M unit :=
  s <- get_st;;
  clear_handle (idle (timers s));;
  h <- setTimer TIdle (noMsgTimeoutMs cfg);;
  modify_timers (set_idle (Some h)).

(** The [mentions] of [buildSub]. *)
Definition buildSub (p : Pair) : list string :=
  (if truthy (wallet p) then [or_default (wallet p) ""] else [])
  ++ (if truthy (mint p)
         && negb (bool_decide (mint p = wallet p))
      then [or_default (mint p) ""] else []).

Definition isImportantLog (logs : list string) : bool :=
  match logs with
  | [] => false
  | _ =>
      if String.eqb (filterMode cfg) "keywords" then
        existsb (default default_keywordRegex (keywordRegex cfg)) logs
      else
        match logPredicate cfg with
        | Some p => existsb p logs
        | None => true
        end
  end.

Definition scheduleReconnect (tag : string) : M unit :=
  s <- get_st;;
  if negb (shouldRun s) then ret tt
  else
    let b := Z.min (maxBackoffMs cfg) (round_times_1_5 (backoffMs s)) in
    modify_st (set_backoffMs b);;
    onLog warn "Reconnect scheduled" (CReconnect b tag);;
    h <- setTimer TProbe b;;
    modify_timers (set_probe (Some h)).

Definition connect : M unit :=
  s <- get_st;;
  if negb (shouldRun s) then ret tt
  else if negb (truthy (wallet (pair s))) || negb (truthy (mint (pair s)))
  then ret tt
  else
    match ws s with
    | Some h => removeAllListeners h
    | None => ret tt
    end;;
    clearAllTimers;;
    h <- new_WebSocket;;
    modify_st (set_ws (Some h));;
    attach_listeners h.

(** *** Socket listeners installed by [connect] *)

Definition on_open : M unit :=
  onLog info "Connected to Helius WS" CNone;;
  modify_st (set_backoffMs 1000);;
  startHeartbeat;;
  s <- get_st;;
  match ws s with
  | Some h =>
      (* [ws.send] throws on a connecting socket and sends on an open one *)
      sk <- gets (fun w => socks w !! h);;
      match readyState <$> sk with
      | Some OPEN => emit (WsSend h (buildSub (pair s)) (commitment cfg))
      | Some CONNECTING => throw "WebSocket is not open: readyState 0 (CONNECTING)"
      | _ => ret tt
      end
  | None => throw "TypeError: Cannot read properties of null (reading 'send')"
  end;;
  onLog info "Sent subscription (mentions wallet+mint)"
    (CSub (wallet (pair s)) (mint (pair s)) (commitment cfg));;
  armIdleRecycle.

(** An inbound frame, as the [message] listener tells them apart. *)
Inductive Message :=
| Unparseable
| Ack (id : string)
| LogsNotification (sig : string) (logs : list string) (e : option string)
    (sl : Z)
| OtherMessage.

Definition add_job (j : Job) : M unit :=
  fun w =>
    (Ok tt, with_fresh S (with_jobs (fun l => l ++ [(fresh w, j)]) w)).

Definition on_message (m : Message) : M unit :=
  try_catch
    (match m with
     | Unparseable => throw "SyntaxError: Unexpected token"
     | Ack id =>
         onLog info "Subscribed" (CSubId id);;
         armIdleRecycle
     | LogsNotification sig logs e sl =>
         armIdleRecycle;;
         s <- get_st;;
         if has sig (seen s) then ret tt
         else if negb (isImportantLog logs) then ret tt
         else if maxDetailConcurrency cfg <=? inflightDetails s then ret tt
         else
           modify_st (fun s => set_inflightDetails (inflightDetails s + 1) s);;
           (* the async block runs up to the [fetch] of its detail call *)
           rpc_send (getTransaction sig);;
           add_job {| j_signature := sig; j_logs := logs; j_err := e;
                      j_slot := sl |}
     | OtherMessage => ret tt
     end)
    (fun e => onLog error "message parse failed" (CErr e)).

(** The async block of the [message] listener from the reply of its detail
    fetch on, with its [.catch]. *)
Definition detail_k (j : Job) (r : Reply) : M unit :=
  try_catch
    (ok <- txHasWalletMintPair_k r;;
     modify_st (fun s => set_inflightDetails (inflightDetails s - 1) s);;
     if negb ok then ret tt
     else
       s <- get_st;;
       let event :=
         {| source := stream;
            ev_pair := {| wallet := wallet (pair s); mint := mint (pair s) |};
            slot := j_slot j; signature := j_signature j;
            err := if truthy (j_err j) then j_err j else None;
            log := hd "" (j_logs j) |} in
       run_saveEvent event;;
       emit (OnEvent event);;
       remember (j_signature j);;
       s <- get_st;;
       c <- loadState (wallet (pair s)) (mint (pair s));;
       saveState (wallet (pair s)) (mint (pair s))
         {| lastSlot := j_slot j; lastSig := Some (j_signature j) |})
    (fun e =>
       modify_st (fun s => set_inflightDetails (inflightDetails s - 1) s);;
       onLog error "detail fetch failed" (CErr e)).

Definition on_error (e : string) : M unit :=
  onLog error "WS error" (CErr e);;
  try_ws_terminate.

Definition on_close (code : Z) (reason : string) : M unit :=
  onLog warn "WS closed" (CClose code reason);;
  scheduleReconnect "close".

Definition on_unexpected_response (body : string) : M unit :=
  try_ws_terminate;;
  onLog error "Unexpected WS response" (CHttp (slice0 200 body)).

(** The [pong] listener installed by [startHeartbeat]. *)
Definition on_pong : M unit :=
  s <- get_st;;
  clear_handle (liveness (timers s)).

(** *** Timer callbacks *)

Definition ping_callback : M unit :=
  s <- get_st;;
  match ws s with
  | Some h =>
      o <- gets (is_open h);;
      if negb o then ret tt
      else
        emit (WsPing h);;
        clear_handle (liveness (timers s));;
        l <- setTimer TLiveness (pongTimeoutMs cfg);;
        modify_timers (set_liveness (Some l))
  | None => ret tt
  end.

Definition liveness_callback : M unit :=
  onLog warn "WS liveness timeout; terminating" CNone;;
  try_ws_terminate.

Definition idle_callback : M unit :=
  s <- get_st;;
  match ws s with
  | Some h =>
      o <- gets (is_open h);;
      if negb o then ret tt
      else
        onLog warn "No messages for a while — recycle socket" CNone;;
        terminate h
  | None => ret tt
  end.

Definition probe_callback : M unit :=
  try_catch
    (rpc getLatestBlockhash;;
     connect)
    (fun e =>
       onLog warn "Probe failed; will retry" (CErr e);;
       scheduleReconnect "probe-failed").

Definition timer_callback (k : TimerKind) : M unit :=
  match k with
  | TPing => ping_callback
  | TLiveness => liveness_callback
  | TIdle => idle_callback
  | TProbe => probe_callback
  end.

(** *** The public operations *)

Definition start (p : Pair) : M unit :=
  if negb (truthy (wallet p)) || negb (truthy (mint p)) then
    throw "start({ wallet, mint }) requires both fields"
  else if negb (base58_test (or_default (wallet p) "")) then
    throw "Invalid wallet (base58 expected)"
  else if negb (base58_test (or_default (mint p) "")) then
    throw "Invalid mint (base58 expected)"
  else
    (* preflight: a plain [fetch], not [rpc] *)
    try_catch
      (t <- rpc_send getLatestBlockhash;;
       match env t getLatestBlockhash with
       | NetFail e => throw e
       | HttpErr e => throw ("HTTP " +:+ e)
       | RpcErr e => throw ("RPC error " +:+ e)
       | Result _ => onLog info "Helius HTTP probe OK" CNone
       end)
      (fun e =>
         onLog error "Helius HTTP probe failed" (CErr e);;
         throw e);;
    modify_st (set_pair {| wallet := wallet p; mint := mint p |});;
    modify_st (set_shouldRun true);;
    c <- loadState (wallet p) (mint p);;
    backfillOnce (wallet p) (mint p) (lastSlot c);;
    connect.

Definition stop : M unit :=
  modify_st (set_shouldRun false);;
  clearAllTimers;;
  s <- get_st;;
  match ws s with
  | Some h => terminate h
  | None => ret tt
  end;;
  modify_st (set_ws None).

Definition setPair (p : Pair) : M unit :=
  stop;;
  start p.

Definition isConnected : M bool :=
  s <- get_st;;
  match ws s with
  | Some h => gets (is_open h)
  | None => ret false
  end.

(** ** The event loop *)

Inductive Input :=
| CallStart (p : Pair)
| CallStop
| CallSetPair (p : Pair)
| SockOpen (h : nat)
| SockMessage (h : nat) (m : Message)
| SockError (h : nat) (e : string)
| SockClose (h : nat) (code : Z) (reason : string)
| SockPong (h : nat)
| SockUnexpectedResponse (h : nat) (body : string)
| Fire (h : nat)
| DetailReply (j : nat) (r : Reply).

(** A rejected promise goes back to the caller. *)
Definition api (m : M unit) : M unit :=
  try_catch m (fun e => emit (Rejected e)).

Definition job_is (j : nat) (x : nat * Job) : bool := (fst x =? j)%nat.

(** One turn of the event loop.  An input that cannot happen (an event of
    a socket that does not exist, a timer that is not armed, a reply nobody
    waits for) changes nothing, and an event without a listener calls
    nothing, except [error]: an emitter throws an [error] event that has
    no listener.  A [Throw] that leaves [step] is an uncaught exception.

    [start] and [setPair] are run to their end within the turn of their
    call, the replies of their requests being read from [env]: what other
    turns do while such a call is awaited is outside this model. *)
Definition step (i : Input) : M unit :=
  match i with
  | CallStart p => api (start p)
  | CallStop => stop
  | CallSetPair p => api (setPair p)
  | SockOpen h =>
      sk <- gets (fun w => socks w !! h);;
      match sk with
      | Some s =>
          match readyState s with
          | CONNECTING =>
              modify (with_socks (alter (set_readyState OPEN) h));;
              when (listeners s) on_open
          | _ => ret tt
          end
      | None => ret tt
      end
  | SockMessage h m =>
      sk <- gets (fun w => socks w !! h);;
      match sk with
      | Some s =>
          match readyState s with
          | OPEN => when (listeners s) (on_message m)
          | _ => ret tt
          end
      | None => ret tt
      end
  | SockError h e =>
      sk <- gets (fun w => socks w !! h);;
      match sk with
      | Some s =>
          match readyState s with
          | CLOSED => ret tt
          | _ => if listeners s then on_error e else throw e
          end
      | None => ret tt
      end
  | SockClose h code reason =>
      sk <- gets (fun w => socks w !! h);;
      match sk with
      | Some s =>
          match readyState s with
          | CLOSED => ret tt
          | _ =>
              modify (with_socks (alter (set_readyState CLOSED) h));;
              when (listeners s) (on_close code reason)
          end
      | None => ret tt
      end
  | SockPong h =>
      sk <- gets (fun w => socks w !! h);;
      match sk with
      | Some s =>
          match readyState s with
          | OPEN => when (pong_listener s) on_pong
          | _ => ret tt
          end
      | None => ret tt
      end
  | SockUnexpectedResponse h body =>
      sk <- gets (fun w => socks w !! h);;
      match sk with
      | Some s =>
          match readyState s with
          | CONNECTING => when (listeners s) (on_unexpected_response body)
          | _ => ret tt
          end
      | None => ret tt
      end
  | Fire h =>
      p <- gets pool;;
      match List.find (handle_is h) p with
      | Some (_, k, _) =>
          match k with
          | TPing => ret tt
          | _ => clearTimer h
          end;;
          timer_callback k
      | None => ret tt
      end
  | DetailReply j r =>
      l <- gets jobs;;
      match List.find (job_is j) l with
      | Some (_, job) =>
          modify (with_jobs (List.filter (fun x => negb (job_is j x))));;
          detail_k job r
      | None => ret tt
      end
  end.

Fixpoint run (l : list Input) : M unit :=
  match l with
  | [] => ret tt
  | i :: rest => step i;; run rest
  end.

End Client.

(** ** The stream routes of the API server

    The handlers of [/stream/start], [/stream/stop] and [/stream/status],
    which drive one client created by [createWalletMintStream].  The module
    state of the server is [currentPair]; its own log lines go to the
    console.  A request body is the pair of its [wallet] and [mint] members,
    each a string or missing. *)

(** A line written by [jlog]. *)
Inductive LogLine :=
| LogErr (level msg err : string)
| LogPrev (level msg : string) (prev : Pair).

Record App := {
  currentPair : Pair;
  console : list LogLine;
}.

Definition initial_app : App :=
  {| currentPair := {| wallet := None; mint := None |}; console := [] |}.

Definition jlog (l : LogLine) (a : App) : App :=
  {| currentPair := currentPair a; console := console a ++ [l] |}.

Definition set_currentPair (p : Pair) (a : App) : App :=
  {| currentPair := p; console := console a |}.

(** The JSON bodies the three routes answer with. *)
Inductive Body :=
| BError (error : string)
| BConnected (w m : option string)
| BStopped (prev : Pair)
| BStatus (connected : bool) (p : Pair).

Record Response := { status : Z; body : Body }.

Section Routes.

Variable cfg : Config.
Variable env : Env.

(** [api.post("/stream/start", ...)]; [req_body] is [None] when the request
    has no body. *)
Definition route_stream_start (req_body : option Pair) (a : App)
    : M (Response * App) :=
  let p := default {| wallet := None; mint := None |} req_body in
  if negb (truthy (wallet p)) || negb (truthy (mint p)) then
    ret ({| status := 400;
            body := BError "'wallet' and 'mint' are required" |}, a)
  else
    try_catch
      (let same :=
         bool_decide (wallet (currentPair a) = wallet p)
         && bool_decide (mint (currentPair a) = mint p) in
       connected <- (if same then isConnected else ret false);;
       if same && connected then
         ret ({| status := 200; body := BConnected (wallet p) (mint p) |}, a)
       else
         (if truthy (wallet (currentPair a)) && truthy (mint (currentPair a))
          then setPair cfg env {| wallet := wallet p; mint := mint p |}
          else start cfg env {| wallet := wallet p; mint := mint p |});;
         ret ({| status := 200; body := BConnected (wallet p) (mint p) |},
              set_currentPair {| wallet := wallet p; mint := mint p |} a))
      (fun e =>
         ret ({| status := 500; body := BError e |},
              jlog (LogErr "error" "/api/stream/start failed" e) a)).

(** [api.post("/stream/stop", ...)]. *)
Definition route_stream_stop (a : App) : M (Response * App) :=
  try_catch
    (stop;;
     let prev := currentPair a in
     ret ({| status := 200; body := BStopped prev |},
          jlog (LogPrev "info" "/api/stream/stop ok" prev)
            (set_currentPair {| wallet := None; mint := None |} a)))
    (fun e =>
       ret ({| status := 500; body := BError e |},
            jlog (LogErr "error" "/api/stream/stop failed" e) a)).

(** [api.get("/stream/status", ...)]. *)
Definition route_stream_status (a : App) : M (Response * App) :=
  connected <- isConnected;;
  ret ({| status := 200; body := BStatus connected (currentPair a) |}, a).

End Routes.

(** ** The stream routes of [public/scripts/index.js]

    A second server drives the client through adapters and validates the
    identifiers itself.  Its module state is [currentPair] and
    [connectedFlag].  A request carries a JSON body and a query string,
    each an object whose members are strings. *)

Definition Fields := list (string * string).

(** [o.k] for an object whose members are strings. *)
Definition field (k : string) (o : Fields) : option string :=
  snd <$> List.find (fun x => String.eqb (fst x) k) o.

Record Req := { req_body : option Fields; req_query : Fields }.

Inductive IndexLog :=
| IxConnected (w m : option string)
| IxFailed (msg err : string)
| IxStopped (prev : Pair).

Record Index := {
  ix_currentPair : Pair;
  connectedFlag : bool;
  ix_console : list IndexLog;
}.

Definition ix_log (l : IndexLog) (a : Index) : Index :=
  {| ix_currentPair := ix_currentPair a; connectedFlag := connectedFlag a;
     ix_console := ix_console a ++ [l] |}.

(** [typeof s === "string" && /^[1-9A-HJ-NP-Za-km-z]{32,48}$/.test(s)], on a
    string. *)
Definition isBase58 (s : string) : bool :=
  forallb is_base58_char (list_ascii_of_string s)
  && ((32 <=? String.length s) && (String.length s <=? 48))%nat.

(** [v || null]. *)
Definition or_null (o : option string) : option string :=
  if truthy o then o else None.

(** [(req.body && Object.keys(req.body).length ? req.body : req.query)]. *)
Definition args_of (r : Req) : Fields :=
  match req_body r with
  | Some b => if (0 <? length b)%nat then b else req_query r
  | None => req_query r
  end.

Section Index.

Variable cfg : Config.
Variable env : Env.

(** The client has [start] and no [connect]. *)
Definition startStreamImpl (p : Pair) : M unit := start cfg env p.

(** The client has [stop] and no [disconnect]. *)
Definition stopStreamImpl : M unit := stop.

(** The client has [isConnected]. *)
Definition isStreamConnected : M bool := isConnected.

Definition startStream (r : Req) (a : Index) : M (Response * Index) :=
  let wallet := field "wallet" (args_of r) in
  let mint := field "mint" (args_of r) in
  if negb (truthy wallet) && negb (truthy mint) then
    ret ({| status := 400; body := BError "Provide wallet and/or mint" |}, a)
  else if truthy wallet && negb (isBase58 (default "" wallet)) then
    ret ({| status := 400; body := BError "Invalid wallet (base58 expected)" |},
         a)
  else if truthy mint && negb (isBase58 (default "" mint)) then
    ret ({| status := 400; body := BError "Invalid mint (base58 expected)" |},
         a)
  else
    try_catch
      (startStreamImpl {| wallet := wallet; mint := mint |};;
       ret ({| status := 200; body := BConnected wallet mint |},
            ix_log (IxConnected wallet mint)
              {| ix_currentPair :=
                   {| wallet := or_null wallet; mint := or_null mint |};
                 connectedFlag := true;
                 ix_console := ix_console a |}))
      (fun e =>
         ret ({| status := 500; body := BError e |},
              ix_log (IxFailed "/api/stream/start failed" e) a)).

Definition stopStream (a : Index) : M (Response * Index) :=
  try_catch
    (stopStreamImpl;;
     let prev := ix_currentPair a in
     ret ({| status := 200; body := BStopped prev |},
          ix_log (IxStopped prev)
            {| ix_currentPair := {| wallet := None; mint := None |};
               connectedFlag := false;
               ix_console := ix_console a |}))
    (fun e =>
       ret ({| status := 500; body := BError e |},
            ix_log (IxFailed "/api/stream/stop failed" e) a)).

End Index.

(** ** What a trace shows *)

(** The [onEvent] calls, in order. *)
Definition emitted (t : list Effect) : list Event :=
  omap (fun e => match e with OnEvent ev => Some ev | _ => None end) t.

(** The delays of the reconnect timers, in the order they were armed. *)
Definition reconnect_delays (t : list Effect) : list Z :=
  omap (fun e => match e with SetTimer TProbe d => Some d | _ => None end) t.

(** The signatures whose detail was requested. *)
Definition detail_fetches (t : list Effect) : list string :=
  omap (fun e =>
          match e with
          | Fetch (getTransaction s) => Some s
          | _ => None
          end) t.

(** The history requests: address, limit, minContextSlot. *)
Definition history_requests (t : list Effect) : list (string * Z * Z) :=
  omap (fun e =>
          match e with
          | Fetch (getSignaturesForAddress a l s) => Some (a, l, s)
          | _ => None
          end) t.

(** The [lastSlot] values written to a state file. *)
Definition cursor_writes (f : string) (t : list Effect) : list Z :=
  omap (fun e =>
          match e with
          | FsWrite g c => if String.eqb f g then Some (lastSlot c) else None
          | _ => None
          end) t.

(** The seen-set after remembering [l] in order. *)
Definition replay (l : list string) (s : list string) : list string :=
  fold_left (fun acc x => remember_set x acc) l s.

Definition no_timers : Timers :=
  {| ping := None; liveness := None; idle := None; probe := None |}.

(** A pair that [start] accepts. *)
Definition valid_pair (p : Pair) : Prop :=
  exists w m, wallet p = Some w /\ mint p = Some m
              /\ base58_test w = true /\ base58_test m = true.

(** A pair with a field missing or a field that is not base58. *)
Definition malformed (p : Pair) : Prop :=
  wallet p = None \/ mint p = None
  \/ (exists s, wallet p = Some s /\ base58_test s = false)
  \/ (exists s, mint p = Some s /\ base58_test s = false).

(** ** Concrete data for the examples *)

Definition wallet_A : string := "9xQeWvG816bUx9EPjHmaT23yvVM2ZWbrrpZb9PusVFin".
Definition wallet_B : string := "9xQeWvHs3kJ7Rq2LmNpT4uVwXyZaBcDeFgHiJkLm".
Definition mint_M : string := "EPjFWdd5AufqSSqeM2qN1xzybapC8G4wEGGkZwyTDt1v".

Definition pair_AM : Pair := {| wallet := Some wallet_A; mint := Some mint_M |}.
Definition pair_BM : Pair := {| wallet := Some wallet_B; mint := Some mint_M |}.

(** A wallet that is not base58: it contains [0], [O] and [l]. *)
Definition pair_bad : Pair :=
  {| wallet := Some "0OlIwallet"; mint := Some mint_M |}.

(** A transaction that touches both [wallet_A] and [mint_M]. *)
Definition tx_AM : Tx :=
  {| meta := Some {| preTokenBalances :=
                       [{| b_mint := mint_M; b_owner := Some wallet_A |}];
                     postTokenBalances := [] |};
     accountKeys := [] |}.

(** A network on which every request succeeds, with an empty history. *)
Definition env_quiet : Env :=
  fun _ r =>
    match r with
    | getLatestBlockhash => Result JObject
    | getSignaturesForAddress _ _ _ => Result (JSigs [])
    | getTransaction _ => Result (JTx tx_AM)
    end.

(** The value [scheduleReconnect] stores and waits for. *)
Definition grow (cfg : Config) (b : Z) : Z :=
  Z.min (maxBackoffMs cfg) (round_times_1_5 b).

(** The network answers the preflight of a [start] issued at time 0 and is
    down from then on. *)
Definition env_flaky : Env :=
  fun t r =>
    match r with
    | getLatestBlockhash =>
        match t with
        | O => Result JObject
        | _ => NetFail "connect ECONNREFUSED"
        end
    | getSignaturesForAddress _ _ _ => Result (JSigs [])
    | getTransaction _ => NetFail "connect ECONNREFUSED"
    end.

(** A request that did not succeed. *)
Definition failed (r : Reply) : bool :=
  match r with
  | Result _ => false
  | _ => true
  end.

(** The reconnect timer fires [n] times in a row. *)
Fixpoint probes (cfg : Config) (env : Env) (n : nat) : M unit :=
  match n with
  | O => ret tt
  | S k => probe_callback cfg env;; probes cfg env k
  end.

(** The socket closes and the next [n] probes fail: [n + 1] consecutive
    failed attempts. *)
Definition close_then_probes (cfg : Config) (env : Env) (n : nat) : M unit :=
  on_close cfg 1006 "";; probes cfg env n.

(** The values [scheduleReconnect] computes from [b] on. *)
Fixpoint delays_from (cfg : Config) (b : Z) (n : nat) : list Z :=
  match n with
  | O => []
  | S k => grow cfg b :: delays_from cfg (grow cfg b) k
  end.

(** A network whose history of [wallet_A] holds one transaction, at
    slot 50, and on which every transaction touches the pair. *)
Definition env_one : Env :=
  fun _ r =>
    match r with
    | getLatestBlockhash => Result JObject
    | getSignaturesForAddress _ _ _ =>
        Result (JSigs [{| si_signature := "sigA"; si_slot := 50 |}])
    | getTransaction _ => Result (JTx tx_AM)
    end.

(** The state file of [pair_AM] under the default configuration. *)
Definition file_AM : string :=
  stateFile default_config (Some wallet_A) (Some mint_M).

(** The [lastSlot] a state file holds. *)
Definition stored_slot (f : string) (w : World) : Z :=
  lastSlot (default default_cursor (disk w !! f)).

(** The history lists two transactions; the detail of the first cannot be
    fetched, the second touches the pair. *)
Definition env_detail_down : Env :=
  fun _ r =>
    match r with
    | getLatestBlockhash => Result JObject
    | getSignaturesForAddress _ _ _ =>
        Result (JSigs [{| si_signature := "sigA"; si_slot := 50 |};
                       {| si_signature := "sigB"; si_slot := 40 |}])
    | getTransaction s =>
        if String.eqb s "sigA" then NetFail "network timeout"
        else Result (JTx tx_AM)
    end.

(** The node answers the health probe and refuses the history request. *)
Definition env_history_down : Env :=
  fun _ r =>
    match r with
    | getLatestBlockhash => Result JObject
    | getSignaturesForAddress _ _ _ => RpcErr "-32005 Too many requests"
    | getTransaction _ => Result (JTx tx_AM)
    end.

(** The message of the error a failed request is thrown as by [rpc]. *)
Definition failure_message (r : Reply) : string :=
  match r with
  | NetFail e => e
  | HttpErr e => "HTTP " +:+ e
  | RpcErr e => e
  | Result _ => ""
  end.

(** The world in which [start] runs its backfill: the preflight has been
    answered, the pair is stored and the should-run flag is set. *)
Definition after_preflight (p : Pair) (w : World) : World :=
  with_st (set_shouldRun true)
    (with_st (set_pair p)
       (with_trace (fun t => t ++ [OnLog info "Helius HTTP probe OK" CNone])
          (with_trace (fun t => t ++ [Fetch getLatestBlockhash]) w))).

(** The cursor [start] loads for [p]. *)
Definition loaded_cursor (cfg : Config) (p : Pair) (w : World) : Cursor :=
  if persist cfg
  then default default_cursor (disk w !! stateFile cfg (wallet p) (mint p))
  else default_cursor.

(** The seen-set holds what remembering the emitted signatures, in the
    order of emission, leaves in it. *)
Definition seen_inv (w : World) : Prop :=
  seen (st w) = replay (map signature (emitted (trace w))) [].

(** A history of two transactions, both touching the pair, at slots 50
    and 40. *)
Definition page_two : list SigInfo :=
  [{| si_signature := "sigA"; si_slot := 50 |};
   {| si_signature := "sigB"; si_slot := 40 |}].

Definition env_two : Env :=
  fun _ r =>
    match r with
    | getLatestBlockhash => Result JObject
    | getSignaturesForAddress _ _ _ => Result (JSigs page_two)
    | getTransaction _ => Result (JTx tx_AM)
    end.

(** A world whose disk already holds a cursor for [pair_AM], at slot 100,
    left by an earlier process. *)
Definition world_cursor_100 : World :=
  with_disk (insert file_AM {| lastSlot := 100; lastSig := Some "sig0" |})
    initial_world.

(** The items a pass would look at if it stopped at the first item at or
    older than the stored position, as the specification words it. *)
Fixpoint spec_candidates (lastPosition : Z) (items : list SigInfo)
    : list SigInfo :=
  match items with
  | [] => []
  | i :: rest =>
      if si_slot i <=? lastPosition then []
      else i :: spec_candidates lastPosition rest
  end.

(** Distinct signatures, one for each number. *)
Fixpoint pos_sig (p : positive) : string :=
  match p with
  | xH => "1"
  | xO q => String "0" (pos_sig q)
  | xI q => String "1" (pos_sig q)
  end.

Definition sig_of (n : nat) : string := pos_sig (Pos.of_succ_nat n).

Definition item_of (n : nat) : SigInfo :=
  {| si_signature := sig_of n; si_slot := Z.of_nat n |}.

(** A history of [S n] transactions: item 0 and [n] more. *)
Definition long_page (n : nat) : list SigInfo := map item_of (seq 0 (S n)).

Definition env_long (n : nat) : Env :=
  fun _ r =>
    match r with
    | getLatestBlockhash => Result JObject
    | getSignaturesForAddress _ _ _ => Result (JSigs (long_page n))
    | getTransaction _ => Result (JTx tx_AM)
    end.

(** After a [start] whose backfill saw [long_page n]: the socket opens and
    item 0 is notified again and verified. *)
Definition reobserve_inputs : list Input :=
  [SockOpen 0;
   SockMessage 0
     (LogsNotification (sig_of 0) ["Program log: Transfer"] None 9000);
   DetailReply 4 (Result (JTx tx_AM))].

(** Every transaction the network serves touches [p]. *)
Definition always_touching (env : Env) (p : Pair) : Prop :=
  forall t s, exists tx,
    env t (getTransaction s) = Result (JTx tx) /\ touches p tx = true.

(** [cfg.saveEvent], when set, neither throws nor rejects. *)
Definition never_fails (cfg : Config) : Prop :=
  forall f e, saveEvent cfg = Some f -> f e = None.

(** The world a first [start] on [pair_AM] is in after its backfill pass,
    before [connect]: seen-set [S], disk [D], trace [T0]. *)
Definition after_pass (S : list string) (D : gmap string Cursor)
    (T0 : list Effect) : World :=
  {| st := {| ws := None; timers := no_timers; backoffMs := 1000;
              pair := pair_AM; inflightDetails := 0; seen := S;
              shouldRun := true |};
     disk := D; socks := ∅; pool := []; jobs := []; fresh := 0;
     trace := T0 |}.

(** The event the live path emits for item 0 on [reobserve_inputs]. *)
Definition stream_event_0 : Event :=
  {| source := stream; ev_pair := pair_AM; slot := 9000;
     signature := sig_of 0; err := None; log := "Program log: Transfer" |}.

(** What [connect] and [reobserve_inputs] do when item 0 is no longer in
    the seen-set. *)
Definition reobserve_effects : list Effect :=
  [WsNew 0;
   OnLog info "Connected to Helius WS" CNone;
   SetTimer TPing 12000;
   WsSend 0 [wallet_A; mint_M] "finalized";
   OnLog info "Sent subscription (mentions wallet+mint)"
     (CSub (Some wallet_A) (Some mint_M) "finalized");
   SetTimer TIdle 60000;
   SetTimer TIdle 60000;
   Fetch (getTransaction (sig_of 0));
   OnEvent stream_event_0;
   FsWrite file_AM {| lastSlot := 9000; lastSig := Some (sig_of 0) |}].

(** [t] with the effects of [l] appended one at a time. *)
Definition snocs (t l : list Effect) : list Effect :=
  fold_left (fun acc e => acc ++ [e]) l t.

(** ** Reasoning about computations in [M] *)

(** Every run of [m] takes a world to one related to it by [R]. *)
Definition steps_in {A} (R : relation World) (m : M A) : Prop :=
  forall w, R w (snd (m w)).

(** [m] never throws. *)
Definition total {A} (m : M A) : Prop :=
  forall w, exists a, fst (m w) = Ok a.

(** Relations between the world before a computation and the world after
    it, and predicates on the seen-set, used by the proofs below. *)

(** The in-flight counter stays at or below [n]. *)
Definition inflight_rel (n : Z) : relation World :=
  fun w w' => inflightDetails (st w) <= n -> inflightDetails (st w') <= n.

(** Everything but the trace is the same. *)
Definition only_trace : relation World :=
  fun w w' =>
    st w' = st w /\ disk w' = disk w /\ socks w' = socks w
    /\ pool w' = pool w /\ jobs w' = jobs w /\ fresh w' = fresh w
    /\ exists t, trace w' = trace w ++ t.

(** Two notifications are being looked up when a third arrives. *)
Definition busy_inputs : list Input :=
  [CallStart pair_AM; SockOpen 0;
   SockMessage 0 (LogsNotification "sig1" ["Program log: Transfer"] None 10);
   SockMessage 0 (LogsNotification "sig2" ["Program log: Transfer"] None 11)].

(** A configuration whose [saveEvent] rejects every event. *)
Definition config_rejecting : Config :=
  {| commitment := "finalized"; persist := true; persistDir := ".helius_state";
     backfillLimit := 15; maxDetailConcurrency := 2; filterMode := "keywords";
     keywordRegex := Some default_keywordRegex; logPredicate := None;
     pingIntervalMs := 12000; pongTimeoutMs := 8000; maxBackoffMs := 5000;
     noMsgTimeoutMs := 60000; saveEvent := Some (fun _ => Some "db down") |}.

(** Two notifications are being looked up; the first is answered with a
    transaction of the pair, whose event [saveEvent] rejects; a third
    notification arrives. *)
Definition leaky_inputs : list Input :=
  busy_inputs
  ++ [DetailReply 4 (Result (JTx tx_AM));
      SockMessage 0 (LogsNotification "sig3" ["Program log: Transfer"] None 12)].

(** The signatures of the detail fetches that await their reply. *)
Definition pending (w : World) : list string :=
  map (fun x => j_signature (snd x)) (jobs w).

(** [backoffMs] is left as it is. *)
Definition same_backoff : relation World :=
  fun w w' => backoffMs (st w') = backoffMs (st w).

(** One turn of the loop changes [backoffMs] from [b] to [b']. *)
Definition backoff_step (cfg : Config) (i : Input) (b b' : Z) : Prop :=
  b' = b \/ b' = grow cfg b \/ (b' = 1000 /\ exists h, i = SockOpen h).

(** [backoffMs] is left as it is or grown once. *)
Definition grown (cfg : Config) (b b' : Z) : Prop :=
  b' = b \/ b' = grow cfg b.

(** What a run adds to the delays, and where it leaves the backoff. *)
Definition schedules (cfg : Config) (ds : list Z) (b : Z) {A} (m : M A)
    (w : World) : Prop :=
  let w' := snd (m w) in
  reconnect_delays (trace w') = reconnect_delays (trace w) ++ ds
  /\ backoffMs (st w') = b
  /\ shouldRun (st w') = true
  /\ (length (trace w) <= length (trace w'))%nat.

(** The slot stored in file [f] does not go down. *)
Definition cursor_mono (f : string) : relation World :=
  fun w w' => stored_slot f w <= stored_slot f w'.

(** The should-run flag and the stored pair are left as they are. *)
Definition keeps_running : relation World :=
  fun w w' =>
    shouldRun (st w') = shouldRun (st w) /\ pair (st w') = pair (st w).

(** [x] is in the set with at most [k] elements after it. *)
Definition kept (x : string) (k : nat) (s : list string) : Prop :=
  (length s <= 5000)%nat
  /\ exists a b, s = a ++ x :: b /\ (length b <= k)%nat.

(** [seen_inv] is kept. *)
Definition seen_rel : relation World :=
  fun w w' => seen_inv w -> seen_inv w'.

(** Everything a backfill pass leaves alone. *)
Definition pass_frame : relation World :=
  fun w w' =>
    ws (st w') = ws (st w) /\ timers (st w') = timers (st w)
    /\ backoffMs (st w') = backoffMs (st w) /\ pair (st w') = pair (st w)
    /\ inflightDetails (st w') = inflightDetails (st w)
    /\ shouldRun (st w') = shouldRun (st w)
    /\ socks w' = socks w /\ pool w' = pool w /\ jobs w' = jobs w
    /\ fresh w' = fresh w.

(** The counter is the number of detail fetches awaiting their reply, and
    their handles are distinct and older than the next fresh one. *)
Definition jobs_inv (w : World) : Prop :=
  inflightDetails (st w) = Z.of_nat (length (jobs w))
  /\ Forall (fun x => (fst x < fresh w)%nat) (jobs w)
  /\ NoDup (map fst (jobs w)).

(** [jobs_inv] is kept. *)
Definition jobs_rel : relation World :=
  fun w w' => jobs_inv w -> jobs_inv w'.

(** The counter and the pending fetches are left as they are. *)
Definition jobs_frame : relation World :=
  fun w w' =>
    inflightDetails (st w') = inflightDetails (st w)
    /\ jobs w' = jobs w /\ (fresh w <= fresh w')%nat.

(** ** Invariants of the event loop *)

(** *** Timers *)

Definition timer_handle (x : nat * TimerKind * Z) : nat := fst (fst x).
Definition timer_kind (x : nat * TimerKind * Z) : TimerKind := snd (fst x).

(** The member of [timers] that holds the handle of a timer of kind [k]. *)
Definition timer_slot (k : TimerKind) (t : Timers) : option nat :=
  match k with
  | TPing => ping t
  | TLiveness => liveness t
  | TIdle => idle t
  | TProbe => probe t
  end.

Definition kind_eqb (a b : TimerKind) : bool :=
  match a, b with
  | TPing, TPing | TLiveness, TLiveness | TIdle, TIdle | TProbe, TProbe => true
  | _, _ => false
  end.

#[global] Instance TimerKind_eq_dec : EqDecision TimerKind.
Proof. solve_decision. Defined.

(** Writing the member of [timers] for the kind [k]. *)
Definition set_slot (k : TimerKind) (v : option nat) (t : Timers) : Timers :=
  match k with
  | TPing => set_ping v t
  | TLiveness => set_liveness v t
  | TIdle => set_idle v t
  | TProbe => set_probe v t
  end.

(** The timers of kind [k] that are armed. *)
Definition armed (k : TimerKind) (w : World) : list (nat * TimerKind * Z) :=
  List.filter (fun x => kind_eqb (timer_kind x) k) (pool w).

(** Handles are fresh and distinct, and an armed heartbeat, liveness or idle
    timer is the one its member of [timers] names. *)
Definition timers_ok (p : list (nat * TimerKind * Z)) (fr : nat) (t : Timers)
    : Prop :=
  Forall (fun x => (timer_handle x < fr)%nat) p
  /\ NoDup (map timer_handle p)
  /\ Forall (fun x => timer_kind x = TProbe
                      \/ timer_slot (timer_kind x) t = Some (timer_handle x)) p.

Definition timers_inv (w : World) : Prop :=
  timers_ok (pool w) (fresh w) (timers (st w)).

Definition timers_rel : relation World :=
  fun w w' => timers_inv w -> timers_inv w'.

(** *** Sockets *)

(** A socket that is connecting or open and carries the listeners that
    [connect] installs. *)
Definition live (s : Socket) : bool :=
  listeners s
  && match readyState s with
     | CONNECTING | OPEN => true
     | _ => false
     end.

(** The only live socket is the one [ws] holds. *)
Definition socks_ok (so : gmap nat Socket) (cur : option nat) : Prop :=
  forall h s, so !! h = Some s -> live s = true -> cur = Some h.

Definition socks_inv (w : World) : Prop := socks_ok (socks w) (ws (st w)).

Definition socks_rel : relation World :=
  fun w w' => socks_inv w -> socks_inv w'.

(** No socket is live. *)
Definition no_live (so : gmap nat Socket) : Prop :=
  forall h s, so !! h = Some s -> live s = false.

(** *** After [stop] *)

(** The client is stopped: it should not run, holds no socket, no socket
    is live, and the only timers left are reconnect timers that [timers]
    no longer names. *)
Definition quiet (w : World) : Prop :=
  shouldRun (st w) = false
  /\ ws (st w) = None
  /\ no_live (socks w)
  /\ Forall (fun x => timer_kind x = TProbe) (pool w).

(** Effects that do not open, use or keep alive a connection. *)
Definition silent (e : Effect) : bool :=
  match e with
  | WsNew _ | WsSend _ _ _ | WsPing _ | SetTimer _ _ => false
  | _ => true
  end.

Definition quiet_rel : relation World :=
  fun w w' =>
    quiet w ->
    quiet w' /\ exists t, trace w' = trace w ++ t /\ forallb silent t = true.

(** The inputs that ask the client to run. *)
Definition asks_to_run (i : Input) : bool :=
  match i with
  | CallStart _ | CallSetPair _ => true
  | _ => false
  end.

(** *** The reconnect delays *)

(** Every wait so far was at least 1500 ms (or the configured maximum, if
    that is less) and at most the configured maximum. *)
Definition delays_within (cfg : Config) (t : list Effect) : Prop :=
  Forall (fun d => Z.min (maxBackoffMs cfg) 1500 <= d <= maxBackoffMs cfg)
    (reconnect_delays t).

(** The backoff is between its base and the configured maximum. *)
Definition backoff_inv (cfg : Config) (w : World) : Prop :=
  1000 <= backoffMs (st w) <= maxBackoffMs cfg
  /\ delays_within cfg (trace w).

Definition backoff_rel (cfg : Config) : relation World :=
  fun w w' => backoff_inv cfg w -> backoff_inv cfg w'.

(** Frames on which the [message] listener re-arms the idle timer. *)
Definition counts_as_traffic (m : Message) : bool :=
  match m with
  | Ack _ | LogsNotification _ _ _ _ => true
  | _ => false
  end.

(** *** The order of the effects around a delivery *)

(** Every effect of [t] satisfies [P] of the effects before it. *)
Definition each_after (P : list Effect -> Effect -> Prop) (t : list Effect)
    : Prop :=
  forall t1 e t2, t = t1 ++ e :: t2 -> P t1 e.

(** What holds of an [onEvent] call and of a write to a state file, given
    the effects [before] it: the transaction of a delivered event was
    requested, the event went through [cfg.saveEvent] (if there is one)
    just before and that did not fail; a write directly follows the
    delivery of an event and records it. *)
Definition protocol (cfg : Config) (before : list Effect) (e : Effect) : Prop :=
  match e with
  | OnEvent ev =>
      In (Fetch (getTransaction (signature ev))) before
      /\ forall f, saveEvent cfg = Some f ->
                   f ev = None /\ last before = Some (SaveEvent ev)
  | FsWrite file c =>
      persist cfg = true
      /\ exists ev,
           last before = Some (OnEvent ev)
           /\ file = stateFile cfg (wallet (ev_pair ev)) (mint (ev_pair ev))
           /\ lastSig c = Some (signature ev)
  | _ => True
  end.

(** The transaction of every pending detail fetch was requested. *)
Definition pending_fetched (w : World) : Prop :=
  Forall (fun x => In (Fetch (getTransaction (j_signature (snd x)))) (trace w))
    (jobs w).

Definition protocol_inv (cfg : Config) (w : World) : Prop :=
  each_after (protocol cfg) (trace w) /\ pending_fetched w.

Definition protocol_rel (cfg : Config) : relation World :=
  fun w w' => protocol_inv cfg w -> protocol_inv cfg w'.

(** *** The state files *)

(** The state file of the pair of the last delivered event names that
    event. *)
Definition cursor_names_last (cfg : Config) (w : World) : Prop :=
  match last (emitted (trace w)) with
  | Some ev =>
      exists c,
        disk w !! stateFile cfg (wallet (ev_pair ev)) (mint (ev_pair ev))
        = Some c
        /\ lastSig c = Some (signature ev)
        /\ match source ev with
           | stream => lastSlot c = slot ev
           | backfill => slot ev <= lastSlot c
           end
  | None => True
  end.

Definition cursor_rel (cfg : Config) : relation World :=
  fun w w' => cursor_names_last cfg w -> cursor_names_last cfg w'.

(** The state files written so far. *)
Definition files_written (t : list Effect) : list string :=
  omap (fun e => match e with FsWrite f _ => Some f | _ => None end) t.

(** Nothing is written and the disk is as it was. *)
Definition no_write_rel : relation World :=
  fun w w' =>
    disk w' = disk w /\ files_written (trace w') = files_written (trace w).

(** A configuration with a [saveEvent] that always succeeds. *)
Definition config_saving : Config :=
  {| commitment := "finalized"; persist := true; persistDir := ".helius_state";
     backfillLimit := 15; maxDetailConcurrency := 2; filterMode := "keywords";
     keywordRegex := Some default_keywordRegex; logPredicate := None;
     pingIntervalMs := 12000; pongTimeoutMs := 8000; maxBackoffMs := 5000;
     noMsgTimeoutMs := 60000; saveEvent := Some (fun _ => None) |}.

(** A configuration without persistence. *)
Definition config_volatile : Config :=
  {| commitment := "finalized"; persist := false; persistDir := ".helius_state";
     backfillLimit := 15; maxDetailConcurrency := 2; filterMode := "keywords";
     keywordRegex := Some default_keywordRegex; logPredicate := None;
     pingIntervalMs := 12000; pongTimeoutMs := 8000; maxBackoffMs := 5000;
     noMsgTimeoutMs := 60000; saveEvent := None |}.

(** *** Connecting *)

(** [ws] and the state of every socket are left as they are. *)
Definition conn_frame : relation World :=
  fun w w' =>
    ws (st w') = ws (st w)
    /\ forall h, readyState <$> socks w' !! h = readyState <$> socks w !! h.

(** The trace is extended and the in-flight counter is left as it is. *)
Definition extends : relation World :=
  fun w w' =>
    (exists t, trace w' = trace w ++ t)
    /\ inflightDetails (st w') = inflightDetails (st w).

(** The handle of every socket is older than the next fresh one. *)
Definition handles_fresh (w : World) : Prop :=
  forall h, is_Some (socks w !! h) -> (h < fresh w)%nat.

Definition handles_rel : relation World :=
  fun w w' => handles_fresh w -> handles_fresh w'.

(** *** Uncaught exceptions *)

(** An [error] event of a socket that is not closed and has no listener
    for it. *)
Definition unhandled (i : Input) (w : World) : bool :=
  match i with
  | SockError h _ =>
      match socks w !! h with
      | Some s =>
          negb (listeners s)
          && match readyState s with CLOSED => false | _ => true end
      | None => false
      end
  | _ => false
  end.

(** The error an [error] event carries. *)
Definition raised (i : Input) : string :=
  match i with
  | SockError _ e => e
  | _ => ""
  end.

(** *** The pair of a running client *)

(** A client that should run holds a pair that [start] accepted. *)
Definition running_inv (w : World) : Prop :=
  shouldRun (st w) = true -> valid_pair (pair (st w)).

Definition running_rel : relation World :=
  fun w w' => running_inv w -> running_inv w'.

(** ** More concrete data *)

(** The event the backfill of [env_one] delivers for [pair_AM]. *)
Definition event_A : Event :=
  {| source := backfill; ev_pair := pair_AM; slot := 50; signature := "sigA";
     err := None; log := "backfill-scan" |}.

(** The server of the routes after a successful start on [pair_AM]. *)
Definition app_AM : App := {| currentPair := pair_AM; console := [] |}.

(** A request whose body names a wallet and no mint. *)
Definition req_wallet_only : Req :=
  {| req_body := Some [("wallet", wallet_A)]; req_query := [] |}.

(** An identifier of 45 characters of the base58 alphabet. *)
Definition long_id : string := "111111111111111111111111111111111111111111111".

Section Steps.

Context (R : relation World) (HR : PreOrder R).

Lemma steps_in_ret {A} (a : A) : steps_in R (ret a).
Proof. intros w. reflexivity. Qed.

Lemma steps_in_throw {A} e : steps_in R (@throw A e).
Proof. intros w. reflexivity. Qed.

Lemma steps_in_gets {A} (f : World -> A) : steps_in R (gets f).
Proof. intros w. reflexivity. Qed.

Lemma steps_in_modify f : (forall w, R w (f w)) -> steps_in R (modify f).
Proof. intros H w. apply H. Qed.

Lemma steps_in_bind {A B} (m : M A) (k : A -> M B) :
  steps_in R m -> (forall a, steps_in R (k a)) -> steps_in R (bind m k).
Proof.
  intros Hm Hk w. unfold bind. specialize (Hm w).
  destruct (m w) as [[a|e] w1]; simpl in *; [|done].
  etransitivity; [exact Hm | apply Hk].
Qed.

Lemma steps_in_try_catch {A} (m : M A) (h : string -> M A) :
  steps_in R m -> (forall e, steps_in R (h e)) -> steps_in R (try_catch m h).
Proof.
  intros Hm Hh w. unfold try_catch. specialize (Hm w).
  destruct (m w) as [[a|e] w1]; simpl in *; [done|].
  etransitivity; [exact Hm | apply Hh].
Qed.

End Steps.

Lemma total_ret {A} (a : A) : total (ret a).
Proof. intros w. by exists a. Qed.

Lemma total_gets {A} (f : World -> A) : total (gets f).
Proof. intros w. by eexists. Qed.

Lemma total_modify f : total (modify f).
Proof. intros w. by eexists. Qed.

Lemma total_bind {A B} (m : M A) (k : A -> M B) :
  total m -> (forall a, total (k a)) -> total (bind m k).
Proof.
  intros Hm Hk w. unfold bind. destruct (Hm w) as [a Ha].
  destruct (m w) as [r w1]; simpl in Ha; subst r. apply Hk.
Qed.

Lemma total_try_catch {A} (m : M A) (h : string -> M A) :
  (forall e, total (h e)) -> total (try_catch m h).
Proof.
  intros Hh w. unfold try_catch.
  destruct (m w) as [[a|e] w1]; [by eexists | apply Hh].
Qed.

Create HintDb steps.
Create HintDb total.

Ltac head_of t :=
  lazymatch t with
  | ?f _ => head_of f
  | _ => t
  end.

(** Decomposes a goal about a compound computation along its syntax;
    [atom] closes the goals about single state updates. *)
Ltac walk1 atom :=
  lazymatch goal with
  | |- steps_in _ ?m =>
      let h := head_of m in
      first
        [ is_const h;
          lazymatch h with
          | @ret => apply steps_in_ret; tc_solve
          | @throw => apply steps_in_throw; tc_solve
          | @gets => apply steps_in_gets; tc_solve
          | @modify => apply steps_in_modify; intros; atom
          | @bind => apply steps_in_bind; [ tc_solve | | intros ]
          | @try_catch => apply steps_in_try_catch; [ tc_solve | | intros ]
          | _ => first [ assumption | solve [ eauto with steps ] | unfold h ]
          end
        | lazymatch m with
          | match ?x with _ => _ end => destruct x eqn:?
          | _ => intros ?w; simpl; atom
          end ]
  end.

Ltac walk atom := repeat walk1 atom.

Ltac walk_total1 :=
  lazymatch goal with
  | |- total ?m =>
      let h := head_of m in
      first
        [ is_const h;
          lazymatch h with
          | @ret => apply total_ret
          | @gets => apply total_gets
          | @modify => apply total_modify
          | @bind => apply total_bind; [ | intros ]
          | @try_catch => apply total_try_catch; intros
          | _ => first [ assumption | solve [ eauto with total ] | unfold h ]
          end
        | lazymatch m with
          | match ?x with _ => _ end => destruct x eqn:?
          | _ => intros ?w; simpl; by eexists
          end ]
  end.

Ltac walk_total := repeat walk_total1.

(** ** The in-flight counter is bounded *)

#[local] Instance inflight_rel_preorder n : PreOrder (inflight_rel n).
Proof. split; unfold inflight_rel; [intros w; auto | intros a b c; auto]. Qed.

Ltac inflight_atom := unfold inflight_rel; simpl; try lia; auto.

Lemma backfill_loop_inflight cfg env n w m l :
  steps_in (inflight_rel n) (backfill_loop cfg env w m l).
Proof.
  induction l as [|i rest IH]; cbn [backfill_loop];
    fold (backfill_loop cfg env); walk inflight_atom.
Qed.

#[local] Hint Resolve backfill_loop_inflight : steps.

(** The one place that increments: behind the admission check. *)
Lemma on_message_inflight cfg m :
  steps_in (inflight_rel (maxDetailConcurrency cfg)) (on_message cfg m).
Proof.
  destruct m; [walk inflight_atom.. | | walk inflight_atom].
  intros w. unfold inflight_rel, on_message.
  cbv [try_catch bind armIdleRecycle get_st gets clear_handle setTimer
       modify_timers modify_st modify clearTimer ret rpc_send emit add_job].
  destruct (idle (timers (st w))); simpl;
    destruct (has sig (seen (st w))); simpl; trivial;
    destruct (isImportantLog cfg logs); simpl; trivial;
    destruct (Z.leb_spec (maxDetailConcurrency cfg) (inflightDetails (st w)));
    simpl; lia.
Qed.

#[local] Hint Resolve on_message_inflight : steps.

Lemma step_inflight cfg env i :
  steps_in (inflight_rel (maxDetailConcurrency cfg)) (step cfg env i).
Proof.
  destruct i; walk inflight_atom.
Qed.

Lemma run_inflight cfg env l :
  steps_in (inflight_rel (maxDetailConcurrency cfg)) (run cfg env l).
Proof.
  induction l as [|i rest IH]; cbn [run]; fold (run cfg env).
  - walk inflight_atom.
  - apply steps_in_bind; [tc_solve | apply step_inflight | auto].
Qed.

(** ** Validation at [start] *)

Lemma malformed_rejected cfg env p w :
  malformed p ->
  exists e, start cfg env p w = (Throw e, w).
Proof.
  intros H. unfold start, malformed in *.
  destruct p as [wl mt]; simpl in *.
  destruct H as [-> | [-> | [(s & -> & Hs) | (s & -> & Hs)]]]; simpl.
  - eauto.
  - rewrite orb_true_r. eauto.
  - destruct (String.eqb_spec s "") as [->|Hne]; simpl; [eauto|].
    destruct (negb (truthy mt)); simpl; [eauto|].
    rewrite Hs. simpl. eauto.
  - destruct (negb (truthy wl)); simpl; [eauto|].
    destruct (String.eqb_spec s "") as [->|Hne]; simpl; [eauto|].
    destruct (negb (base58_test (or_default wl ""))); [eauto|].
    rewrite Hs. simpl. eauto.
Qed.

(** C6. A pair with a missing field or a field that fails the base58
    pattern makes [start] throw, and the world after the call is the world
    before it: no request, socket or log entry was added to the trace, and
    the stored pair, the should-run flag, the timers and the state files
    are the same. *)
Theorem start_rejects_malformed_pair cfg env p w :
  malformed p ->
  (exists e, outcome (start cfg env p) w = Throw e)
  /\ exec (start cfg env p) w = w.
Proof.
  intros H. destruct (malformed_rejected cfg env p w H) as [e He].
  unfold outcome, exec. rewrite He. simpl. eauto.
Qed.

Lemma start_rejects_malformed_pair_witness :
  malformed pair_bad
  /\ (exists e, outcome (start default_config env_quiet pair_bad)
                  initial_world = Throw e)
  /\ exec (start default_config env_quiet pair_bad) initial_world
     = initial_world.
Proof.
  assert (H : malformed pair_bad).
  { right; right; left. exists "0OlIwallet". split; reflexivity. }
  split; [exact H|].
  exact (start_rejects_malformed_pair default_config env_quiet pair_bad
           initial_world H).
Defined.

(** ** The storage key *)

Lemma slice0_idem n s : slice0 n (slice0 n s) = slice0 n s.
Proof.
  unfold slice0. revert s.
  induction n as [|n IH]; intros [|c s]; simpl; trivial.
  by rewrite IH.
Qed.

Lemma slice0_nonempty n s : s <> "" -> slice0 (S n) s <> "".
Proof. destruct s; [done | discriminate]. Qed.

Lemma or_default_nonempty o d : d <> "" -> or_default o d <> "".
Proof.
  intros Hd. destruct o as [s|]; simpl; trivial.
  destruct (String.eqb_spec s ""); congruence.
Qed.

Lemma or_default_Some_nonempty s d : s <> "" -> or_default (Some s) d = s.
Proof. intros H. simpl. destruct (String.eqb_spec s ""); congruence. Qed.

(** The key is a function of the first six characters of each field. *)
Lemma stateKey_prefix w m :
  stateKey w m
  = stateKey (Some (slice0 6 (or_default w "none")))
             (Some (slice0 6 (or_default m "none"))).
Proof.
  unfold stateKey.
  rewrite !or_default_Some_nonempty
    by (apply slice0_nonempty, or_default_nonempty; discriminate).
  by rewrite !slice0_idem.
Qed.

(** C9. The storage key is built from the first six characters of each
    identifier only, and two distinct pairs of valid base58 identifiers
    have the same key and the same state file under every configuration. *)
Theorem stateKey_truncation_collides :
  (forall w m,
     stateKey w m
     = slice0 6 (or_default w "none") +:+ "_" +:+ slice0 6 (or_default m "none"))
  /\ exists p1 p2 : Pair,
       valid_pair p1 /\ valid_pair p2 /\ p1 <> p2
       /\ stateKey (wallet p1) (mint p1) = stateKey (wallet p2) (mint p2)
       /\ forall cfg,
            stateFile cfg (wallet p1) (mint p1)
            = stateFile cfg (wallet p2) (mint p2).
Proof.
  split; [reflexivity|].
  exists pair_AM, pair_BM. repeat split.
  - exists wallet_A, mint_M. repeat split; reflexivity.
  - exists wallet_B, mint_M. repeat split; reflexivity.
  - discriminate.
Qed.

(** ** Stopping, and a rejected [setPair] *)

#[local] Instance only_trace_preorder : PreOrder only_trace.
Proof.
  split.
  - intros w. repeat split. exists []. by rewrite app_nil_r.
  - intros a b c (?&?&?&?&?&?&t1&?) (?&?&?&?&?&?&t2&?).
    repeat split; try congruence.
    exists (t1 ++ t2). rewrite app_assoc. congruence.
Qed.

Ltac only_trace_atom :=
  unfold only_trace; simpl; repeat split; eauto.

Lemma stop_total : total stop.
Proof. walk_total. Qed.

(** What [stop] leaves behind. *)
Lemma stop_state w :
  let w' := exec stop w in
  shouldRun (st w') = false /\ ws (st w') = None /\ timers (st w') = no_timers.
Proof.
  unfold exec, stop, clearAllTimers, clear_key.
  cbv [bind get_st gets modify_st modify modify_timers clearTimer ret
       terminate emit].
  destruct w as [[sk [p l i pr] b pa n se sr] d so po jo fr tr]; simpl.
  destruct p, l, i, pr, sk; simpl; auto.
Qed.

Lemma stop_terminates w h :
  ws (st w) = Some h -> In (WsTerminate h) (trace (exec stop w)).
Proof.
  intros Hws.
  unfold exec, stop, clearAllTimers, clear_key.
  cbv [bind get_st gets modify_st modify modify_timers clearTimer ret
       terminate emit].
  destruct w as [[sk [p l i pr] b pa n se sr] d so po jo fr tr];
    simpl in *. subst sk.
  destruct p, l, i, pr; simpl; apply in_or_app; right; left; reflexivity.
Qed.

(** No timer whose handle was in [timers] stays armed. *)
Lemma stop_disarms w x :
  In x (pool (exec stop w)) ->
  let t := timers (st w) in
  ping t <> Some (fst (fst x)) /\ liveness t <> Some (fst (fst x))
  /\ idle t <> Some (fst (fst x)) /\ probe t <> Some (fst (fst x)).
Proof.
  unfold exec, stop, clearAllTimers, clear_key.
  cbv [bind get_st gets modify_st modify modify_timers clearTimer ret
       terminate emit].
  destruct w as [[sk [p l i pr] b pa n se sr] d so po jo fr tr]; simpl.
  destruct p, l, i, pr, sk; simpl;
    rewrite ?filter_In, ?negb_true_iff; unfold handle_is;
    rewrite ?Nat.eqb_neq; intuition congruence.
Qed.

Lemma backfillOnce_total cfg env w m k : total (backfillOnce cfg env w m k).
Proof. walk_total. Qed.

Lemma connect_total : total connect.
Proof. walk_total. Qed.

#[local] Hint Resolve backfillOnce_total connect_total stop_total : total.

(** A rejected [start] has touched nothing but the trace: it failed at
    validation or at the preflight request. *)
Lemma start_throws_only_trace cfg env p w e :
  fst (start cfg env p w) = Throw e ->
  only_trace w (snd (start cfg env p w)).
Proof.
  unfold start.
  destruct (negb (truthy (wallet p)) || negb (truthy (mint p)));
    [reflexivity|].
  destruct (negb (base58_test (or_default (wallet p) ""))); [reflexivity|].
  destruct (negb (base58_test (or_default (mint p) ""))); [reflexivity|].
  match goal with
  | |- context [bind ?pf ?rest] =>
      assert (Hpf : steps_in only_trace pf) by walk only_trace_atom;
      assert (Hrest : forall a, total (rest a)) by (intros; walk_total);
      generalize dependent pf; generalize dependent rest
  end.
  intros rest Hrest pf Hpf. unfold bind.
  specialize (Hpf w). destruct (pf w) as [[a|e'] w1]; simpl in *.
  - destruct (Hrest a w1) as [x Hx]. rewrite Hx. discriminate.
  - auto.
Qed.

(** C10. [setPair] runs [stop] to its end and only then calls [start] on
    the new pair.  So when [setPair] rejects, the client is as [stop] left
    it: the should-run flag is false, [ws] is null and the socket it held
    was terminated, all four timer handles are null and none of their
    timers is still armed. *)
Theorem setPair_rejection_leaves_stopped cfg env p w e :
  outcome (setPair cfg env p) w = Throw e ->
  let w' := exec (setPair cfg env p) w in
  setPair cfg env p w = start cfg env p (exec stop w)
  /\ st w' = st (exec stop w)
  /\ shouldRun (st w') = false
  /\ ws (st w') = None
  /\ timers (st w') = no_timers
  /\ (forall h, ws (st w) = Some h -> In (WsTerminate h) (trace w'))
  /\ (forall x, In x (pool w') ->
        let t := timers (st w) in
        ping t <> Some (fst (fst x)) /\ liveness t <> Some (fst (fst x))
        /\ idle t <> Some (fst (fst x)) /\ probe t <> Some (fst (fst x))).
Proof.
  unfold outcome, exec. intros Hthrow.
  assert (Heq : setPair cfg env p w = start cfg env p (snd (stop w))).
  { unfold setPair, bind. destruct (stop_total w) as [[] Hs].
    destruct (stop w) as [r w1]; simpl in *. by subst r. }
  rewrite Heq in *. cbv zeta.
  destruct (start_throws_only_trace _ _ _ _ _ Hthrow)
    as (Hst & _ & _ & Hpool & _ & _ & t & Htr).
  destruct (stop_state w) as (Hrun & Hws & Htm). unfold exec in *.
  rewrite Hst, Hpool, Htr. repeat split; trivial.
  - intros h Hh. apply in_or_app. left. by apply stop_terminates.
  - by apply stop_disarms.
  - by apply stop_disarms.
  - by apply stop_disarms.
  - by apply stop_disarms.
Qed.

Lemma setPair_rejection_leaves_stopped_witness :
  let w := exec (run default_config env_quiet [CallStart pair_AM; SockOpen 0])
             initial_world in
  let w' := exec (setPair default_config env_quiet pair_bad) w in
  outcome (setPair default_config env_quiet pair_bad) w
  = Throw "Invalid wallet (base58 expected)"
  /\ ws (st w) = Some 0%nat
  /\ shouldRun (st w') = false
  /\ ws (st w') = None
  /\ timers (st w') = no_timers
  /\ In (WsTerminate 0) (trace w').
Proof.
  intros w w'.
  assert (H : outcome (setPair default_config env_quiet pair_bad) w
              = Throw "Invalid wallet (base58 expected)")
    by (vm_compute; reflexivity).
  assert (H0 : ws (st w) = Some 0%nat) by (vm_compute; reflexivity).
  destruct (setPair_rejection_leaves_stopped default_config env_quiet
              pair_bad w _ H) as (_ & _ & Hrun & Hws & Htm & Hterm & _).
  exact (conj H (conj H0 (conj Hrun (conj Hws (conj Htm (Hterm _ H0)))))).
Defined.

(** ** Shedding under saturation *)

Lemma shed_when_saturated cfg sig logs e sl w :
  maxDetailConcurrency cfg <= inflightDetails (st w) ->
  let m := on_message cfg (LogsNotification sig logs e sl) in
  outcome m w = Ok tt
  /\ trace (exec m w) = trace w ++ [SetTimer TIdle (noMsgTimeoutMs cfg)]
  /\ jobs (exec m w) = jobs w
  /\ inflightDetails (st (exec m w)) = inflightDetails (st w)
  /\ seen (st (exec m w)) = seen (st w)
  /\ disk (exec m w) = disk w.
Proof.
  intros Hsat. unfold outcome, exec, on_message.
  cbv [try_catch bind armIdleRecycle get_st gets clear_handle setTimer
       modify_timers modify_st modify clearTimer ret rpc_send emit add_job].
  destruct (idle (timers (st w))); simpl;
    destruct (has sig (seen (st w))); simpl;
    destruct (isImportantLog cfg logs); simpl;
    destruct (Z.leb_spec (maxDetailConcurrency cfg) (inflightDetails (st w)));
    simpl; try lia; repeat split; trivial.
Qed.

(** *** The counter and the fetches that are pending *)

#[local] Instance jobs_rel_preorder : PreOrder jobs_rel.
Proof. split; unfold jobs_rel; [intros w; auto | intros a b c; auto]. Qed.

#[local] Instance jobs_frame_preorder : PreOrder jobs_frame.
Proof.
  split; unfold jobs_frame.
  - intros w. repeat split. lia.
  - intros a b c (?&?&?) (?&?&?). repeat split; try congruence. lia.
Qed.

Ltac jobs_frame_atom := unfold jobs_frame; simpl; repeat split; auto; lia.
Ltac jobs_rel_atom := unfold jobs_rel; simpl; auto.

Lemma jobs_frame_inv w w' : jobs_frame w w' -> jobs_inv w -> jobs_inv w'.
Proof.
  intros (Hi & Hj & Hf) (H1 & H2 & H3). unfold jobs_inv.
  rewrite Hi, Hj. repeat split; trivial.
  eapply Forall_impl; [exact H2|]. simpl. intros x Hx. lia.
Qed.

Lemma frame_steps_rel {A} (m : M A) :
  steps_in jobs_frame m -> steps_in jobs_rel m.
Proof. intros H w Hw. eapply jobs_frame_inv; [apply H | exact Hw]. Qed.

Lemma backfill_loop_jobs_frame cfg env w m l :
  steps_in jobs_frame (backfill_loop cfg env w m l).
Proof.
  induction l as [|i rest IH]; cbn [backfill_loop];
    fold (backfill_loop cfg env); walk jobs_frame_atom.
Qed.

#[local] Hint Resolve backfill_loop_jobs_frame : steps.

Lemma on_message_jobs cfg m : steps_in jobs_rel (on_message cfg m).
Proof.
  destruct m; try (apply frame_steps_rel; walk jobs_frame_atom; fail).
  intros w. unfold jobs_rel, jobs_inv, on_message.
  cbv [try_catch bind armIdleRecycle get_st gets clear_handle setTimer
       modify_timers modify_st modify clearTimer ret rpc_send emit add_job].
  intros (H1 & H2 & H3).
  destruct (idle (timers (st w))); simpl;
    destruct (has sig (seen (st w))); simpl;
    destruct (isImportantLog cfg logs); simpl;
    destruct (maxDetailConcurrency cfg <=? inflightDetails (st w)); simpl.
  all: repeat split; trivial;
    try (eapply Forall_impl; [exact H2|]; simpl; intros; lia).
  all: try (rewrite length_app; simpl; lia).
  all: try (apply Forall_app; split;
            [eapply Forall_impl; [exact H2|]; simpl; intros; lia
            |constructor; [simpl; lia | constructor]]).
  all: rewrite map_app; simpl; apply NoDup_app; split; [exact H3|];
    (split; [|apply NoDup_singleton]);
    intros x Hx Hin; apply list_elem_of_singleton in Hin; subst x;
    apply list_elem_of_fmap in Hx as (y & Hy & Hiny);
    rewrite Forall_forall in H2;
    specialize (H2 y Hiny); simpl in *; lia.
Qed.

#[local] Hint Resolve on_message_jobs : steps.

(** Taking the one job with handle [j] out of the pending ones. *)
Lemma remove_job j (l : list (nat * Job)) x (n : nat) :
  NoDup (map fst l) ->
  Forall (fun y => (fst y < n)%nat) l ->
  List.find (job_is j) l = Some x ->
  S (length (List.filter (fun y => negb (job_is j y)) l)) = length l
  /\ Forall (fun y => (fst y < n)%nat)
       (List.filter (fun y => negb (job_is j y)) l)
  /\ NoDup (map fst (List.filter (fun y => negb (job_is j y)) l)).
Proof.
  induction l as [|y l IH]; intros Hnd Hall Hfind; [discriminate|].
  simpl in Hnd. apply NoDup_cons in Hnd as [Hy Hnd].
  apply Forall_cons in Hall as [Hyn Hall].
  simpl in *. unfold job_is at 1 in Hfind. unfold job_is at 1 4 7.
  destruct (Nat.eqb_spec (fst y) j) as [Heq|Hne]; simpl.
  - assert (Hnone : List.filter (fun y0 => negb (job_is j y0)) l = l).
    { clear -Hy Heq. induction l as [|z l IH]; simpl; [done|].
      unfold job_is at 1. apply not_elem_of_cons in Hy as [Hz Hy].
      destruct (Nat.eqb_spec (fst z) j); [congruence|]. simpl.
      by rewrite IH. }
    rewrite Hnone. auto.
  - destruct (IH Hnd Hall Hfind) as (Hlen & Hall' & Hnd').
    simpl. repeat split; [lia | by constructor |].
    apply NoDup_cons. split; [|exact Hnd'].
    intros Hin. apply Hy.
    apply list_elem_of_fmap in Hin as (z & Hz & Hinz).
    apply list_elem_of_fmap. exists z. split; [done|].
    apply list_elem_of_In. apply list_elem_of_In in Hinz.
    apply filter_In in Hinz. tauto.
Qed.

Lemma run_saveEvent_total cfg e : never_fails cfg -> total (run_saveEvent cfg e).
Proof.
  intros Hs w. unfold run_saveEvent.
  destruct (saveEvent cfg) as [f|] eqn:Hf; [|by eexists].
  cbv [bind emit modify]. rewrite (Hs f e Hf). by eexists.
Qed.

Lemma txHasWalletMintPair_k_total r : total (txHasWalletMintPair_k r).
Proof. walk_total. Qed.

Lemma txHasWalletMintPair_k_jobs_frame r :
  steps_in jobs_frame (txHasWalletMintPair_k r).
Proof. walk jobs_frame_atom. Qed.

#[local] Hint Resolve run_saveEvent_total txHasWalletMintPair_k_total : total.

(** The continuation of a detail fetch, with a [saveEvent] that does not
    fail: one decrement, the pending fetches untouched. *)
Lemma detail_k_decrements cfg job r w :
  never_fails cfg ->
  let w' := snd (detail_k cfg job r w) in
  inflightDetails (st w') = inflightDetails (st w) - 1
  /\ jobs w' = jobs w /\ (fresh w <= fresh w')%nat.
Proof.
  intros Hs w'. subst w'.
  remember (detail_k cfg job r w) as res eqn:Hres.
  unfold detail_k, try_catch in Hres. unfold bind at 1 in Hres.
  destruct (txHasWalletMintPair_k_total r w) as [ok Hok].
  destruct (txHasWalletMintPair_k_jobs_frame r w) as (Hi & Hj & Hf).
  destruct (txHasWalletMintPair_k r w) as [r1 w1]. cbn [fst snd] in *.
  subst r1. unfold bind at 1 in Hres. cbv [modify_st modify] in Hres.
  match type of Hres with
  | context [(if negb ok then ret tt else ?rest) ?w2] =>
      assert (Ht : total (if negb ok then ret tt else rest))
        by (destruct (negb ok); walk_total);
      assert (Hfr : steps_in jobs_frame (if negb ok then ret tt else rest))
        by (destruct (negb ok); walk jobs_frame_atom);
      destruct (Ht w2) as [[] Hok2];
      destruct (Hfr w2) as (Hi2 & Hj2 & Hf2);
      destruct ((if negb ok then ret tt else rest) w2) as [r2 w3]
  end.
  cbn [fst snd] in *. subst r2 res. cbn [snd].
  rewrite Hi2, Hj2. cbn -[Z.sub]. rewrite Hi, Hj. repeat split; trivial.
  cbn in Hf2. lia.
Qed.

Lemma step_jobs cfg env i :
  never_fails cfg -> steps_in jobs_rel (step cfg env i).
Proof.
  intros Hs.
  destruct i; try (apply frame_steps_rel; walk jobs_frame_atom; fail).
  - cbn [step]. walk jobs_rel_atom.
  - intros w. cbn [step]. cbv [bind gets].
    destruct (List.find (job_is j) (jobs w)) as [[id job]|] eqn:Hfind;
      [|unfold jobs_rel; auto].
    cbv [modify]. intros (H1 & H2 & H3).
    destruct (remove_job j (jobs w) _ (fresh w) H3 H2 Hfind)
      as (Hlen & Hall & Hnd).
    match goal with
    | |- jobs_inv (snd (detail_k cfg job r ?w1)) =>
        destruct (detail_k_decrements cfg job r w1 Hs) as (Hi & Hj & Hf)
    end.
    unfold jobs_inv. rewrite Hi, Hj. simpl in *. repeat split; trivial.
    + lia.
    + eapply Forall_impl; [exact Hall|]. simpl. intros. lia.
Qed.

Lemma run_jobs cfg env l :
  never_fails cfg -> steps_in jobs_rel (run cfg env l).
Proof.
  intros Hs. induction l as [|i rest IH]; cbn [run]; fold (run cfg env).
  - walk jobs_rel_atom.
  - apply steps_in_bind; [tc_solve | by apply step_jobs | auto].
Qed.

(** What the listener compares is the counter.  With a non-negative
    [maxDetailConcurrency], the in-flight counter
    is at most [maxDetailConcurrency] after every run of the event loop
    from the initial state; and a notification that arrives while the
    counter is at or above the limit is dropped: the listener returns
    normally, the only effect is the re-armed idle timer (no detail
    request, no event, no log entry), no fetch is left pending and the
    counter does not move.  With a [saveEvent] that does not fail, the
    counter is the number of detail fetches that await their reply. *)
Theorem saturated_notification_is_shed cfg env l :
  0 <= maxDetailConcurrency cfg ->
  inflightDetails (st (exec (run cfg env l) initial_world))
  <= maxDetailConcurrency cfg
  /\ (forall w sig logs e sl,
        maxDetailConcurrency cfg <= inflightDetails (st w) ->
        let m := on_message cfg (LogsNotification sig logs e sl) in
        outcome m w = Ok tt
        /\ trace (exec m w) = trace w ++ [SetTimer TIdle (noMsgTimeoutMs cfg)]
        /\ jobs (exec m w) = jobs w
        /\ inflightDetails (st (exec m w)) = inflightDetails (st w))
  /\ (never_fails cfg ->
      inflightDetails (st (exec (run cfg env l) initial_world))
      = Z.of_nat (length (jobs (exec (run cfg env l) initial_world)))).
Proof.
  intros Hmax. split; [|split].
  - apply (run_inflight cfg env l initial_world). simpl. exact Hmax.
  - intros w sig logs e sl Hsat.
    destruct (shed_when_saturated cfg sig logs e sl w Hsat)
      as (? & ? & ? & ? & _).
    auto.
  - intros Hs. apply (run_jobs cfg env l Hs initial_world).
    repeat split; [constructor | constructor].
Qed.

Lemma saturated_notification_is_shed_witness :
  let w := exec (run default_config env_quiet busy_inputs) initial_world in
  let m := on_message default_config
             (LogsNotification "sig3" ["Program log: Transfer"] None 12) in
  inflightDetails (st w) = 2
  /\ outcome m w = Ok tt
  /\ trace (exec m w) = trace w ++ [SetTimer TIdle 60000]
  /\ jobs (exec m w) = jobs w
  /\ inflightDetails (st (exec m w)) = 2.
Proof.
  intros w m.
  assert (Hmax : 0 <= maxDetailConcurrency default_config)
    by (vm_compute; discriminate).
  destruct (saturated_notification_is_shed default_config env_quiet
              busy_inputs Hmax) as (Hle & Hshed & _).
  assert (Hw : inflightDetails (st w) = 2) by (vm_compute; reflexivity).
  destruct (Hshed w "sig3" ["Program log: Transfer"] None 12)
    as (Ho & Ht & Hj & Hi).
  { rewrite Hw. vm_compute. discriminate. }
  exact (conj Hw (conj Ho (conj Ht (conj Hj (eq_trans Hi Hw))))).
Defined.

(** C7.  The counter falls behind the detail fetches in flight when
    [saveEvent] rejects: the async block has decremented it once after the
    reply of its fetch, and its [.catch] decrements it again.  With a limit
    of 2, two fetches in flight and the event of the first one rejected,
    the counter is 0 while one fetch is pending; after a third
    notification it is 1 with two pending, and a fourth notification, which
    arrives while 2 of 2 allowed fetches are in flight, is not dropped: its
    detail fetch is started and three are in flight. *)
Theorem saturated_notification_is_admitted :
  let cfg := config_rejecting in
  let w := exec (run cfg env_quiet leaky_inputs) initial_world in
  let m := on_message cfg
             (LogsNotification "sig4" ["Program log: Transfer"] None 13) in
  maxDetailConcurrency cfg = 2
  /\ pending (exec (run cfg env_quiet busy_inputs) initial_world)
     = ["sig1"; "sig2"]
  /\ pending w = ["sig2"; "sig3"]
  /\ inflightDetails (st w) = 1
  /\ outcome m w = Ok tt
  /\ pending (exec m w) = ["sig2"; "sig3"; "sig4"]
  /\ trace (exec m w)
     = trace w ++ [SetTimer TIdle 60000; Fetch (getTransaction "sig4")].
Proof.
  intros cfg w m.
  assert (H1 : pending (exec (run cfg env_quiet busy_inputs) initial_world)
               = ["sig1"; "sig2"]) by (vm_compute; reflexivity).
  assert (H2 : pending w = ["sig2"; "sig3"]) by (vm_compute; reflexivity).
  assert (H3 : inflightDetails (st w) = 1) by (vm_compute; reflexivity).
  assert (H4 : outcome m w = Ok tt) by (vm_compute; reflexivity).
  assert (H5 : pending (exec m w) = ["sig2"; "sig3"; "sig4"])
    by (vm_compute; reflexivity).
  assert (H6 : trace (exec m w)
               = trace w ++ [SetTimer TIdle 60000;
                             Fetch (getTransaction "sig4")])
    by (vm_compute; reflexivity).
  exact (conj eq_refl (conj H1 (conj H2 (conj H3 (conj H4 (conj H5 H6)))))).
Qed.

(** ** Where the backoff is reset *)

#[local] Instance same_backoff_preorder : PreOrder same_backoff.
Proof.
  split; unfold same_backoff; [intros w; reflexivity|].
  intros a b c; congruence.
Qed.

Ltac same_backoff_atom := unfold same_backoff; simpl; auto.

Lemma backfill_loop_same_backoff cfg env w m l :
  steps_in same_backoff (backfill_loop cfg env w m l).
Proof.
  induction l as [|i rest IH]; cbn [backfill_loop];
    fold (backfill_loop cfg env); walk same_backoff_atom.
Qed.

#[local] Hint Resolve backfill_loop_same_backoff : steps.

Lemma connect_same_backoff : steps_in same_backoff connect.
Proof. walk same_backoff_atom. Qed.

Lemma start_same_backoff cfg env p : steps_in same_backoff (start cfg env p).
Proof. walk same_backoff_atom. Qed.

Lemma stop_same_backoff : steps_in same_backoff stop.
Proof. walk same_backoff_atom. Qed.

Lemma on_message_same_backoff cfg m : steps_in same_backoff (on_message cfg m).
Proof. walk same_backoff_atom. Qed.

Lemma detail_k_same_backoff cfg j r : steps_in same_backoff (detail_k cfg j r).
Proof. walk same_backoff_atom. Qed.

#[local] Hint Resolve connect_same_backoff start_same_backoff
  stop_same_backoff on_message_same_backoff detail_k_same_backoff : steps.

Lemma bind_after_same {A B} (P : Z -> Z -> Prop) (m : M A) (k : A -> M B) :
  (forall b, P b b) ->
  steps_in same_backoff m ->
  (forall a w, P (backoffMs (st w)) (backoffMs (st (snd (k a w))))) ->
  forall w, P (backoffMs (st w)) (backoffMs (st (snd (bind m k w)))).
Proof.
  intros Hrefl Hm Hk w. unfold bind. specialize (Hm w).
  unfold same_backoff in Hm.
  destruct (m w) as [[a|e] w1]; simpl in *; rewrite <- Hm; [apply Hk | apply Hrefl].
Qed.

Lemma catch_after_same {A} (P : Z -> Z -> Prop) (m : M A) (h : string -> M A) :
  (forall b, P b b) ->
  steps_in same_backoff m ->
  (forall e w, P (backoffMs (st w)) (backoffMs (st (snd (h e w))))) ->
  forall w, P (backoffMs (st w)) (backoffMs (st (snd (try_catch m h w)))).
Proof.
  intros Hrefl Hm Hh w. unfold try_catch. specialize (Hm w).
  unfold same_backoff in Hm.
  destruct (m w) as [[a|e] w1]; simpl in *; rewrite <- Hm; [apply Hrefl | apply Hh].
Qed.

Lemma scheduleReconnect_backoff cfg tag w :
  let b' := backoffMs (st (snd (scheduleReconnect cfg tag w))) in
  b' = backoffMs (st w) \/ b' = grow cfg (backoffMs (st w)).
Proof.
  unfold scheduleReconnect.
  cbv [bind get_st gets modify_st modify onLog emit setTimer modify_timers ret].
  destruct (shouldRun (st w)); simpl; auto.
Qed.

(** The [open] listener leaves the backoff at its base, whether or not it
    runs to its end. *)
Lemma on_open_backoff cfg w : backoffMs (st (snd (on_open cfg w))) = 1000.
Proof.
  unfold on_open.
  match goal with
  | |- context [bind (modify_st (set_backoffMs 1000)) ?rest] =>
      assert (Hrest : forall a, steps_in same_backoff (rest a))
        by (intros; walk same_backoff_atom);
      generalize dependent rest
  end.
  intros rest Hrest. cbv [bind onLog emit modify modify_st].
  apply (Hrest tt).
Qed.

(** The acknowledgment of the subscription does not touch it. *)
Lemma ack_backoff cfg id w :
  backoffMs (st (snd (on_message cfg (Ack id) w))) = backoffMs (st w).
Proof. apply on_message_same_backoff. Qed.

Lemma on_close_backoff cfg code reason w :
  grown cfg (backoffMs (st w))
    (backoffMs (st (snd (on_close cfg code reason w)))).
Proof.
  unfold on_close.
  apply (bind_after_same (grown cfg)); [by left | walk same_backoff_atom |].
  intros _ w0. apply scheduleReconnect_backoff.
Qed.

Lemma probe_callback_backoff cfg env w :
  grown cfg (backoffMs (st w))
    (backoffMs (st (snd (probe_callback cfg env w)))).
Proof.
  unfold probe_callback.
  apply (catch_after_same (grown cfg)); [by left | walk same_backoff_atom |].
  intros e w0.
  apply (bind_after_same (grown cfg)); [by left | walk same_backoff_atom |].
  intros _ w1. apply scheduleReconnect_backoff.
Qed.

Lemma grown_backoff_step cfg i b b' : grown cfg b b' -> backoff_step cfg i b b'.
Proof. intros [H|H]; [by left | by right; left]. Qed.

Lemma step_backoff cfg env i w :
  backoff_step cfg i (backoffMs (st w))
    (backoffMs (st (snd (step cfg env i w)))).
Proof.
  assert (Hrefl : forall b, backoff_step cfg i b b) by (intros; by left).
  assert (Hsame : forall m : M unit, steps_in same_backoff m ->
            backoff_step cfg i (backoffMs (st w)) (backoffMs (st (snd (m w)))))
    by (intros m Hm; left; apply Hm).
  destruct i; try (apply Hsame; walk same_backoff_atom; fail); cbn [step];
    apply (bind_after_same (backoff_step cfg _)); trivial;
    try (walk same_backoff_atom; fail); intros o w0.
  - (* open *)
    destruct o as [s|]; [|apply Hrefl].
    destruct (readyState s); try apply Hrefl.
    apply (bind_after_same (backoff_step cfg _)); trivial;
      [walk same_backoff_atom|].
    intros _ w1. destruct (listeners s); cbn [when]; [|apply Hrefl].
    right; right. split; [apply on_open_backoff | eauto].
  - (* close *)
    destruct o as [s|]; [|apply Hrefl].
    destruct (readyState s); try apply Hrefl;
      (apply (bind_after_same (backoff_step cfg _)); trivial;
       [walk same_backoff_atom|]);
      intros _ w1; (destruct (listeners s); cbn [when]; [|apply Hrefl]);
      apply grown_backoff_step, on_close_backoff.
  - (* a timer fires *)
    destruct (List.find (handle_is h) o) as [[[h' k] d]|]; [|apply Hrefl].
    apply (bind_after_same (backoff_step cfg _)); trivial;
      [destruct k; walk same_backoff_atom|].
    intros _ w1.
    destruct k; cbn [timer_callback];
      try (left; match goal with
                 | |- backoffMs (st (snd (?m w1))) = _ =>
                     assert (Hm : steps_in same_backoff m)
                       by walk same_backoff_atom;
                     apply Hm
                 end).
    apply grown_backoff_step, probe_callback_backoff.
Qed.

(** C3, as the code has it.  The [open] listener puts the backoff back to
    1000; the listener of the subscription acknowledgment leaves it as it
    is; and over one turn of the event loop the backoff stays, or grows by
    [scheduleReconnect], or is set to 1000 by a socket reaching the open
    state, and by nothing else. *)
Theorem backoff_reset_on_open :
  (forall cfg w, backoffMs (st (exec (on_open cfg) w)) = 1000)
  /\ (forall cfg id w,
        backoffMs (st (exec (on_message cfg (Ack id)) w)) = backoffMs (st w))
  /\ (forall cfg env i w,
        let b := backoffMs (st w) in
        let b' := backoffMs (st (exec (step cfg env i) w)) in
        b' = b \/ b' = Z.min (maxBackoffMs cfg) (round_times_1_5 b)
        \/ (b' = 1000 /\ exists h, i = SockOpen h)).
Proof.
  split; [|split].
  - intros. apply on_open_backoff.
  - intros. apply ack_backoff.
  - intros. apply step_backoff.
Qed.

(** The claim C3 fails on this run: the first socket closes before it
    opens, the probe succeeds, the second socket opens, and the backoff is
    back at 1000 although no acknowledgment has arrived. *)
Lemma backoff_reset_without_ack :
  let before :=
    exec (run default_config env_quiet
            [CallStart pair_AM; SockClose 0 1006 ""; Fire 1]) initial_world in
  let after := exec (step default_config env_quiet (SockOpen 2)) before in
  backoffMs (st before) = 1500
  /\ emitted (trace after) = []
  /\ backoffMs (st after) = 1000.
Proof. vm_compute. repeat split. Qed.

(** ** The reconnect delays *)

Lemma reconnect_delays_app t1 t2 :
  reconnect_delays (t1 ++ t2) = reconnect_delays t1 ++ reconnect_delays t2.
Proof. apply omap_app. Qed.

Lemma scheduleReconnect_schedules cfg tag w :
  shouldRun (st w) = true ->
  schedules cfg [grow cfg (backoffMs (st w))] (grow cfg (backoffMs (st w)))
    (scheduleReconnect cfg tag) w.
Proof.
  intros Hrun. unfold schedules, scheduleReconnect.
  cbv [bind get_st gets modify_st modify onLog emit setTimer modify_timers ret].
  rewrite Hrun. simpl. rewrite !reconnect_delays_app. simpl.
  rewrite app_nil_r, !length_app. simpl. repeat split; trivial. lia.
Qed.

Ltac use_scheduleReconnect Hrun :=
  match goal with
  | |- context [scheduleReconnect ?cfg ?t ?w0] =>
      let Hd := fresh "Hd" in
      let Hb := fresh "Hb" in
      let Hr := fresh "Hr" in
      let Hl := fresh "Hl" in
      destruct (scheduleReconnect_schedules cfg t w0)
        as (Hd & Hb & Hr & Hl); [exact Hrun|];
      simpl in Hd, Hb, Hr, Hl;
      rewrite ?reconnect_delays_app in Hd; simpl in Hd;
      rewrite ?app_nil_r in Hd;
      rewrite ?length_app in Hl; simpl in Hl;
      repeat split; trivial; lia
  end.

Lemma on_close_schedules cfg code reason w :
  shouldRun (st w) = true ->
  schedules cfg [grow cfg (backoffMs (st w))] (grow cfg (backoffMs (st w)))
    (on_close cfg code reason) w.
Proof.
  intros Hrun. unfold schedules, on_close. cbv [bind onLog emit modify].
  use_scheduleReconnect Hrun.
Qed.

Lemma probe_callback_schedules cfg env w :
  shouldRun (st w) = true ->
  failed (env (length (trace w)) getLatestBlockhash) = true ->
  schedules cfg [grow cfg (backoffMs (st w))] (grow cfg (backoffMs (st w)))
    (probe_callback cfg env) w.
Proof.
  intros Hrun Hfail.
  unfold schedules, probe_callback, rpc, rpc_send, rpc_recv.
  cbv [try_catch bind gets emit modify ret onLog]. simpl.
  destruct (env (length (trace w)) getLatestBlockhash) as [e|e|e|j];
    try discriminate; cbv [throw]; use_scheduleReconnect Hrun.
Qed.

Lemma scheduleReconnect_total cfg tag : total (scheduleReconnect cfg tag).
Proof. walk_total. Qed.

#[local] Hint Resolve scheduleReconnect_total : total.

Lemma probe_callback_total cfg env : total (probe_callback cfg env).
Proof. walk_total. Qed.

Lemma on_close_total cfg code reason : total (on_close cfg code reason).
Proof. walk_total. Qed.

Lemma probes_delays cfg env n w :
  shouldRun (st w) = true ->
  (forall t, (length (trace w) <= t)%nat ->
             failed (env t getLatestBlockhash) = true) ->
  reconnect_delays (trace (snd (probes cfg env n w)))
  = reconnect_delays (trace w) ++ delays_from cfg (backoffMs (st w)) n.
Proof.
  revert w. induction n as [|n IH]; intros w Hrun Hfail; cbn [probes delays_from].
  - simpl. by rewrite app_nil_r.
  - unfold bind.
    destruct (probe_callback_schedules cfg env w Hrun (Hfail _ (le_n _)))
      as (Hd & Hb & Hr & Hl).
    destruct (probe_callback_total cfg env w) as [[] Hok].
    destruct (probe_callback cfg env w) as [r w1]; simpl in *. subst r.
    rewrite IH; trivial.
    + rewrite Hd, Hb, <- app_assoc. reflexivity.
    + intros t Ht. apply Hfail. lia.
Qed.

Lemma delays_from_fixed cfg b n :
  grow cfg b = b -> delays_from cfg b n = repeat b n.
Proof.
  intros Hb. induction n as [|n IH]; simpl; trivial.
  rewrite Hb. by rewrite IH.
Qed.

Lemma delays_from_1000 cfg n :
  maxBackoffMs cfg = 5000 ->
  delays_from cfg 1000 (S n)
  = firstn (S n) [1500; 2250; 3375] ++ repeat 5000 (S n - 3).
Proof.
  intros Hmax.
  assert (H1 : grow cfg 1000 = 1500) by (unfold grow; rewrite Hmax; reflexivity).
  assert (H2 : grow cfg 1500 = 2250) by (unfold grow; rewrite Hmax; reflexivity).
  assert (H3 : grow cfg 2250 = 3375) by (unfold grow; rewrite Hmax; reflexivity).
  assert (H4 : grow cfg 3375 = 5000) by (unfold grow; rewrite Hmax; reflexivity).
  assert (H5 : grow cfg 5000 = 5000) by (unfold grow; rewrite Hmax; reflexivity).
  destruct n as [|[|[|n]]]; cbn [delays_from];
    rewrite ?H1, ?H2, ?H3, ?H4; cbn [delays_from]; trivial.
  rewrite ?H5, (delays_from_fixed cfg 5000 n H5). reflexivity.
Qed.

(** C2, as the code has it.  From the base 1000 with the cap 5000, the
    socket closing and then [n] probes failing in a row arm the reconnect
    timer with 1500, 2250, 3375, 5000, 5000, ...: [scheduleReconnect]
    multiplies the stored backoff by 1.5 (rounded, capped) before it
    waits, so the first wait is 1500 and the base itself is never waited. *)
Theorem reconnect_delay_sequence cfg env n w :
  maxBackoffMs cfg = 5000 ->
  shouldRun (st w) = true ->
  backoffMs (st w) = 1000 ->
  (forall t, (length (trace w) <= t)%nat ->
             failed (env t getLatestBlockhash) = true) ->
  reconnect_delays (trace (exec (close_then_probes cfg env n) w))
  = reconnect_delays (trace w)
    ++ firstn (S n) [1500; 2250; 3375] ++ repeat 5000 (S n - 3).
Proof.
  intros Hmax Hrun Hb Hfail. unfold exec, close_then_probes, bind.
  destruct (on_close_schedules cfg 1006 "" w Hrun) as (Hd & Hb1 & Hr & Hl).
  destruct (on_close_total cfg 1006 "" w) as [[] Hok].
  destruct (on_close cfg 1006 "" w) as [r w1]; cbn [fst snd] in *. subst r.
  rewrite probes_delays; trivial.
  - rewrite Hd, Hb1, <- app_assoc. f_equal.
    rewrite <- (delays_from_1000 cfg n Hmax). rewrite Hb. reflexivity.
  - intros t Ht. apply Hfail. lia.
Qed.

Lemma reconnect_delay_sequence_witness :
  let w := exec (run default_config env_flaky [CallStart pair_AM])
            initial_world in
  reconnect_delays (trace (exec (close_then_probes default_config env_flaky 4) w))
  = reconnect_delays (trace w) ++ [1500; 2250; 3375; 5000; 5000].
Proof.
  intros w.
  assert (Hrun : shouldRun (st w) = true) by (vm_compute; reflexivity).
  assert (Hb : backoffMs (st w) = 1000) by (vm_compute; reflexivity).
  assert (Hlen : (1 <= length (trace w))%nat) by (vm_compute; lia).
  refine (reconnect_delay_sequence default_config env_flaky 4 w
            eq_refl Hrun Hb _).
  intros [|t] Ht; [lia | reflexivity].
Defined.

(** The claim C2 fails on this run: the socket closes and four probes
    fail; the first wait is 1500, not the base. *)
Lemma first_reconnect_delay_is_not_base :
  let w := exec (run default_config env_flaky
                   [CallStart pair_AM; SockClose 0 1006 ""; Fire 1; Fire 2;
                    Fire 3; Fire 4]) initial_world in
  reconnect_delays (trace w) = [1500; 2250; 3375; 5000; 5000]
  /\ reconnect_delays (trace w) <> [1000; 1500; 2250; 3375; 5000].
Proof. vm_compute. split; [reflexivity | discriminate]. Qed.

(** ** The persisted cursor *)

#[local] Instance cursor_mono_preorder f : PreOrder (cursor_mono f).
Proof.
  split; unfold cursor_mono; [intros w; lia | intros a b c; lia].
Qed.

Ltac cursor_atom := unfold cursor_mono, stored_slot; simpl; try lia.

(** The write of the backfill path: [Math.max] of what is stored and the
    item's slot. *)
Lemma advance_by_max cfg f w m sl sg (k : M unit) :
  steps_in (cursor_mono f) k ->
  steps_in (cursor_mono f)
    (c <- loadState cfg w m;;
     saveState cfg w m {| lastSlot := Z.max (lastSlot c) sl; lastSig := sg |};;
     k).
Proof.
  intros Hk w0. unfold loadState, saveState.
  destruct (persist cfg); cbn [negb]; cbv [bind ret gets emit modify];
    [|apply Hk].
  etransitivity; [|apply Hk].
  unfold cursor_mono, stored_slot. simpl.
  destruct (decide (stateFile cfg w m = f)) as [->|Hne].
  - rewrite lookup_insert_eq. simpl. lia.
  - rewrite lookup_insert_ne by done. lia.
Qed.

Lemma backfill_loop_cursor_mono cfg env f w m l :
  steps_in (cursor_mono f) (backfill_loop cfg env w m l).
Proof.
  induction l as [|i rest IH]; cbn [backfill_loop];
    fold (backfill_loop cfg env); [walk cursor_atom|].
  apply steps_in_bind; [tc_solve | walk cursor_atom | intros s].
  destruct (has _ _); [assumption|].
  apply steps_in_bind; [tc_solve | walk cursor_atom | intros ok].
  destruct (negb ok); [assumption|].
  do 3 (apply steps_in_bind; [tc_solve | walk cursor_atom | intros _]).
  by apply advance_by_max.
Qed.

#[local] Hint Resolve backfill_loop_cursor_mono : steps.

(** The backfill path never lowers a stored cursor. *)
Lemma backfill_cursor_monotone cfg env f w m k w0 :
  stored_slot f w0 <= stored_slot f (exec (backfillOnce cfg env w m k) w0).
Proof.
  assert (H : steps_in (cursor_mono f) (backfillOnce cfg env w m k))
    by walk cursor_atom.
  apply H.
Qed.

(** C4 fails on the live path.  The backfill of [start] emits slot 50 and
    stores it; a live notification at slot 30 is then verified and
    emitted, and its cursor write stores 30: the live path assigns the
    slot where the backfill path takes the maximum. *)
Lemma live_write_lowers_cursor :
  let inputs :=
    [CallStart pair_AM; SockOpen 0;
     SockMessage 0 (LogsNotification "sigC" ["Program log: Transfer"] None 30);
     DetailReply 4 (Result (JTx tx_AM))] in
  let w := exec (run default_config env_one inputs) initial_world in
  cursor_writes file_AM (trace w) = [50; 30]
  /\ map slot (emitted (trace w)) = [50; 30]
  /\ stored_slot file_AM w = 30.
Proof. vm_compute. repeat split. Qed.

(** ** [start] on a valid pair *)

Lemma base58_nonempty s : base58_test s = true -> String.eqb s "" = false.
Proof. destruct s; [discriminate | reflexivity]. Qed.

Lemma start_valid cfg env p w :
  valid_pair p ->
  failed (env (length (trace w)) getLatestBlockhash) = false ->
  start cfg env p w
  = (backfillOnce cfg env (wallet p) (mint p) (lastSlot (loaded_cursor cfg p w));;
     connect) (after_preflight p w).
Proof.
  intros (wl & mt & Hw & Hm & Hbw & Hbm) Hprobe.
  unfold start, loaded_cursor. destruct p as [pw pm]; simpl in *. subst pw pm.
  simpl. rewrite (base58_nonempty _ Hbw), (base58_nonempty _ Hbm), Hbw, Hbm.
  simpl. unfold rpc_send, loadState.
  cbv [try_catch bind gets emit modify ret onLog modify_st]. simpl.
  destruct (env (length (trace w)) getLatestBlockhash); try discriminate.
  simpl. unfold after_preflight.
  destruct (persist cfg); reflexivity.
Qed.

(** [connect], when the client should run and has its pair: a new socket,
    connecting, with the listeners on it, is the last thing done. *)
Lemma connect_opens w :
  shouldRun (st w) = true ->
  truthy (wallet (pair (st w))) = true ->
  truthy (mint (pair (st w))) = true ->
  let w' := snd (connect w) in
  fst (connect w) = Ok tt
  /\ ws (st w') = Some (fresh w)
  /\ trace w' = trace w ++ [WsNew (fresh w)]
  /\ socks w' !! fresh w
     = Some {| readyState := CONNECTING; listeners := true;
               pong_listener := false |}.
Proof.
  intros Hrun Hw Hm. unfold connect, clearAllTimers, clear_key.
  cbv [bind get_st gets modify_st modify modify_timers clearTimer ret
       removeAllListeners new_WebSocket attach_listeners].
  rewrite Hrun, Hw, Hm.
  destruct w as [[sk [p l i pr] b pa n se sr] d so po jo fr tr]; simpl in *.
  destruct p, l, i, pr, sk; simpl; repeat split; trivial;
    by rewrite lookup_alter_eq, lookup_insert_eq.
Qed.

#[local] Instance keeps_running_preorder : PreOrder keeps_running.
Proof.
  split; unfold keeps_running; [intros w; auto|].
  intros a b c [] []. split; congruence.
Qed.

Ltac keeps_running_atom := unfold keeps_running; simpl; auto.

Lemma backfill_loop_keeps_running cfg env w m l :
  steps_in keeps_running (backfill_loop cfg env w m l).
Proof.
  induction l as [|i rest IH]; cbn [backfill_loop];
    fold (backfill_loop cfg env); walk keeps_running_atom.
Qed.

#[local] Hint Resolve backfill_loop_keeps_running : steps.

Lemma backfillOnce_keeps_running cfg env w m k :
  steps_in keeps_running (backfillOnce cfg env w m k).
Proof. walk keeps_running_atom. Qed.

(** On a valid pair and an answered preflight, [start] returns normally
    with a fresh socket connecting, whatever the backfill met. *)
Lemma start_valid_connects cfg env p w :
  valid_pair p ->
  failed (env (length (trace w)) getLatestBlockhash) = false ->
  let w' := exec (start cfg env p) w in
  outcome (start cfg env p) w = Ok tt
  /\ exists h,
       ws (st w') = Some h
       /\ last (trace w') = Some (WsNew h)
       /\ socks w' !! h
          = Some {| readyState := CONNECTING; listeners := true;
                    pong_listener := false |}.
Proof.
  intros Hv Hprobe. unfold outcome, exec.
  rewrite (start_valid cfg env p w Hv Hprobe). unfold bind.
  set (k := lastSlot (loaded_cursor cfg p w)).
  destruct (backfillOnce_total cfg env (wallet p) (mint p) k
              (after_preflight p w)) as [[] Hok].
  destruct (backfillOnce_keeps_running cfg env (wallet p) (mint p) k
              (after_preflight p w)) as [Hrun Hpair].
  destruct (backfillOnce cfg env (wallet p) (mint p) k (after_preflight p w))
    as [r w1]; cbn [fst snd] in *. subst r.
  destruct Hv as (wl & mt & Hw & Hm & Hbw & Hbm).
  destruct (connect_opens w1) as (Ho & Hws & Htr & Hs).
  - rewrite Hrun. reflexivity.
  - rewrite Hpair. simpl. rewrite Hw. simpl.
    by rewrite (base58_nonempty _ Hbw).
  - rewrite Hpair. simpl. rewrite Hm. simpl.
    by rewrite (base58_nonempty _ Hbm).
  - split; [exact Ho|]. exists (fresh w1). repeat split; trivial.
    rewrite Htr. apply last_snoc.
Qed.

(** ** Failures during backfill *)

Lemma with_trace_ext f g w :
  f (trace w) = g (trace w) -> with_trace f w = with_trace g w.
Proof. intros H. unfold with_trace. by rewrite H. Qed.

Lemma with_trace_comp f g w :
  with_trace f (with_trace g w) = with_trace (fun t => f (g t)) w.
Proof. reflexivity. Qed.

Ltac same_trace :=
  rewrite ?with_trace_comp; apply with_trace_ext; simpl;
  by rewrite <- ?app_assoc.

(** The history request fails: logged as a backfill error, nothing else
    is looked at. *)
Lemma backfillOnce_history_failure cfg env wl m k w :
  wl <> "" ->
  let req := getSignaturesForAddress wl (backfillLimit cfg) (Z.max 0 (k - 1)) in
  let reply := env (S (length (trace w))) req in
  failed reply = true ->
  backfillOnce cfg env (Some wl) m k w
  = (Ok tt,
     with_trace
       (fun t => t ++ [OnLog info "Backfill start"
                         (CBackfill (backfillLimit cfg) (Some wl) m);
                       Fetch req;
                       OnLog error "Backfill error"
                         (CErr (failure_message reply))]) w).
Proof.
  intros Hne req reply Hfail. unfold backfillOnce, rpc, rpc_send.
  simpl. destruct (String.eqb_spec wl "") as [|_]; [done|]. simpl.
  cbv [try_catch bind gets emit modify ret onLog]. simpl.
  rewrite length_app, Nat.add_1_r. simpl. fold req. fold reply.
  destruct reply; try discriminate; simpl; f_equal; same_trace.
Qed.

(** A detail request fails inside the loop: logged by
    [txHasWalletMintPair], the item is skipped and the loop goes on. *)
Lemma backfill_loop_detail_failure cfg env w m i rest w0 :
  has (si_signature i) (seen (st w0)) = false ->
  let reply := env (length (trace w0)) (getTransaction (si_signature i)) in
  failed reply = true ->
  backfill_loop cfg env w m (i :: rest) w0
  = backfill_loop cfg env w m rest
      (with_trace
         (fun t => t ++ [Fetch (getTransaction (si_signature i));
                         OnLog error "txHasWalletMintPair failed"
                           (CErr (failure_message reply))]) w0).
Proof.
  intros Hnew reply Hfail. cbn [backfill_loop]. fold (backfill_loop cfg env).
  unfold txHasWalletMintPair, txHasWalletMintPair_k, rpc_send, rpc_recv.
  cbv [try_catch bind get_st gets emit modify ret onLog]. simpl.
  rewrite Hnew. fold reply.
  destruct reply; try discriminate; simpl; f_equal; same_trace.
Qed.

Lemma after_preflight_time p w :
  S (length (trace (after_preflight p w))) = (3 + length (trace w))%nat.
Proof. simpl. rewrite !length_app. simpl. lia. Qed.

(** C8, as the code has it.  On a valid pair whose preflight is answered,
    [start] returns normally and ends by opening a socket, whatever the
    backfill met.  If the history request fails, the failure is logged as
    a backfill error and the pass ends there: the trace of [start] is the
    preflight, the two backfill log entries around the failed request, and
    the new socket.  If a detail request fails inside the pass, it is
    logged by [txHasWalletMintPair] and the pass goes on with the next
    item. *)
Theorem backfill_failure_is_contained cfg env p w :
  valid_pair p ->
  failed (env (length (trace w)) getLatestBlockhash) = false ->
  let w' := exec (start cfg env p) w in
  (outcome (start cfg env p) w = Ok tt
   /\ exists h, ws (st w') = Some h /\ last (trace w') = Some (WsNew h))
  /\ (forall wl,
        wallet p = Some wl ->
        let req :=
          getSignaturesForAddress wl (backfillLimit cfg)
            (Z.max 0 (lastSlot (loaded_cursor cfg p w) - 1)) in
        let reply := env (3 + length (trace w))%nat req in
        failed reply = true ->
        trace w'
        = trace w
          ++ [Fetch getLatestBlockhash;
              OnLog info "Helius HTTP probe OK" CNone;
              OnLog info "Backfill start"
                (CBackfill (backfillLimit cfg) (wallet p) (mint p));
              Fetch req;
              OnLog error "Backfill error" (CErr (failure_message reply));
              WsNew (fresh w)])
  /\ (forall wm m0 i rest w0,
        has (si_signature i) (seen (st w0)) = false ->
        let reply := env (length (trace w0)) (getTransaction (si_signature i)) in
        failed reply = true ->
        backfill_loop cfg env wm m0 (i :: rest) w0
        = backfill_loop cfg env wm m0 rest
            (with_trace
               (fun t => t ++ [Fetch (getTransaction (si_signature i));
                               OnLog error "txHasWalletMintPair failed"
                                 (CErr (failure_message reply))]) w0)).
Proof.
  intros Hv Hprobe w'. split; [|split].
  - destruct (start_valid_connects cfg env p w Hv Hprobe)
      as (Ho & h & Hws & Hl & _).
    split; [exact Ho | eauto].
  - intros wl Hwl req reply Hfail. subst w'. unfold exec.
    rewrite (start_valid cfg env p w Hv Hprobe). unfold bind.
    destruct Hv as (wl' & mt & Hw & Hm & Hbw & Hbm).
    assert (wl' = wl) by congruence. subst wl'.
    assert (Hne : wl <> "").
    { intros ->. discriminate. }
    rewrite Hw.
    rewrite (backfillOnce_history_failure cfg env wl (mint p) _
               (after_preflight p w) Hne);
      rewrite after_preflight_time; [|exact Hfail].
    cbv iota beta.
    match goal with
    | |- trace (snd (connect ?w2)) = _ =>
        destruct (connect_opens w2) as (_ & _ & Htr & _);
        [reflexivity
        |simpl; rewrite Hw; simpl; by rewrite (base58_nonempty _ Hbw)
        |simpl; rewrite Hm; simpl; by rewrite (base58_nonempty _ Hbm)
        |]
    end.
    rewrite Htr. simpl. rewrite <- !app_assoc. rewrite ?Hw. reflexivity.
  - intros. by apply backfill_loop_detail_failure.
Qed.

Lemma backfill_failure_is_contained_witness :
  let w' := exec (start default_config env_history_down pair_AM)
              initial_world in
  outcome (start default_config env_history_down pair_AM) initial_world
  = Ok tt
  /\ ws (st w') = Some 0%nat
  /\ trace w'
     = [Fetch getLatestBlockhash;
        OnLog info "Helius HTTP probe OK" CNone;
        OnLog info "Backfill start"
          (CBackfill 15 (Some wallet_A) (Some mint_M));
        Fetch (getSignaturesForAddress wallet_A 15 0);
        OnLog error "Backfill error" (CErr "-32005 Too many requests");
        WsNew 0].
Proof.
  intros w'.
  assert (Hv : valid_pair pair_AM).
  { exists wallet_A, mint_M. repeat split; reflexivity. }
  destruct (backfill_failure_is_contained default_config env_history_down
              pair_AM initial_world Hv eq_refl) as ((Ho & _) & Htr & _).
  split; [exact Ho|].
  split; [vm_compute; reflexivity|].
  exact (Htr wallet_A eq_refl eq_refl).
Defined.

(** The claim C8 fails on this run: the detail request for the first item
    fails and is logged, and the pass goes on to fetch and emit the
    second. *)
Lemma backfill_continues_after_detail_failure :
  let w := exec (start default_config env_detail_down pair_AM)
             initial_world in
  detail_fetches (trace w) = ["sigA"; "sigB"]
  /\ In (OnLog error "txHasWalletMintPair failed" (CErr "network timeout"))
       (trace w)
  /\ map signature (emitted (trace w)) = ["sigB"]
  /\ trace w
     = [Fetch getLatestBlockhash;
        OnLog info "Helius HTTP probe OK" CNone;
        OnLog info "Backfill start"
          (CBackfill 15 (Some wallet_A) (Some mint_M));
        Fetch (getSignaturesForAddress wallet_A 15 0);
        Fetch (getTransaction "sigA");
        OnLog error "txHasWalletMintPair failed" (CErr "network timeout");
        Fetch (getTransaction "sigB");
        OnEvent {| source := backfill; ev_pair := pair_AM; slot := 40;
                   signature := "sigB"; err := None; log := "backfill-scan" |};
        FsWrite file_AM {| lastSlot := 40; lastSig := Some "sigB" |};
        WsNew 0].
Proof. vm_compute. repeat split. right; right; right; right; right. by left. Qed.

(** ** The seen-set *)

Lemma has_In x s : has x s = true <-> In x s.
Proof.
  unfold has. rewrite existsb_exists. split.
  - intros (y & Hy & He). apply String.eqb_eq in He. by subst.
  - intros H. exists x. split; [done | apply String.eqb_refl].
Qed.

Lemma has_false x s : has x s = false <-> ~ In x s.
Proof. rewrite <- has_In. destruct (has x s); split; congruence. Qed.

Lemma In_tl {A} (x : A) l : In x (tl l) -> In x l.
Proof. destruct l; simpl; auto. Qed.

Lemma In_remember_set x y s :
  In x (remember_set y s) -> x = y \/ In x s.
Proof.
  unfold remember_set, add.
  destruct (has y s), (5000 <? _); intros H;
    try apply In_tl in H; try apply in_app_or in H; simpl in H; intuition.
Qed.

Lemma has_remember_other x y s :
  x <> y -> has x s = false -> has x (remember_set y s) = false.
Proof.
  rewrite !has_false. intros Hne Hs H.
  apply In_remember_set in H. intuition.
Qed.

Lemma In_replay x l s : In x (replay l s) -> In x l \/ In x s.
Proof.
  unfold replay. revert s. induction l as [|y l IH]; simpl; intros s H; auto.
  apply IH in H as [H|H]; auto.
  apply In_remember_set in H as [->|H]; auto.
Qed.

Lemma replay_snoc l y s : replay (l ++ [y]) s = remember_set y (replay l s).
Proof. unfold replay. by rewrite fold_left_app. Qed.

Lemma replay_cons y l s : replay (y :: l) s = replay l (remember_set y s).
Proof. reflexivity. Qed.

Lemma replay_app l1 l2 s : replay (l1 ++ l2) s = replay l2 (replay l1 s).
Proof. unfold replay. by rewrite fold_left_app. Qed.

Lemma length_remember_set y s :
  (length s <= 5000)%nat -> (length (remember_set y s) <= 5000)%nat.
Proof.
  intros H. unfold remember_set, add.
  destruct (has y s).
  - destruct (Z.ltb_spec 5000 (Z.of_nat (length s))); [lia|done].
  - rewrite length_app. simpl.
    destruct (Z.ltb_spec 5000 (Z.of_nat (length s + 1))).
    + destruct s; simpl in *; [lia|]. rewrite length_app. simpl. lia.
    + rewrite length_app. simpl. lia.
Qed.

Lemma length_replay l s :
  (length s <= 5000)%nat -> (length (replay l s) <= 5000)%nat.
Proof.
  revert s. induction l as [|y l IH]; intros s H; [done|].
  rewrite replay_cons. apply IH. by apply length_remember_set.
Qed.

Lemma kept_has x k s : kept x k s -> has x s = true.
Proof.
  intros (_ & a & b & -> & _). apply has_In, in_or_app. right. by left.
Qed.

(** A signature that was not in the set is its newest element. *)
Lemma kept_first x s :
  (length s <= 5000)%nat -> has x s = false -> kept x 0 (remember_set x s).
Proof.
  intros Hlen Hx. split; [by apply length_remember_set|].
  unfold remember_set, add. rewrite Hx.
  destruct (Z.ltb_spec 5000 (Z.of_nat (length (s ++ [x])))) as [Hl|Hl].
  - destruct s as [|z s]; simpl in *; [lia|].
    exists s, []. by split.
  - exists s, []. by split.
Qed.

(** One more signature is remembered: [x] stays unless 4999 were already
    behind it. *)
Lemma kept_remember x k y s :
  (S k < 5000)%nat -> kept x k s -> kept x (S k) (remember_set y s).
Proof.
  intros Hk (Hlen & a & b & -> & Hb).
  split; [by apply length_remember_set|].
  unfold remember_set, add.
  destruct (has y (a ++ x :: b)).
  - destruct (Z.ltb_spec 5000 (Z.of_nat (length (a ++ x :: b)))); [lia|].
    exists a, b. split; [done | lia].
  - rewrite <- app_assoc. simpl.
    destruct (Z.ltb_spec 5000 (Z.of_nat (length (a ++ x :: b ++ [y])))) as [Hl|Hl].
    + destruct a as [|z a]; simpl.
      * simpl in Hl. rewrite length_app in Hl. simpl in Hl. lia.
      * exists a, (b ++ [y]). split; [done|]. rewrite length_app. simpl. lia.
    + exists a, (b ++ [y]). split; [done|]. rewrite length_app. simpl. lia.
Qed.

Lemma kept_replay x k l s :
  (k + length l < 5000)%nat -> kept x k s -> kept x (k + length l) (replay l s).
Proof.
  revert k s. induction l as [|y l IH]; intros k s Hk Hs; cbn [length] in *.
  - by rewrite Nat.add_0_r.
  - rewrite replay_cons.
    replace (k + S (length l))%nat with (S k + length l)%nat by lia.
    apply IH; [lia|]. apply kept_remember; [lia | done].
Qed.

(** The first time [x] is remembered, and fewer than 5000 signatures
    after it: [x] is still in the set. *)
Lemma replay_keeps_recent pre x post :
  ~ In x pre -> (length post < 5000)%nat ->
  has x (replay (pre ++ x :: post) []) = true.
Proof.
  intros Hpre Hpost. rewrite replay_app, replay_cons.
  apply (kept_has x (0 + length post)), kept_replay; [simpl; lia|].
  apply kept_first.
  - apply length_replay. simpl. lia.
  - apply has_false. intros H. apply In_replay in H as [H|[]]. done.
Qed.

(** Remembering distinct signatures from the empty set keeps the last
    5000 of them. *)
Lemma replay_NoDup l :
  NoDup l -> replay l [] = drop (length l - 5000) l.
Proof.
  induction l as [|y l IH] using rev_ind; intros Hnd; [done|].
  apply NoDup_app in Hnd as (Hl & Hy & _).
  rewrite replay_snoc, IH by done.
  assert (Hny : has y (drop (length l - 5000) l) = false).
  { apply has_false. intros H. apply (Hy y); [|by left].
    apply (subseteq_drop (length l - 5000)). by apply list_elem_of_In. }
  unfold remember_set, add. rewrite Hny.
  rewrite !length_app, length_drop. simpl.
  destruct (Z.ltb_spec 5000 (Z.of_nat (length l - (length l - 5000) + 1))).
  - assert (Hge : (5000 <= length l)%nat) by lia.
    replace (length l + 1 - 5000)%nat with (S (length l - 5000)) by lia.
    rewrite drop_app_le by lia.
    destruct (drop (length l - 5000) l) as [|z r] eqn:E.
    + apply (f_equal length) in E. rewrite length_drop in E. simpl in E. lia.
    + simpl. f_equal.
      change r with (drop 1 (z :: r)). rewrite <- E, drop_drop. f_equal. lia.
  - replace (length l + 1 - 5000)%nat with 0%nat by lia.
    replace (length l - 5000)%nat with 0%nat by lia. reflexivity.
Qed.

(** After 5000 further distinct signatures the first one is gone. *)
Lemma replay_evicts x l :
  NoDup (x :: l) -> length l = 5000%nat -> has x (replay (x :: l) []) = false.
Proof.
  intros Hnd Hlen. rewrite (replay_NoDup _ Hnd). simpl length.
  rewrite Hlen. replace (S 5000 - 5000)%nat with 1%nat by lia.
  cbn [drop]. rewrite drop_0. apply has_false. rewrite <- list_elem_of_In.
  by apply NoDup_cons in Hnd as [? _].
Qed.

(** ** The seen-set follows the emissions *)

Lemma emitted_app t1 t2 : emitted (t1 ++ t2) = emitted t1 ++ emitted t2.
Proof. apply omap_app. Qed.

#[local] Instance seen_rel_preorder : PreOrder seen_rel.
Proof. split; unfold seen_rel; [intros w; auto | intros a b c; auto]. Qed.

Ltac seen_atom :=
  unfold seen_rel, seen_inv; simpl;
  rewrite ?emitted_app; simpl; rewrite ?app_nil_r; auto.

(** The two lines that both paths share: [cfg.onEvent(event)] and then
    [remember(signature)]. *)
Lemma emit_then_remember e (k : M unit) :
  steps_in seen_rel k ->
  steps_in seen_rel (emit (OnEvent e);; remember (signature e);; k).
Proof.
  intros Hk w. cbv [bind emit modify remember modify_st].
  etransitivity; [|apply Hk].
  unfold seen_rel, seen_inv. simpl. intros ->.
  by rewrite emitted_app, map_app, replay_app.
Qed.

Lemma backfill_loop_seen cfg env w m l :
  steps_in seen_rel (backfill_loop cfg env w m l).
Proof.
  induction l as [|i rest IH]; cbn [backfill_loop];
    fold (backfill_loop cfg env); [walk seen_atom|].
  apply steps_in_bind; [tc_solve | walk seen_atom | intros s].
  destruct (has _ _); [assumption|].
  apply steps_in_bind; [tc_solve | walk seen_atom | intros ok].
  destruct (negb ok); [assumption|].
  apply steps_in_bind; [tc_solve | walk seen_atom | intros _].
  match goal with
  | |- steps_in _ (emit (OnEvent ?e);; _) => apply (emit_then_remember e)
  end.
  walk seen_atom.
Qed.

Lemma detail_k_seen cfg j r : steps_in seen_rel (detail_k cfg j r).
Proof.
  unfold detail_k.
  apply steps_in_try_catch; [tc_solve | | intros; walk seen_atom].
  apply steps_in_bind; [tc_solve | walk seen_atom | intros ok].
  apply steps_in_bind; [tc_solve | walk seen_atom | intros _].
  destruct (negb ok); [walk seen_atom|].
  apply steps_in_bind; [tc_solve | walk seen_atom | intros s].
  apply steps_in_bind; [tc_solve | walk seen_atom | intros _].
  match goal with
  | |- steps_in _ (emit (OnEvent ?e);; _) => apply (emit_then_remember e)
  end.
  walk seen_atom.
Qed.

#[local] Hint Resolve backfill_loop_seen detail_k_seen : steps.

Lemma step_seen cfg env i : steps_in seen_rel (step cfg env i).
Proof. destruct i; walk seen_atom. Qed.

Lemma run_seen cfg env l : steps_in seen_rel (run cfg env l).
Proof.
  induction l as [|i rest IH]; cbn [run]; fold (run cfg env).
  - walk seen_atom.
  - apply steps_in_bind; [tc_solve | apply step_seen | auto].
Qed.

(** After any run from the initial state. *)
Lemma seen_follows_emitted cfg env l :
  seen_inv (exec (run cfg env l) initial_world).
Proof. apply (run_seen cfg env l initial_world). reflexivity. Qed.

(** The [message] listener on a signature that is in the seen-set. *)
Lemma seen_notification_dropped cfg sig logs e sl w :
  has sig (seen (st w)) = true ->
  let m := on_message cfg (LogsNotification sig logs e sl) in
  outcome m w = Ok tt
  /\ trace (exec m w) = trace w ++ [SetTimer TIdle (noMsgTimeoutMs cfg)]
  /\ jobs (exec m w) = jobs w
  /\ seen (st (exec m w)) = seen (st w).
Proof.
  intros Hseen. unfold outcome, exec, on_message.
  cbv [try_catch bind armIdleRecycle get_st gets clear_handle setTimer
       modify_timers modify_st modify clearTimer ret rpc_send emit add_job].
  destruct (idle (timers (st w))); simpl; rewrite Hseen; simpl;
    repeat split; trivial.
Qed.

(** ** A pass over a page of new signatures *)

Lemma detail_fetches_app t1 t2 :
  detail_fetches (t1 ++ t2) = detail_fetches t1 ++ detail_fetches t2.
Proof. apply omap_app. Qed.

Lemma history_requests_app t1 t2 :
  history_requests (t1 ++ t2) = history_requests t1 ++ history_requests t2.
Proof. apply omap_app. Qed.

Lemma backfill_loop_cons cfg env w m i rest w0 :
  backfill_loop cfg env w m (i :: rest) w0
  = (backfill_item cfg env w m i;; backfill_loop cfg env w m rest) w0.
Proof.
  cbn [backfill_loop]. fold (backfill_loop cfg env). unfold backfill_item.
  cbv [bind get_st gets ret].
  destruct (has _ _); [reflexivity|].
  destruct (txHasWalletMintPair env (si_signature i) w0) as [[[]|e] w1];
    cbn [negb]; try reflexivity.
  repeat first
    [ reflexivity
    | match goal with
      | |- context [let (_, _) := ?x in _] => destruct x as [[?|?] ?]
      end ].
Qed.

Lemma backfill_item_keeps_running cfg env w m i :
  steps_in keeps_running (backfill_item cfg env w m i).
Proof. walk keeps_running_atom. Qed.

(** What one turn adds to the trace, case by case. *)
Ltac item_case w0 i :=
  split; [reflexivity|]; rewrite <- ?app_assoc; eexists;
  split; [reflexivity|]; repeat split; auto;
  try match goal with
      | Hpos : always_touching _ _ |- _ =>
          let tx := fresh "tx" in
          let He := fresh "He" in
          let Ht := fresh "Ht" in
          destruct (Hpos (length (trace w0)) (si_signature i))
            as (tx & He & Ht); congruence
      end.

(** One turn on a signature that is not in the seen-set: its detail is
    requested, whatever its slot. *)
Lemma backfill_item_fresh cfg env wl mt i w0 :
  never_fails cfg ->
  has (si_signature i) (seen (st w0)) = false ->
  let r := backfill_item cfg env wl mt i w0 in
  fst r = Ok tt
  /\ exists T,
       trace (snd r) = trace w0 ++ T
       /\ detail_fetches T = [si_signature i]
       /\ history_requests T = []
       /\ (seen (st (snd r)) = seen (st w0)
           \/ seen (st (snd r)) = remember_set (si_signature i) (seen (st w0)))
       /\ (always_touching env (pair (st w0)) ->
           seen (st (snd r)) = remember_set (si_signature i) (seen (st w0))
           /\ emitted T = [backfill_event wl mt i]).
Proof.
  intros Hsave Hnew.
  unfold backfill_item, txHasWalletMintPair, txHasWalletMintPair_k,
    rpc_send, rpc_recv, run_saveEvent, loadState, saveState, remember.
  cbv [bind try_catch get_st gets ret emit modify modify_st onLog throw].
  cbn [fst snd]. rewrite Hnew.
  destruct (env (length (trace w0)) (getTransaction (si_signature i)))
    as [e|e|e|j] eqn:Henv; cbn; try (item_case w0 i; fail).
  destruct j; cbn; try (item_case w0 i; fail).
  destruct (touches (pair (st w0)) tx) eqn:Htouch; cbn;
    try (item_case w0 i; fail).
  destruct (saveEvent cfg) as [f|] eqn:Hf; [rewrite (Hsave f _ Hf)|];
    destruct (persist cfg); cbn; item_case w0 i.
Qed.

(** A pass over signatures that are new and distinct requests the detail
    of every one of them, in order; if every transaction touches the pair,
    it emits and remembers every one of them. *)
Lemma backfill_loop_fresh cfg env wl mt page :
  never_fails cfg ->
  forall w0,
    NoDup (map si_signature page) ->
    (forall i, In i page -> has (si_signature i) (seen (st w0)) = false) ->
    let r := backfill_loop cfg env wl mt page w0 in
    fst r = Ok tt
    /\ exists T,
         trace (snd r) = trace w0 ++ T
         /\ detail_fetches T = map si_signature page
         /\ history_requests T = []
         /\ (always_touching env (pair (st w0)) ->
             seen (st (snd r)) = replay (map si_signature page) (seen (st w0))
             /\ emitted T = map (backfill_event wl mt) page).
Proof.
  intros Hsave. induction page as [|i rest IH]; intros w0 Hnd Hnew.
  - simpl. split; [done|]. exists []. by rewrite app_nil_r.
  - cbv zeta. rewrite backfill_loop_cons. unfold bind.
    destruct (backfill_item_fresh cfg env wl mt i w0 Hsave)
      as (Hok & T1 & Htr & Hf & Hh & Hseen & Hpos); [apply Hnew; by left|].
    destruct (backfill_item_keeps_running cfg env wl mt i w0) as [_ Hpair].
    destruct (backfill_item cfg env wl mt i w0) as [r1 w1];
      cbn [fst snd] in *. subst r1.
    apply NoDup_cons in Hnd as [Hi Hnd].
    destruct (IH w1 Hnd) as (Hok2 & T2 & Htr2 & Hf2 & Hh2 & Hpos2).
    { intros j Hj.
      assert (Hne : si_signature j <> si_signature i).
      { intros Heq. apply Hi. rewrite <- Heq.
        apply list_elem_of_In, in_map, Hj. }
      destruct Hseen as [->| ->].
      - apply Hnew. by right.
      - apply has_remember_other; [done|]. apply Hnew. by right. }
    split; [exact Hok2|]. exists (T1 ++ T2).
    rewrite Htr2, Htr, <- app_assoc, detail_fetches_app,
      history_requests_app, Hf, Hf2, Hh, Hh2.
    repeat split; trivial.
    + destruct (Hpos H) as [Hs _]. rewrite Hpair in Hpos2.
      destruct (Hpos2 H) as [Hs2 _]. rewrite Hs2, Hs. reflexivity.
    + destruct (Hpos H) as [_ He]. rewrite Hpair in Hpos2.
      destruct (Hpos2 H) as [_ He2]. rewrite emitted_app, He, He2. reflexivity.
Qed.

(** [backfillOnce] up to its loop, when the history request is answered
    with a page. *)
Lemma backfillOnce_history_ok cfg env wl m k w page :
  wl <> "" ->
  let req := getSignaturesForAddress wl (backfillLimit cfg) (Z.max 0 (k - 1)) in
  env (S (length (trace w))) req = Result (JSigs page) ->
  backfillOnce cfg env (Some wl) m k w
  = try_catch (backfill_loop cfg env (Some wl) m page)
      (fun e => onLog error "Backfill error" (CErr e))
      (with_trace (fun t => t ++ [Fetch req])
         (with_trace
            (fun t => t ++ [OnLog info "Backfill start"
                              (CBackfill (backfillLimit cfg) (Some wl) m)])
            w)).
Proof.
  intros Hne req Hreply. unfold backfillOnce, rpc, rpc_send.
  simpl. destruct (String.eqb_spec wl "") as [|_]; [done|]. simpl.
  cbv [try_catch bind gets emit modify ret onLog rpc_recv]. simpl.
  rewrite length_app, Nat.add_1_r. simpl. fold req. rewrite Hreply.
  reflexivity.
Qed.

(** C5, as the code has it.  [backfillOnce] sends one history request,
    with the configured limit and [minContextSlot] one below the stored
    slot, and then goes through the page it got: on a page of distinct
    identifiers none of which is in the seen-set, and with a [saveEvent]
    that does not fail, the detail of every item is requested, in the
    order of the page, whatever the item's slot is.  There is no second
    page and no stop at the stored position. *)
Theorem backfill_is_a_single_page cfg env wl m k w page :
  wl <> "" ->
  never_fails cfg ->
  env (S (length (trace w)))
    (getSignaturesForAddress wl (backfillLimit cfg) (Z.max 0 (k - 1)))
  = Result (JSigs page) ->
  NoDup (map si_signature page) ->
  (forall i, In i page -> has (si_signature i) (seen (st w)) = false) ->
  let w' := exec (backfillOnce cfg env (Some wl) m k) w in
  history_requests (trace w')
  = history_requests (trace w) ++ [(wl, backfillLimit cfg, Z.max 0 (k - 1))]
  /\ detail_fetches (trace w')
     = detail_fetches (trace w) ++ map si_signature page.
Proof.
  intros Hne Hsave Hreply Hnd Hnew. unfold exec.
  rewrite (backfillOnce_history_ok cfg env wl m k w page Hne Hreply).
  unfold try_catch.
  match goal with
  | |- context [backfill_loop cfg env ?a ?b page ?w1] =>
      destruct (backfill_loop_fresh cfg env a b page Hsave w1 Hnd Hnew)
        as (Hok & T & Htr & Hf & Hh & _);
      destruct (backfill_loop cfg env a b page w1) as [r w2]
  end.
  cbn [fst snd] in *. subst r. cbn [snd]. rewrite Htr. simpl.
  rewrite !history_requests_app, !detail_fetches_app, Hf, Hh. simpl.
  rewrite !app_nil_r. done.
Qed.

Lemma NoDup_page_two : NoDup (map si_signature page_two).
Proof.
  apply NoDup_cons. split; [|apply NoDup_singleton].
  rewrite list_elem_of_In. simpl. intros [H|[]]. discriminate.
Qed.

Lemma backfill_is_a_single_page_witness :
  let w' := exec (backfillOnce default_config env_two (Some wallet_A)
                    (Some mint_M) 100) initial_world in
  history_requests (trace w') = [(wallet_A, 15, 99)]
  /\ detail_fetches (trace w') = ["sigA"; "sigB"].
Proof.
  refine (backfill_is_a_single_page default_config env_two wallet_A
            (Some mint_M) 100 initial_world page_two _ _ eq_refl
            NoDup_page_two _).
  - discriminate.
  - intros f e H. discriminate.
  - intros i Hi. reflexivity.
Defined.

(** The claim C5 fails on this run: the stored position is 100, the page
    holds items at slots 50 and 40, and both are looked up and emitted; a
    pass that stopped at the stored position would look at neither. *)
Lemma backfill_does_not_stop_at_cursor :
  let w := exec (start default_config env_two pair_AM) world_cursor_100 in
  stored_slot file_AM world_cursor_100 = 100
  /\ history_requests (trace w) = [(wallet_A, 15, 99)]
  /\ detail_fetches (trace w) = ["sigA"; "sigB"]
  /\ map slot (emitted (trace w)) = [50; 40]
  /\ spec_candidates 100 page_two = [].
Proof. vm_compute. repeat split. Qed.

(** ** De-duplication across the two paths *)

(** C1, as the code has it.  After any run from the initial state: if an
    identifier was emitted for the first time and fewer than 5000 further
    events were emitted since, it is in the seen-set; a live notification
    for it then only re-arms the idle timer (no detail request, no
    [onEvent]), and a backfill pass skips it.  The seen-set keeps 5000
    identifiers, so this covers a re-observation within 5000 emissions,
    not the whole life of the process. *)
Theorem emitted_identifier_is_deduplicated cfg env l pre e post :
  let w := exec (run cfg env l) initial_world in
  emitted (trace w) = pre ++ e :: post ->
  ~ In (signature e) (map signature pre) ->
  (length post < 5000)%nat ->
  has (signature e) (seen (st w)) = true
  /\ (forall logs er sl,
        let m := on_message cfg (LogsNotification (signature e) logs er sl) in
        outcome m w = Ok tt
        /\ trace (exec m w) = trace w ++ [SetTimer TIdle (noMsgTimeoutMs cfg)]
        /\ jobs (exec m w) = jobs w)
  /\ (forall wl mt i rest,
        si_signature i = signature e ->
        backfill_loop cfg env wl mt (i :: rest) w
        = backfill_loop cfg env wl mt rest w).
Proof.
  intros w Hem Hpre Hpost.
  assert (Hseen : has (signature e) (seen (st w)) = true).
  { rewrite (seen_follows_emitted cfg env l : seen (st w) = _).
    fold w. rewrite Hem, map_app. cbn [map].
    apply replay_keeps_recent; [done | by rewrite length_map]. }
  split; [exact Hseen|]. split.
  - intros logs er sl.
    destruct (seen_notification_dropped cfg _ logs er sl w Hseen)
      as (? & ? & ? & _).
    auto.
  - intros wl mt i rest Hi. cbn [backfill_loop].
    cbv [bind get_st gets]. by rewrite Hi, Hseen.
Qed.

Lemma emitted_identifier_is_deduplicated_witness :
  let w := exec (run default_config env_one [CallStart pair_AM; SockOpen 0])
             initial_world in
  let m := on_message default_config
             (LogsNotification "sigA" ["Program log: Transfer"] None 50) in
  map signature (emitted (trace w)) = ["sigA"]
  /\ outcome m w = Ok tt
  /\ trace (exec m w) = trace w ++ [SetTimer TIdle 60000].
Proof.
  intros w m.
  assert (Hem : emitted (trace w)
                = [] ++ backfill_event (Some wallet_A) (Some mint_M)
                          {| si_signature := "sigA"; si_slot := 50 |} :: [])
    by (vm_compute; reflexivity).
  assert (Hpre : ~ In "sigA" (map signature [])) by (intros []).
  assert (Hpost : (@length Event [] < 5000)%nat) by (simpl; lia).
  destruct (emitted_identifier_is_deduplicated default_config env_one
              [CallStart pair_AM; SockOpen 0] _ _ _ Hem Hpre Hpost)
    as (_ & Hdrop & _).
  destruct (Hdrop ["Program log: Transfer"] None 50) as (Ho & Ht & _).
  split; [|exact (conj Ho Ht)].
  exact (f_equal (map signature) Hem).
Defined.

(** ** A run in which the seen-set forgets *)

Lemma pos_sig_inj p q : pos_sig p = pos_sig q -> p = q.
Proof.
  revert q. induction p as [p IH|p IH|]; intros [q|q|]; simpl; intros H;
    try discriminate; try reflexivity;
    try (injection H as H; f_equal; by apply IH).
  - destruct p; discriminate.
  - destruct q; discriminate.
Qed.

Lemma sig_of_inj a b : sig_of a = sig_of b -> a = b.
Proof. intros H. by apply SuccNat2Pos.inj, pos_sig_inj. Qed.

Lemma long_page_signatures n :
  map si_signature (long_page n) = sig_of 0 :: map sig_of (seq 1 n).
Proof. unfold long_page. rewrite map_map. reflexivity. Qed.

Lemma NoDup_long_page n : NoDup (map si_signature (long_page n)).
Proof.
  unfold long_page. rewrite map_map.
  assert (Hinj : Inj eq eq (fun x => si_signature (item_of x)))
    by (intros a b; apply sig_of_inj).
  apply (NoDup_fmap_2 _), NoDup_seq.
Qed.

Lemma env_long_touching n : always_touching (env_long n) pair_AM.
Proof. intros t s. exists tx_AM. split; reflexivity. Qed.

Lemma default_config_never_fails : never_fails default_config.
Proof. intros f e H. discriminate. Qed.

#[local] Instance pass_frame_preorder : PreOrder pass_frame.
Proof.
  split; unfold pass_frame.
  - intros w. repeat split.
  - intros a b c (?&?&?&?&?&?&?&?&?&?) (?&?&?&?&?&?&?&?&?&?).
    repeat split; congruence.
Qed.

Ltac pass_frame_atom := unfold pass_frame; simpl; repeat split; auto.

Lemma backfill_loop_pass_frame cfg env w m l :
  steps_in pass_frame (backfill_loop cfg env w m l).
Proof.
  induction l as [|i rest IH]; cbn [backfill_loop];
    fold (backfill_loop cfg env); walk pass_frame_atom.
Qed.

Lemma snocs_app t l : snocs t l = t ++ l.
Proof.
  unfold snocs. revert t. induction l as [|e l IH]; intros t; simpl.
  - by rewrite app_nil_r.
  - by rewrite IH, <- app_assoc.
Qed.

(** The rest of the run, from the world the pass left. *)
Lemma reobserved env S D T0 :
  has (sig_of 0) S = false ->
  trace (exec (connect;; run default_config env reobserve_inputs)
           (after_pass S D T0))
  = T0 ++ reobserve_effects.
Proof.
  intros H. rewrite <- snocs_app. unfold has in H.
  vm_compute in H. vm_compute. rewrite H. reflexivity.
Qed.

(** The first [start] on a history of [S n] new transactions that all
    touch the pair: every one is emitted and remembered, in order. *)
Lemma start_on_long_page n :
  exists S D T0,
    run default_config (env_long n) (CallStart pair_AM :: reobserve_inputs)
      initial_world
    = (connect;; run default_config (env_long n) reobserve_inputs)
        (after_pass S D T0)
    /\ S = replay (map si_signature (long_page n)) []
    /\ emitted T0
       = map (backfill_event (Some wallet_A) (Some mint_M)) (long_page n).
Proof.
  assert (Hv : valid_pair pair_AM).
  { exists wallet_A, mint_M. repeat split; reflexivity. }
  cbn [run]. fold (run default_config (env_long n)). cbn [step].
  unfold api, try_catch. unfold bind at 1.
  rewrite (start_valid default_config (env_long n) pair_AM initial_world Hv
             eq_refl).
  unfold bind at 1.
  rewrite (backfillOnce_history_ok default_config (env_long n) wallet_A
             (Some mint_M) _ (after_preflight pair_AM initial_world)
             (long_page n)); [|discriminate|reflexivity].
  unfold try_catch.
  match goal with
  | |- context [backfill_loop ?c ?e ?a ?b ?p ?w1] =>
      destruct (backfill_loop_fresh c e a b p default_config_never_fails w1
                  (NoDup_long_page n)) as (Hok & T & Htr & _ & _ & Hpos);
      [intros i _; reflexivity|];
      destruct (Hpos (env_long_touching n)) as [Hseen Hem];
      change (seen (st w1)) with (@nil string) in Hseen;
      assert (Hem0 : emitted (trace w1) = []) by reflexivity;
      destruct (backfill_loop_pass_frame c e a b p w1)
        as (Hws & Htm & Hb & Hp & Hi & Hr & Hso & Hpo & Hjo & Hfr);
      generalize dependent (trace w1); intros t1 Htr Hem0;
      destruct (backfill_loop c e a b p w1) as [r w2]
  end.
  cbn [fst snd] in *. subst r. clear Hpos.
  destruct w2 as [[sk tm bo pa inf se sr] d so po jo fr tr].
  cbn in Hws, Htm, Hb, Hp, Hi, Hr, Hso, Hpo, Hjo, Hfr, Htr, Hseen.
  subst sk tm bo pa inf sr so po jo fr.
  exists se, d, tr. split; [|split].
  - match goal with
    | |- context [connect ?w3] => change w3 with (after_pass se d tr)
    end.
    unfold bind.
    destruct (connect_total (after_pass se d tr)) as [[] Hc].
    destruct (connect (after_pass se d tr)) as [rc w4].
    cbn [fst] in Hc. subst rc. reflexivity.
  - exact Hseen.
  - rewrite Htr, emitted_app, Hem, Hem0. reflexivity.
Qed.

(** The claim C1 fails on this run.  The backfill of [start] emits 5001
    distinct identifiers, item 0 first; when the last of them is
    remembered the seen-set is over its 5000 and drops item 0.  The live
    path then sees item 0 again, does not find it in the set, and emits it
    a second time for the same pair. *)
Lemma evicted_identifier_is_emitted_again :
  let w := exec (run default_config (env_long 5000)
                   (CallStart pair_AM :: reobserve_inputs)) initial_world in
  emitted (trace w)
  = map (backfill_event (Some wallet_A) (Some mint_M)) (long_page 5000)
    ++ [stream_event_0]
  /\ hd_error (map (backfill_event (Some wallet_A) (Some mint_M))
                 (long_page 5000))
     = Some (backfill_event (Some wallet_A) (Some mint_M) (item_of 0))
  /\ signature (backfill_event (Some wallet_A) (Some mint_M) (item_of 0))
     = signature stream_event_0
  /\ ev_pair (backfill_event (Some wallet_A) (Some mint_M) (item_of 0))
     = ev_pair stream_event_0.
Proof.
  generalize (eq_refl 5000%nat). generalize 5000%nat at 1 3 4 5.
  intros n Hn w. subst w.
  destruct (start_on_long_page n) as (S & D & T0 & Hrun & HS & Hem).
  unfold exec. rewrite Hrun.
  assert (Hgone : has (sig_of 0) S = false).
  { rewrite HS, long_page_signatures. apply replay_evicts.
    - rewrite <- long_page_signatures. apply NoDup_long_page.
    - by rewrite length_map, length_seq. }
  rewrite (reobserved (env_long n) S D T0 Hgone : trace (snd _) = _).
  rewrite emitted_app, Hem. repeat split.
Qed.

(** * Further properties of the client *)

(** ** Facts about the concrete data *)

Lemma valid_pair_AM : valid_pair pair_AM.
Proof. exists wallet_A, mint_M. repeat split; reflexivity. Qed.

Lemma valid_pair_BM : valid_pair pair_BM.
Proof. exists wallet_B, mint_M. repeat split; reflexivity. Qed.

Lemma malformed_pair_bad : malformed pair_bad.
Proof. right; right; left. exists "0OlIwallet". split; reflexivity. Qed.

(** ** The seen-set is a bounded queue *)

Lemma NoDup_remember_set x s : NoDup s -> NoDup (remember_set x s).
Proof.
  intros H. unfold remember_set, add.
  destruct (has x s) eqn:Hx.
  - destruct (5000 <? _); [|done]. destruct s; [done|]. simpl.
    by apply NoDup_cons in H as [_ ?].
  - assert (Hn : NoDup (s ++ [x])).
    { apply NoDup_app. split; [done|]. split; [|apply NoDup_singleton].
      intros y Hy Hin. apply list_elem_of_singleton in Hin. subst y.
      apply has_false in Hx. apply Hx. by apply list_elem_of_In. }
    destruct (5000 <? _); [|done].
    destruct (s ++ [x]); [done|]. simpl. by apply NoDup_cons in Hn as [_ ?].
Qed.

Lemma NoDup_replay l s : NoDup s -> NoDup (replay l s).
Proof.
  revert s. induction l as [|y l IH]; intros s H; [done|].
  rewrite replay_cons. apply IH. by apply NoDup_remember_set.
Qed.

(** X1.  [remember] on a seen-set of at most 5000 signatures leaves at most
    5000, with [sig] among them.  A signature that is already in the set
    is not moved: the set is left as it is, so the age of an entry counts
    from its first insertion.  A new signature goes to the end, and when
    the set is full the oldest entry is dropped to make room. *)
Theorem remember_is_a_bounded_fifo sig w :
  let s := seen (st w) in
  let s' := seen (st (exec (remember sig) w)) in
  (length s <= 5000)%nat ->
  (length s' <= 5000)%nat
  /\ has sig s' = true
  /\ (has sig s = true -> s' = s)
  /\ (has sig s = false -> (length s < 5000)%nat -> s' = s ++ [sig])
  /\ (has sig s = false -> length s = 5000%nat -> s' = tl s ++ [sig]).
Proof.
  intros s s' Hlen. subst s'. cbn. fold s.
  split; [by apply length_remember_set|].
  unfold remember_set, add.
  destruct (has sig s) eqn:Hs.
  - destruct (Z.ltb_spec 5000 (Z.of_nat (length s))); [lia|].
    repeat split; trivial; discriminate.
  - rewrite length_app. simpl.
    destruct (Z.ltb_spec 5000 (Z.of_nat (length s + 1))) as [H|H].
    + assert (Hl : length s = 5000%nat) by lia.
      destruct s as [|z s0]; [simpl in *; lia|]. simpl in *.
      split; [apply has_In, in_or_app; right; by left|].
      split; [discriminate|]. split; [intros; lia | done].
    + split; [apply has_In, in_or_app; right; by left|].
      split; [discriminate|]. split; [done | intros; lia].
Qed.

Lemma remember_is_a_bounded_fifo_witness :
  seen (st (exec (remember "sigA") initial_world)) = ["sigA"].
Proof.
  assert (H : (length (seen (st initial_world)) <= 5000)%nat) by (simpl; lia).
  destruct (remember_is_a_bounded_fifo "sigA" initial_world H)
    as (_ & _ & _ & Hnew & _).
  apply Hnew; [reflexivity | simpl; lia].
Defined.

(** X2.  After every run of the event loop from the initial state the
    seen-set holds at most 5000 signatures and no signature twice. *)
Theorem seen_set_stays_bounded cfg env l :
  let s := seen (st (exec (run cfg env l) initial_world)) in
  (length s <= 5000)%nat /\ NoDup s.
Proof.
  intros s. subst s. rewrite (seen_follows_emitted cfg env l). split.
  - apply length_replay. simpl. lia.
  - apply NoDup_replay. constructor.
Qed.

(** ** The subscription, the log filter, the state files, [stop] *)

Lemma or_default_empty o : or_default o "" = default "" o.
Proof.
  destruct o as [s|]; simpl; [|done].
  by destruct (String.eqb_spec s "") as [->|].
Qed.

Lemma truthy_spec o : truthy o = true <-> exists s, o = Some s /\ s <> "".
Proof.
  destruct o as [s|]; simpl.
  - destruct (String.eqb_spec s ""); simpl; split; try discriminate; eauto.
    intros (s' & [= <-] & H). done.
  - split; [discriminate | intros (s & ? & _); discriminate].
Qed.

(** X3.  The [mentions] of the subscription [buildSub] builds are
    exactly the non-empty ones among the wallet and the mint of the pair,
    each listed once: a pair whose mint equals its wallet is mentioned
    once. *)
Theorem buildSub_mentions_each_address_once p :
  NoDup (buildSub p)
  /\ forall x, In x (buildSub p)
               <-> x <> "" /\ (wallet p = Some x \/ mint p = Some x).
Proof.
  destruct p as [w m]. unfold buildSub. cbn [wallet mint].
  rewrite !or_default_empty.
  destruct (truthy w) eqn:Hw, (truthy m) eqn:Hm; cbn [andb];
    try apply truthy_spec in Hw as (a & -> & Ha);
    try apply truthy_spec in Hm as (b & -> & Hb);
    try case_bool_decide as Hd; cbn [negb app default In]; unfold id.
  all: split;
    [ first [ apply NoDup_nil_2 | apply NoDup_singleton
            | apply NoDup_cons_2;
              [rewrite list_elem_of_singleton; congruence
              |apply NoDup_singleton] ] | ].
  all: intros x; split.
  all: try (intros [<-|H]; [|try destruct H as [<-|[]]]; try done; auto; fail).
  all: try (intros [Hx [H|H]]; subst; simplify_eq; simpl in *;
            try (rewrite (proj2 (String.eqb_neq _ _) Hx) in *; discriminate);
            auto; fail).
  all: intros [].
Qed.

(** X4.  Whatever the filter mode, a batch of log lines is important
    exactly when one of its lines is important on its own; the empty batch
    never is.  (The keyword expression and the predicate are tests without
    state: an expression with the [g] or [y] flag is not covered.) *)
Theorem isImportantLog_is_per_line cfg logs :
  isImportantLog cfg logs = existsb (fun l => isImportantLog cfg [l]) logs.
Proof.
  unfold isImportantLog.
  destruct (String.eqb (filterMode cfg) "keywords").
  - destruct logs as [|l logs]; [done|].
    induction (l :: logs) as [|x r IH]; simpl; [done|].
    by rewrite orb_false_r, IH.
  - destruct (logPredicate cfg) as [p|].
    + destruct logs as [|l logs]; [done|].
      induction (l :: logs) as [|x r IH]; simpl; [done|].
      by rewrite orb_false_r, IH.
    + destruct logs; reflexivity.
Qed.

(** X5.  [loadState] right after [saveState] for the same pair returns
    the cursor that was saved when persistence is on, and the default
    cursor when it is off; and a [saveState] does not change what
    [loadState] returns for a pair with another state file.  (The write
    itself is taken to succeed; the source swallows its failure.) *)
Theorem saveState_then_loadState cfg w m c w0 :
  outcome (saveState cfg w m c;; loadState cfg w m) w0
  = Ok (if persist cfg then c else default_cursor)
  /\ forall w' m',
       stateFile cfg w' m' <> stateFile cfg w m ->
       outcome (saveState cfg w m c;; loadState cfg w' m') w0
       = outcome (loadState cfg w' m') w0.
Proof.
  unfold outcome, saveState, loadState.
  destruct (persist cfg); cbn [negb]; cbv [bind ret gets emit modify]; simpl.
  - rewrite lookup_insert_eq. split; [done|].
    intros w' m' Hne. by rewrite lookup_insert_ne.
  - auto.
Qed.

Lemma stop_when_stopped w :
  shouldRun (st w) = false -> ws (st w) = None -> timers (st w) = no_timers ->
  stop w = (Ok tt, w).
Proof.
  destruct w as [[sk tm b pa n se sr] d so po jo fr tr]; simpl.
  intros -> -> ->. reflexivity.
Qed.

Lemma stop_frame w :
  let w' := exec stop w in
  pair (st w') = pair (st w)
  /\ seen (st w') = seen (st w)
  /\ inflightDetails (st w') = inflightDetails (st w)
  /\ backoffMs (st w') = backoffMs (st w)
  /\ jobs w' = jobs w
  /\ disk w' = disk w.
Proof.
  unfold exec, stop, clearAllTimers, clear_key.
  cbv [bind get_st gets modify_st modify modify_timers clearTimer ret
       terminate emit].
  destruct w as [[sk [p l i pr] b pa n se sr] d so po jo fr tr]; simpl.
  destruct p, l, i, pr, sk; simpl; repeat split; reflexivity.
Qed.

(** X6.  [stop] is idempotent: on the state it leaves, a second [stop]
    returns normally and changes nothing.  And [stop] leaves the pair, the
    seen-set, the in-flight counter, the backoff, the pending detail
    fetches and the state files as they are. *)
Theorem stop_twice_is_stop w :
  let w' := exec stop w in
  stop w' = (Ok tt, w')
  /\ pair (st w') = pair (st w)
  /\ seen (st w') = seen (st w)
  /\ inflightDetails (st w') = inflightDetails (st w)
  /\ backoffMs (st w') = backoffMs (st w)
  /\ jobs w' = jobs w
  /\ disk w' = disk w.
Proof.
  intros w'. split; [|apply stop_frame].
  destruct (stop_state w) as (Hrun & Hws & Htm).
  by apply stop_when_stopped.
Qed.

(** ** The pair of a running client *)

#[local] Instance running_rel_preorder : PreOrder running_rel.
Proof. split; unfold running_rel; [intros w; auto | intros a b c; auto]. Qed.

Ltac running_atom := unfold running_rel, running_inv; simpl; auto.

Lemma keeps_running_rel {A} (m : M A) :
  steps_in keeps_running m -> steps_in running_rel m.
Proof.
  intros H w Hinv Hrun. destruct (H w) as [Hr Hp].
  rewrite Hp. apply Hinv. by rewrite <- Hr.
Qed.

Lemma connect_keeps_running' : steps_in keeps_running connect.
Proof. walk keeps_running_atom. Qed.

(** On a valid pair whose preflight fails, [start] rejects. *)
Lemma start_probe_failed cfg env p w :
  valid_pair p ->
  failed (env (length (trace w)) getLatestBlockhash) = true ->
  exists e, fst (start cfg env p w) = Throw e.
Proof.
  intros (wl & mt & Hw & Hm & Hbw & Hbm) Hprobe.
  unfold start. destruct p as [pw pm]; simpl in *. subst pw pm.
  simpl. rewrite (base58_nonempty _ Hbw), (base58_nonempty _ Hbm), Hbw, Hbm.
  simpl. unfold rpc_send.
  cbv [try_catch bind gets emit modify ret onLog modify_st throw]. simpl.
  destruct (env (length (trace w)) getLatestBlockhash); try discriminate;
    simpl; eauto.
Qed.

(** A pair that passes the checks of [start]. *)
Lemma start_checks_valid p :
  negb (truthy (wallet p)) || negb (truthy (mint p)) = false ->
  negb (base58_test (or_default (wallet p) "")) = false ->
  negb (base58_test (or_default (mint p) "")) = false ->
  valid_pair p.
Proof.
  intros H1 H2 H3. apply orb_false_iff in H1 as [Hw Hm].
  apply negb_false_iff in Hw, Hm, H2, H3.
  destruct p as [[pw|] [pm|]]; try discriminate. simpl in *.
  destruct (String.eqb pw ""); [discriminate|].
  destruct (String.eqb pm ""); [discriminate|].
  exists pw, pm. auto.
Qed.

(** [start] either rejects and leaves the state as it is, or has stored a
    pair that passed its checks. *)
Lemma start_running cfg env p : steps_in running_rel (start cfg env p).
Proof.
  intros w Hinv.
  destruct (fst (start cfg env p w)) as [[]|e] eqn:Hres.
  - (* returned *)
    assert (Hv : valid_pair p).
    { unfold start in Hres.
      destruct (negb (truthy (wallet p)) || negb (truthy (mint p))) eqn:H1;
        [discriminate|].
      destruct (negb (base58_test (or_default (wallet p) ""))) eqn:H2;
        [discriminate|].
      destruct (negb (base58_test (or_default (mint p) ""))) eqn:H3;
        [discriminate|].
      by apply start_checks_valid. }
    destruct (failed (env (length (trace w)) getLatestBlockhash)) eqn:Hf.
    { destruct (start_probe_failed cfg env p w Hv Hf) as [e He]. congruence. }
    rewrite (start_valid cfg env p w Hv Hf). intros _.
    assert (Hk : steps_in keeps_running
              (backfillOnce cfg env (wallet p) (mint p)
                 (lastSlot (loaded_cursor cfg p w));; connect)).
    { apply steps_in_bind;
        [tc_solve | apply backfillOnce_keeps_running | intros _].
      apply connect_keeps_running'. }
    destruct (Hk (after_preflight p w)) as [_ Hp].
    rewrite Hp. exact Hv.
  - (* rejected *)
    destruct (start_throws_only_trace cfg env p w e Hres) as (Hst & _).
    unfold running_inv. by rewrite Hst.
Qed.

Lemma stop_running : steps_in running_rel stop.
Proof.
  intros w _ Hrun. destruct (stop_state w) as (Hr & _).
  unfold exec in Hr. congruence.
Qed.

#[local] Hint Resolve start_running stop_running : steps.

Lemma backfill_loop_running cfg env w m l :
  steps_in running_rel (backfill_loop cfg env w m l).
Proof. apply keeps_running_rel, backfill_loop_keeps_running. Qed.

#[local] Hint Resolve backfill_loop_running : steps.

Lemma step_running cfg env i : steps_in running_rel (step cfg env i).
Proof. destruct i; walk running_atom. Qed.

Lemma run_running cfg env l : steps_in running_rel (run cfg env l).
Proof.
  induction l as [|i rest IH]; cbn [run]; fold (run cfg env).
  - walk running_atom.
  - apply steps_in_bind; [tc_solve | apply step_running | auto].
Qed.

Lemma valid_pair_truthy p :
  valid_pair p -> truthy (wallet p) = true /\ truthy (mint p) = true.
Proof.
  intros (wl & mt & -> & -> & Hbw & Hbm). simpl.
  by rewrite (base58_nonempty _ Hbw), (base58_nonempty _ Hbm).
Qed.

Lemma reachable_running cfg env l :
  running_inv (exec (run cfg env l) initial_world).
Proof. apply (run_running cfg env l initial_world). discriminate. Qed.

(** X7.  After every run from the initial state, a client whose
    should-run flag is set holds a pair that passed the checks of [start]:
    both fields present and base58.  So the second guard of [connect]
    never holds back a connection: [connect] returns normally having
    opened a new socket, which [ws] then holds. *)
Theorem running_client_holds_a_valid_pair cfg env l :
  let w := exec (run cfg env l) initial_world in
  shouldRun (st w) = true ->
  valid_pair (pair (st w))
  /\ outcome connect w = Ok tt
  /\ ws (st (exec connect w)) = Some (fresh w)
  /\ trace (exec connect w) = trace w ++ [WsNew (fresh w)].
Proof.
  intros w Hrun.
  pose proof (reachable_running cfg env l Hrun) as Hv. fold w in Hv.
  split; [exact Hv|].
  destruct (valid_pair_truthy _ Hv) as [Hw Hm].
  destruct (connect_opens w Hrun Hw Hm) as (Ho & Hws & Htr & _). auto.
Qed.

Lemma running_client_holds_a_valid_pair_witness :
  let w := exec (run default_config env_quiet [CallStart pair_AM])
             initial_world in
  valid_pair (pair (st w)) /\ outcome connect w = Ok tt.
Proof.
  intros w.
  assert (Hrun : shouldRun (st w) = true) by (vm_compute; reflexivity).
  destruct (running_client_holds_a_valid_pair default_config env_quiet
              [CallStart pair_AM] Hrun) as (Hv & Ho & _).
  exact (conj Hv Ho).
Defined.

(** The event the live path builds for a pending fetch. *)
Lemma detail_k_delivers cfg job tx w :
  touches (pair (st w)) tx = true -> never_fails cfg ->
  let w' := snd (detail_k cfg job (Result (JTx tx)) w) in
  emitted (trace w')
  = emitted (trace w)
    ++ [{| source := stream; ev_pair := pair (st w); slot := j_slot job;
           signature := j_signature job;
           err := if truthy (j_err job) then j_err job else None;
           log := hd "" (j_logs job) |}]
  /\ shouldRun (st w') = shouldRun (st w).
Proof.
  intros Ht Hs.
  unfold detail_k, txHasWalletMintPair_k, rpc_recv, run_saveEvent, remember,
    loadState, saveState.
  cbv [try_catch bind get_st gets emit modify modify_st ret onLog throw].
  cbn [fst snd negb]. cbn [st with_st set_inflightDetails pair].
  rewrite Ht. cbn [negb fst snd].
  destruct (pair (st w)) as [pw pm] eqn:Hp. cbn [wallet mint].
  destruct (saveEvent cfg) as [f|] eqn:Hf.
  - rewrite (Hs f _ Hf). cbn [fst snd].
    destruct (persist cfg); cbn [negb fst snd]; cbn -[emitted];
      rewrite ?emitted_app; simpl; rewrite ?app_nil_r, ?Hp; auto.
  - cbn [fst snd].
    destruct (persist cfg); cbn [negb fst snd]; cbn -[emitted];
      rewrite ?emitted_app; simpl; rewrite ?app_nil_r, ?Hp; auto.
Qed.

(** X8.  [stop] does not cancel a detail fetch that is in flight: when
    its reply arrives after [stop] and the transaction touches the pair,
    the event is delivered although the should-run flag is false (with a
    [saveEvent] that does not fail). *)
Theorem reply_after_stop_is_still_delivered cfg env w j id job tx :
  List.find (job_is j) (jobs w) = Some (id, job) ->
  touches (pair (st w)) tx = true ->
  never_fails cfg ->
  let w1 := exec stop w in
  let w2 := exec (step cfg env (DetailReply j (Result (JTx tx)))) w1 in
  shouldRun (st w1) = false
  /\ shouldRun (st w2) = false
  /\ emitted (trace w2)
     = emitted (trace w1)
       ++ [{| source := stream; ev_pair := pair (st w); slot := j_slot job;
              signature := j_signature job;
              err := if truthy (j_err job) then j_err job else None;
              log := hd "" (j_logs job) |}].
Proof.
  intros Hfind Ht Hs w1 w2.
  destruct (stop_state w) as (Hrun & _).
  destruct (stop_frame w) as (Hp & _ & _ & _ & Hj & _).
  fold w1 in Hrun, Hp, Hj.
  split; [exact Hrun|].
  subst w2. unfold exec. cbn [step]. cbv [bind gets]. rewrite Hj, Hfind.
  cbv [modify]. cbn [fst snd].
  match goal with
  | |- context [detail_k cfg job _ ?w3] =>
      destruct (detail_k_delivers cfg job tx w3) as [He Hr];
      [simpl; by rewrite Hp | exact Hs |]
  end.
  split; [by rewrite Hr|]. rewrite He. simpl. by rewrite Hp.
Qed.

Lemma reply_after_stop_is_still_delivered_witness :
  let w := exec (run default_config env_quiet
                   [CallStart pair_AM; SockOpen 0;
                    SockMessage 0
                      (LogsNotification "sig1" ["Program log: Transfer"]
                         None 10)]) initial_world in
  let w1 := exec stop w in
  let w2 := exec (step default_config env_quiet
                    (DetailReply 4 (Result (JTx tx_AM)))) w1 in
  shouldRun (st w1) = false
  /\ shouldRun (st w2) = false
  /\ emitted (trace w2)
     = emitted (trace w1)
       ++ [{| source := stream; ev_pair := pair (st w); slot := 10;
              signature := "sig1"; err := None;
              log := "Program log: Transfer" |}].
Proof.
  intros w.
  assert (Hj : List.find (job_is 4) (jobs w)
               = Some (4%nat,
                       {| j_signature := "sig1";
                          j_logs := ["Program log: Transfer"];
                          j_err := None; j_slot := 10 |}))
    by (vm_compute; reflexivity).
  assert (Ht : touches (pair (st w)) tx_AM = true) by (vm_compute; reflexivity).
  exact (reply_after_stop_is_still_delivered default_config env_quiet w 4
           4%nat _ tx_AM Hj Ht default_config_never_fails).
Defined.

(** ** The timers that are armed *)

#[local] Instance timers_rel_preorder : PreOrder timers_rel.
Proof. split; unfold timers_rel; [intros w; auto | intros a b c; auto]. Qed.

Lemma timers_ok_clear p fr t h :
  timers_ok p fr t ->
  timers_ok (List.filter (fun x => negb (handle_is h x)) p) fr t.
Proof.
  intros (H1 & H2 & H3). repeat split.
  - rewrite List.Forall_forall in *. intros x Hx. apply filter_In in Hx. apply H1. tauto.
  - clear -H2. induction p as [|x p IH]; simpl; [constructor|].
    simpl in H2. apply NoDup_cons in H2 as [Hx Hp].
    destruct (negb (handle_is h x)); simpl; auto.
    apply NoDup_cons. split; auto.
    intros Hin. apply Hx.
    apply list_elem_of_fmap in Hin as (y & -> & Hy).
    apply list_elem_of_fmap. exists y. split; [done|].
    apply list_elem_of_In. apply list_elem_of_In in Hy.
    apply filter_In in Hy. tauto.
  - rewrite List.Forall_forall in *. intros x Hx. apply filter_In in Hx. apply H3. tauto.
Qed.

Lemma timers_ok_fresh p fr t : timers_ok p fr t -> timers_ok p (S fr) t.
Proof.
  intros (H1 & H2 & H3). repeat split; trivial.
  eapply List.Forall_impl; [|exact H1]. simpl. intros. lia.
Qed.

(** No timer of kind [k] is armed once the handle in its member of
    [timers] has been cleared. *)
Lemma cleared_kind k p fr t x :
  timers_ok p fr t -> k <> TProbe ->
  In x (match timer_slot k t with
        | Some h => List.filter (fun y => negb (handle_is h y)) p
        | None => p
        end) ->
  timer_kind x <> k.
Proof.
  intros (_ & _ & H3) Hk Hx Hkind.
  rewrite List.Forall_forall in H3.
  destruct (timer_slot k t) as [h|] eqn:Hs.
  - apply filter_In in Hx as [Hx Hh]. specialize (H3 x Hx).
    rewrite Hkind in H3. destruct H3 as [?|H3]; [done|].
    rewrite Hs in H3. injection H3 as ->.
    unfold handle_is, timer_handle in Hh. rewrite Nat.eqb_refl in Hh. done.
  - specialize (H3 x Hx). rewrite Hkind, Hs in H3. by destruct H3.
Qed.

Lemma slot_set_other k k' v t :
  k' <> k -> timer_slot k' (set_slot k v t) = timer_slot k' t.
Proof. destruct k, k'; simpl; congruence. Qed.

Lemma slot_set_same k v t : timer_slot k (set_slot k v t) = v.
Proof. by destruct k. Qed.

(** Changing the member of a kind of which no timer is armed. *)
Lemma timers_ok_set k v p fr t :
  timers_ok p fr t ->
  (k = TProbe \/ forall x, In x p -> timer_kind x <> k) ->
  timers_ok p fr (set_slot k v t).
Proof.
  intros (H1 & H2 & H3) Hk. repeat split; trivial.
  rewrite List.Forall_forall in *. intros x Hx.
  destruct (H3 x Hx) as [?|Hs]; [by left|].
  destruct (decide (timer_kind x = TProbe)) as [?|Hp]; [by left|]. right.
  rewrite slot_set_other; [done|].
  destruct Hk as [->|Hk]; [done | by apply Hk].
Qed.

(** Arming a timer of a kind of which none is armed, and storing its
    handle. *)
Lemma timers_ok_arm k d p fr t :
  timers_ok p fr t ->
  (k = TProbe \/ forall x, In x p -> timer_kind x <> k) ->
  timers_ok (p ++ [(fr, k, d)]) (S fr) (set_slot k (Some fr) t).
Proof.
  intros H Hk.
  destruct (timers_ok_set k (Some fr) p fr t H Hk) as (H1 & H2 & H3).
  repeat split.
  - apply Forall_app. split.
    + eapply List.Forall_impl; [|exact H1]. simpl. intros. lia.
    + constructor; [|constructor]. unfold timer_handle. simpl. lia.
  - rewrite map_app. simpl. apply NoDup_app. split; [done|].
    split; [|apply NoDup_singleton].
    intros h Hh Hin. apply list_elem_of_singleton in Hin. subst h.
    apply list_elem_of_fmap in Hh as (y & Hy & Hin).
    rewrite List.Forall_forall in H1. apply list_elem_of_In in Hin.
    specialize (H1 y Hin). unfold timer_handle in *. simpl in *. lia.
  - apply Forall_app. split; [done|].
    constructor; [|constructor]. right. unfold timer_kind, timer_handle.
    simpl. apply slot_set_same.
Qed.

Lemma no_kind_armed k p fr t :
  timers_ok p fr t ->
  k = TProbe
  \/ forall x,
       In x (match timer_slot k t with
             | Some h => List.filter (fun y => negb (handle_is h y)) p
             | None => p
             end) -> timer_kind x <> k.
Proof.
  intros H. destruct (decide (k = TProbe)) as [->|Hk]; [by left|].
  right. intros x Hx. by eapply cleared_kind.
Qed.

Lemma clear_key_timers k :
  steps_in timers_rel (clear_key (timer_slot k) (set_slot k)).
Proof.
  intros w Hinv. unfold clear_key, timers_inv in *.
  cbv [bind get_st gets clearTimer modify modify_timers modify_st].
  pose proof (no_kind_armed k _ _ _ Hinv) as Hk.
  destruct (timer_slot k (timers (st w))) as [h|]; simpl; [|done].
  apply timers_ok_set; [by apply timers_ok_clear | exact Hk].
Qed.

Lemma clearAllTimers_timers : steps_in timers_rel clearAllTimers.
Proof.
  unfold clearAllTimers.
  repeat (apply steps_in_bind; [tc_solve | | intros _]).
  - apply (clear_key_timers TPing).
  - apply (clear_key_timers TLiveness).
  - apply (clear_key_timers TIdle).
  - apply (clear_key_timers TProbe).
Qed.

(** Clearing the handle a member holds and arming a new timer of its kind,
    as [startHeartbeat], [armIdleRecycle] and the heartbeat callback do. *)
Lemma timers_ok_rearm k d p fr t :
  timers_ok p fr t ->
  timers_ok
    (match timer_slot k t with
     | Some h => List.filter (fun y => negb (handle_is h y)) p
     | None => p
     end ++ [(fr, k, d)]) (S fr) (set_slot k (Some fr) t).
Proof.
  intros H. pose proof (no_kind_armed k _ _ _ H) as Hk.
  apply timers_ok_arm; [|exact Hk].
  destruct (timer_slot k t); [by apply timers_ok_clear | done].
Qed.

Lemma armIdleRecycle_timers cfg : steps_in timers_rel (armIdleRecycle cfg).
Proof.
  intros w Hinv. unfold armIdleRecycle, timers_inv in *.
  cbv [bind get_st gets clear_handle clearTimer setTimer modify modify_timers
       modify_st ret].
  pose proof (timers_ok_rearm TIdle (noMsgTimeoutMs cfg) _ _ _ Hinv) as H.
  simpl in H. destruct (idle (timers (st w))); simpl; exact H.
Qed.

Lemma ping_callback_timers cfg : steps_in timers_rel (ping_callback cfg).
Proof.
  intros w Hinv. unfold ping_callback, timers_inv in *.
  cbv [bind get_st gets clear_handle clearTimer setTimer modify modify_timers
       modify_st ret emit].
  pose proof (timers_ok_rearm TLiveness (pongTimeoutMs cfg) _ _ _ Hinv) as H.
  simpl in H.
  destruct (ws (st w)) as [h|]; simpl; [|done].
  destruct (is_open h w); simpl; [|done].
  destruct (liveness (timers (st w))); simpl; exact H.
Qed.

Lemma scheduleReconnect_timers cfg tag :
  steps_in timers_rel (scheduleReconnect cfg tag).
Proof.
  intros w Hinv. unfold scheduleReconnect, timers_inv in *.
  cbv [bind get_st gets setTimer modify modify_timers modify_st ret onLog emit].
  destruct (shouldRun (st w)); simpl; [|done].
  apply (timers_ok_arm TProbe); [done | by left].
Qed.

Lemma startHeartbeat_timers cfg : steps_in timers_rel (startHeartbeat cfg).
Proof.
  intros w Hinv. unfold startHeartbeat, timers_inv in *.
  cbv [bind get_st gets clear_handle clearTimer setTimer modify modify_timers
       modify_st ret attach_pong throw].
  assert (H : timers_ok
            (match liveness (timers (st w)) with
             | Some h => List.filter (fun y => negb (handle_is h y))
                           (match ping (timers (st w)) with
                            | Some h0 => List.filter (fun y => negb (handle_is h0 y)) (pool w)
                            | None => pool w
                            end)
             | None => match ping (timers (st w)) with
                       | Some h0 => List.filter (fun y => negb (handle_is h0 y)) (pool w)
                       | None => pool w
                       end
             end ++ [(fresh w, TPing, pingIntervalMs cfg)])
            (S (fresh w)) (set_ping (Some (fresh w)) (timers (st w)))).
  { apply (timers_ok_arm TPing).
    - destruct (liveness _); [apply timers_ok_clear|];
        (destruct (ping _); [by apply timers_ok_clear | done]).
    - right. intros x Hx.
      apply (cleared_kind TPing (pool w) (fresh w) (timers (st w)));
        [done | done |]. simpl.
      destruct (liveness _); [apply filter_In in Hx as [Hx _]|]; exact Hx. }
  destruct (ping (timers (st w))), (liveness (timers (st w))), (ws (st w));
    simpl; exact H.
Qed.

#[local] Hint Resolve clearAllTimers_timers armIdleRecycle_timers
  ping_callback_timers scheduleReconnect_timers startHeartbeat_timers : steps.

Ltac timers_atom :=
  unfold timers_rel, timers_inv; simpl; intros;
  first [ assumption | by apply timers_ok_fresh | by apply timers_ok_clear ].

Lemma backfill_loop_timers cfg env w m l :
  steps_in timers_rel (backfill_loop cfg env w m l).
Proof.
  induction l as [|i rest IH]; cbn [backfill_loop];
    fold (backfill_loop cfg env); walk timers_atom.
Qed.

#[local] Hint Resolve backfill_loop_timers : steps.

Lemma step_timers cfg env i : steps_in timers_rel (step cfg env i).
Proof. destruct i; walk timers_atom. Qed.

Lemma run_timers cfg env l : steps_in timers_rel (run cfg env l).
Proof.
  induction l as [|i rest IH]; cbn [run]; fold (run cfg env).
  - walk timers_atom.
  - apply steps_in_bind; [tc_solve | apply step_timers | auto].
Qed.

Lemma timers_inv_initial : timers_inv initial_world.
Proof. repeat split; constructor. Qed.

Lemma reachable_timers cfg env l :
  timers_inv (exec (run cfg env l) initial_world).
Proof. apply (run_timers cfg env l initial_world), timers_inv_initial. Qed.

Lemma one_handle {A} (f : A -> nat) (h : nat) (l : list A) :
  NoDup (map f l) -> Forall (fun x => f x = h) l -> (length l <= 1)%nat.
Proof.
  intros Hnd Hall. destruct l as [|a [|b l]]; simpl; try lia.
  apply Forall_cons in Hall as [Ha Hall].
  apply Forall_cons in Hall as [Hb _].
  simpl in Hnd. apply NoDup_cons in Hnd as [Hn _].
  exfalso. apply Hn. rewrite Ha, Hb. by left.
Qed.

Lemma NoDup_map_filter {A} (f : A -> nat) (g : A -> bool) l :
  NoDup (map f l) -> NoDup (map f (List.filter g l)).
Proof.
  induction l as [|x l IH]; simpl; [constructor|].
  intros Hnd. apply NoDup_cons in Hnd as [Hx Hl].
  destruct (g x); simpl; auto.
  apply NoDup_cons. split; auto.
  intros Hin. apply Hx.
  apply list_elem_of_fmap in Hin as (y & -> & Hy).
  apply list_elem_of_fmap. exists y. split; [done|].
  apply list_elem_of_In. apply list_elem_of_In in Hy.
  apply filter_In in Hy. tauto.
Qed.

Lemma armed_is_the_one_named cfg env l k :
  k <> TProbe ->
  let w := exec (run cfg env l) initial_world in
  (length (armed k w) <= 1)%nat
  /\ forall x, In x (armed k w) ->
       timer_slot k (timers (st w)) = Some (timer_handle x).
Proof.
  intros Hk w. destruct (reachable_timers cfg env l) as (_ & Hnd & Hslot).
  fold w in Hnd, Hslot.
  assert (Hall : forall x, In x (armed k w) ->
            timer_slot k (timers (st w)) = Some (timer_handle x)).
  { intros x Hx. apply filter_In in Hx as [Hx Hkind].
    rewrite List.Forall_forall in Hslot. specialize (Hslot x Hx).
    destruct (timer_kind x), k; try discriminate; try done;
      destruct Hslot; done. }
  split; [|exact Hall].
  destruct (timer_slot k (timers (st w))) as [h|] eqn:Hs.
  - apply (one_handle timer_handle h).
    + by apply NoDup_map_filter.
    + apply List.Forall_forall. intros x Hx. specialize (Hall x Hx). congruence.
  - destruct (armed k w) as [|x r]; simpl; [lia|].
    specialize (Hall x (or_introl eq_refl)). discriminate.
Qed.

(** X9.  After every run from the initial state at most one heartbeat
    interval, at most one liveness timeout and at most one idle timeout is
    armed, and an armed one is the timer whose handle [timers] holds. *)
Theorem one_timer_of_each_kind cfg env l :
  let w := exec (run cfg env l) initial_world in
  Forall (fun k =>
            (length (armed k w) <= 1)%nat
            /\ forall x, In x (armed k w) ->
                 timer_slot k (timers (st w)) = Some (timer_handle x))
    [TPing; TLiveness; TIdle].
Proof.
  intros w.
  repeat (apply Forall_cons; split;
          [apply (armed_is_the_one_named cfg env l); discriminate|]).
  apply Forall_nil_2.
Qed.

(** ** The sockets that are listened to *)

#[local] Instance socks_rel_preorder : PreOrder socks_rel.
Proof. split; unfold socks_rel; [intros w; auto | intros a b c; auto]. Qed.

(** A change to one socket that does not make it live. *)
Lemma socks_ok_alter f h so cur :
  (forall s, live (f s) = true -> live s = true) ->
  socks_ok so cur -> socks_ok (alter f h so) cur.
Proof.
  intros Hf H h' s' Hs Hl.
  destruct (decide (h' = h)) as [->|Hne].
  - rewrite lookup_alter_eq in Hs.
    destruct (so !! h) as [s|] eqn:E; [|discriminate].
    injection Hs as <-. eauto.
  - rewrite lookup_alter_ne in Hs by done. eauto.
Qed.

Ltac socks_atom :=
  unfold socks_rel, socks_inv; simpl; intros;
  first [ assumption
        | apply socks_ok_alter; [by intros [[] [] []] | assumption] ].

Lemma no_live_alter f h so :
  (forall s, live (f s) = true -> live s = true) ->
  no_live so -> no_live (alter f h so).
Proof.
  intros Hf H h' s' Hs.
  destruct (decide (h' = h)) as [->|Hne].
  - rewrite lookup_alter_eq in Hs.
    destruct (so !! h) as [s|] eqn:E; [|discriminate].
    injection Hs as <-. specialize (H h s E).
    destruct (live (f s)) eqn:El; [|done]. apply Hf in El. congruence.
  - rewrite lookup_alter_ne in Hs by done. eauto.
Qed.

(** The socket [ws] holds having lost its listeners or its connection,
    none is live. *)
Lemma no_live_after f so cur :
  (forall s, live (f s) = false) ->
  socks_ok so cur ->
  no_live (match cur with Some h0 => alter f h0 so | None => so end).
Proof.
  intros Hf H h s Hs. destruct (live s) eqn:Hl; [|done]. exfalso.
  destruct cur as [h0|].
  - destruct (decide (h = h0)) as [->|Hne].
    + rewrite lookup_alter_eq in Hs.
      destruct (so !! h0) as [s0|]; [|discriminate].
      injection Hs as <-. rewrite Hf in Hl. done.
    + rewrite lookup_alter_ne in Hs by done.
      specialize (H h s Hs Hl). congruence.
  - specialize (H h s Hs Hl). discriminate.
Qed.

Lemma socks_ok_no_live so : no_live so -> socks_ok so None.
Proof. intros H h s Hs Hl. rewrite (H h s Hs) in Hl. done. Qed.

Lemma socks_ok_new so fr :
  no_live so ->
  socks_ok
    (alter (fun s => {| readyState := readyState s; listeners := true;
                        pong_listener := pong_listener s |}) fr
       (<[fr := {| readyState := CONNECTING; listeners := false;
                   pong_listener := false |}]> so))
    (Some fr).
Proof.
  intros H h s Hs Hl.
  destruct (decide (h = fr)) as [->|Hne]; [done|].
  rewrite lookup_alter_ne, lookup_insert_ne in Hs by done.
  rewrite (H h s Hs) in Hl. done.
Qed.

Lemma connect_socks : steps_in socks_rel connect.
Proof.
  intros w Hinv. unfold connect.
  cbv [bind get_st gets]. destruct (negb (shouldRun (st w))); [exact Hinv|].
  destruct (negb (truthy (wallet (pair (st w))))
            || negb (truthy (mint (pair (st w))))); [exact Hinv|].
  unfold clearAllTimers, clear_key.
  cbv [bind get_st gets modify_st modify modify_timers clearTimer ret
       removeAllListeners new_WebSocket attach_listeners].
  pose proof (no_live_after
                (fun s => {| readyState := readyState s; listeners := false;
                             pong_listener := false |})
                _ _ (fun _ => eq_refl) Hinv) as Hn.
  apply (socks_ok_new _ (fresh w)) in Hn. revert Hn.
  unfold socks_inv.
  destruct w as [[sk [p l i pr] b pa n se sr] d so po jo fr tr]; simpl.
  destruct sk, p, l, i, pr; simpl; auto.
Qed.

Lemma stop_socks : steps_in socks_rel stop.
Proof.
  intros w Hinv. unfold stop, clearAllTimers, clear_key.
  cbv [bind get_st gets modify_st modify modify_timers clearTimer ret
       terminate emit].
  pose proof (no_live_after
                (fun s => match readyState s with
                          | CLOSED => s
                          | _ => set_readyState CLOSING s
                          end)
                _ _ (fun s => ltac:(by destruct s as [[] [] []])) Hinv) as Hn.
  apply socks_ok_no_live in Hn. revert Hn. unfold socks_inv.
  destruct w as [[sk [p l i pr] b pa n se sr] d so po jo fr tr]; simpl.
  destruct sk, p, l, i, pr; simpl; auto.
Qed.

#[local] Hint Resolve connect_socks stop_socks : steps.

Lemma backfill_loop_socks cfg env w m l :
  steps_in socks_rel (backfill_loop cfg env w m l).
Proof.
  induction l as [|i rest IH]; cbn [backfill_loop];
    fold (backfill_loop cfg env); walk socks_atom.
Qed.

#[local] Hint Resolve backfill_loop_socks : steps.

Lemma on_open_socks cfg : steps_in socks_rel (on_open cfg).
Proof. walk socks_atom. Qed.

(** A connecting socket reaching the open state is as live as it was. *)
Lemma socks_ok_open so cur h s :
  so !! h = Some s -> readyState s = CONNECTING ->
  socks_ok so cur -> socks_ok (alter (set_readyState OPEN) h so) cur.
Proof.
  intros Hs Hr H h' s' Hs' Hl.
  destruct (decide (h' = h)) as [->|Hne].
  - rewrite lookup_alter_eq, Hs in Hs'. injection Hs' as <-.
    apply (H h s Hs). unfold live in *. simpl in Hl. rewrite Hr.
    by destruct (listeners s).
  - rewrite lookup_alter_ne in Hs' by done. eauto.
Qed.

Lemma step_socks cfg env i : steps_in socks_rel (step cfg env i).
Proof.
  destruct i; try (walk socks_atom; fail).
  intros w Hinv. cbn [step]. cbv [bind gets].
  destruct (socks w !! h) as [s|] eqn:E; [|exact Hinv].
  destruct (readyState s) eqn:Hr; try exact Hinv.
  cbv [modify].
  assert (H1 : socks_inv (with_socks (alter (set_readyState OPEN) h) w))
    by (by eapply socks_ok_open).
  destruct (listeners s); cbn [when]; [|exact H1].
  by apply on_open_socks.
Qed.

Lemma run_socks cfg env l : steps_in socks_rel (run cfg env l).
Proof.
  induction l as [|i rest IH]; cbn [run]; fold (run cfg env).
  - walk socks_atom.
  - apply steps_in_bind; [tc_solve | apply step_socks | auto].
Qed.

Lemma reachable_socks cfg env l :
  socks_inv (exec (run cfg env l) initial_world).
Proof. apply (run_socks cfg env l initial_world). intros h s Hs. done. Qed.

(** X10.  After every run from the initial state, a socket that is
    connecting or open and still carries the listeners of [connect] is the
    socket [ws] holds: the client never listens to two connections. *)
Theorem at_most_one_live_socket cfg env l h s :
  let w := exec (run cfg env l) initial_world in
  socks w !! h = Some s -> listeners s = true ->
  readyState s = CONNECTING \/ readyState s = OPEN ->
  ws (st w) = Some h.
Proof.
  intros w Hs Hl Hr. apply (reachable_socks cfg env l h s Hs).
  unfold live. rewrite Hl. by destruct Hr as [-> | ->].
Qed.

Lemma at_most_one_live_socket_witness :
  let w := exec (run default_config env_quiet [CallStart pair_AM; SockOpen 0])
             initial_world in
  ws (st w) = Some 0%nat.
Proof.
  intros w.
  assert (Hs : socks w !! 0%nat
               = Some {| readyState := OPEN; listeners := true;
                         pong_listener := true |})
    by (vm_compute; reflexivity).
  exact (at_most_one_live_socket default_config env_quiet
           [CallStart pair_AM; SockOpen 0] 0%nat _ Hs eq_refl
           (or_intror eq_refl)).
Defined.

#[local] Instance handles_rel_preorder : PreOrder handles_rel.
Proof. split; unfold handles_rel; [intros w; auto | intros a b c; auto]. Qed.

Ltac handles_atom :=
  unfold handles_rel, handles_fresh; simpl; intros Hinv h' Hh';
  first
    [ by apply Hinv
    | apply lookup_alter_is_Some in Hh'; by apply Hinv
    | specialize (Hinv h'); lia
    | apply lookup_insert_is_Some in Hh' as [<-|[_ Hh']];
      [lia | specialize (Hinv _ Hh'); lia]
    | specialize (Hinv _ Hh'); lia ].

Lemma backfill_loop_handles cfg env w m l :
  steps_in handles_rel (backfill_loop cfg env w m l).
Proof.
  induction l as [|i rest IH]; cbn [backfill_loop];
    fold (backfill_loop cfg env); walk handles_atom.
Qed.

#[local] Hint Resolve backfill_loop_handles : steps.

Lemma step_handles cfg env i : steps_in handles_rel (step cfg env i).
Proof. destruct i; walk handles_atom. Qed.

Lemma run_handles cfg env l : steps_in handles_rel (run cfg env l).
Proof.
  induction l as [|i rest IH]; cbn [run]; fold (run cfg env).
  - walk handles_atom.
  - apply steps_in_bind; [tc_solve | apply step_handles | auto].
Qed.

Lemma reachable_handles cfg env l :
  handles_fresh (exec (run cfg env l) initial_world).
Proof.
  apply (run_handles cfg env l initial_world). intros h [s Hs]. done.
Qed.

Lemma connect_socket_left w h s :
  ws (st w) = Some h -> socks w !! h = Some s -> h <> fresh w ->
  shouldRun (st w) = true ->
  truthy (wallet (pair (st w))) = true ->
  truthy (mint (pair (st w))) = true ->
  socks (snd (connect w)) !! h
  = Some {| readyState := readyState s; listeners := false;
            pong_listener := false |}.
Proof.
  intros Hws Hs Hne Hrun Hw Hm. unfold connect, clearAllTimers, clear_key.
  cbv [bind get_st gets modify_st modify modify_timers clearTimer ret
       removeAllListeners new_WebSocket attach_listeners].
  rewrite Hrun, Hw, Hm.
  destruct w as [[sk [p l i pr] b pa n se sr] d so po jo fr tr]; simpl in *.
  subst sk.
  destruct p, l, i, pr; simpl;
    by rewrite lookup_alter_ne, lookup_insert_ne, lookup_alter_eq, Hs by done.
Qed.

(** X11.  When [connect] runs while [ws] holds a socket, it takes the
    listeners off that socket and opens a new one; the old socket is not
    terminated and keeps the state it was in. *)
Theorem connect_abandons_the_socket_it_held cfg env l h s :
  let w := exec (run cfg env l) initial_world in
  ws (st w) = Some h -> socks w !! h = Some s ->
  shouldRun (st w) = true ->
  let w' := exec connect w in
  trace w' = trace w ++ [WsNew (fresh w)]
  /\ ws (st w') = Some (fresh w)
  /\ socks w' !! h
     = Some {| readyState := readyState s; listeners := false;
               pong_listener := false |}.
Proof.
  intros w Hws Hs Hrun w'.
  pose proof (reachable_running cfg env l Hrun) as Hv. fold w in Hv.
  destruct (valid_pair_truthy _ Hv) as [Hw Hm].
  destruct (connect_opens w Hrun Hw Hm) as (_ & Hws' & Htr & _).
  split; [exact Htr|]. split; [exact Hws'|].
  apply connect_socket_left; trivial.
  pose proof (reachable_handles cfg env l h) as Hf. fold w in Hf.
  specialize (Hf (ex_intro _ s Hs)). lia.
Qed.

Lemma connect_abandons_the_socket_it_held_witness :
  let w := exec (run default_config env_quiet [CallStart pair_AM; SockOpen 0])
             initial_world in
  let w' := exec connect w in
  fresh w = 3%nat
  /\ trace w' = trace w ++ [WsNew (fresh w)]
  /\ ws (st w') = Some (fresh w)
  /\ socks w' !! 0%nat
     = Some {| readyState := OPEN; listeners := false;
               pong_listener := false |}.
Proof.
  intros w w'.
  assert (Hs : socks w !! 0%nat
               = Some {| readyState := OPEN; listeners := true;
                         pong_listener := true |})
    by (vm_compute; reflexivity).
  assert (Hws : ws (st w) = Some 0%nat) by (vm_compute; reflexivity).
  assert (Hrun : shouldRun (st w) = true) by (vm_compute; reflexivity).
  assert (Hf : fresh w = 3%nat) by (vm_compute; reflexivity).
  exact (conj Hf
           (connect_abandons_the_socket_it_held default_config env_quiet
              [CallStart pair_AM; SockOpen 0] 0%nat _ Hws Hs Hrun)).
Defined.

(** ** Uncaught exceptions *)

(** The [open] listener on the socket [ws] holds, once it is open. *)
Lemma on_open_returns cfg w h s :
  ws (st w) = Some h -> socks w !! h = Some s -> readyState s = OPEN ->
  fst (on_open cfg w) = Ok tt.
Proof.
  intros Hws Hs Hr. unfold on_open, startHeartbeat, armIdleRecycle.
  cbv [bind onLog emit modify modify_st get_st gets clear_handle clearTimer
       setTimer modify_timers ret attach_pong throw].
  destruct w as [[sk [p l i pr] b pa n se sr] d so po jo fr tr];
    simpl in *. subst sk.
  destruct p, l; simpl; rewrite lookup_alter_eq, Hs; simpl; rewrite Hr;
    simpl; destruct i; reflexivity.
Qed.

Lemma start_total cfg env p : total (api (start cfg env p)).
Proof. unfold api. walk_total. Qed.

Lemma setPair_total cfg env p : total (api (setPair cfg env p)).
Proof. unfold api. walk_total. Qed.

Lemma detail_k_total cfg j r : total (detail_k cfg j r).
Proof. unfold detail_k. walk_total. Qed.

Lemma on_message_total cfg m : total (on_message cfg m).
Proof. unfold on_message. walk_total. Qed.

#[local] Hint Resolve start_total setPair_total detail_k_total
  on_message_total : total.

Lemma on_error_total e : total (on_error e).
Proof. unfold on_error, try_ws_terminate, terminate. walk_total. Qed.

Lemma step_outcome cfg env i w :
  socks_inv w ->
  fst (step cfg env i w) = if unhandled i w then Throw (raised i) else Ok tt.
Proof.
  intros Hinv.
  assert (Ht : forall m : M unit, total m -> fst (m w) = Ok tt).
  { intros m Hm. destruct (Hm w) as [[] H]. exact H. }
  destruct i;
    try (cbn [unhandled]; apply Ht; cbn [step]; walk_total; fail).
  - cbn [step unhandled]. cbv [bind gets].
    destruct (socks w !! h) as [s|] eqn:E; [|done].
    destruct (readyState s) eqn:Hr; try done.
    cbv [modify]. destruct (listeners s) eqn:Hl; cbn [when]; [|done].
    apply (on_open_returns cfg _ h (set_readyState OPEN s)).
    + simpl. apply (Hinv h s E). unfold live. by rewrite Hl, Hr.
    + simpl. by rewrite lookup_alter_eq, E.
    + done.
  - cbn [step unhandled raised]. cbv [bind gets].
    destruct (socks w !! h) as [s|] eqn:E; [|done].
    destruct (listeners s) eqn:Hl; destruct (readyState s) eqn:Hr;
      cbn [negb andb]; try done;
      destruct (on_error_total e w) as [[] H]; exact H.
Qed.

(** X12.  In every run from the initial state a turn of the event loop
    ends in an uncaught exception exactly when it is an [error] event of a
    socket that is not closed and carries no listener, and the exception
    is that error.  Every other turn returns normally: every listener and
    timer callback of the client that is invoked returns, and a failing
    [start] or [setPair] rejects to its caller.  Such a socket exists:
    [connect] takes the listeners off the socket it held and leaves it
    open, so after a [connect] on a running client an [error] event of the
    old socket is an uncaught exception.  ([cfg.onLog] and [cfg.onEvent]
    are taken to return.) *)
Theorem only_an_unhandled_error_escapes cfg env l :
  let w := exec (run cfg env l) initial_world in
  (forall i,
     outcome (step cfg env i) w
     = if unhandled i w then Throw (raised i) else Ok tt)
  /\ forall h s e,
       ws (st w) = Some h -> socks w !! h = Some s ->
       readyState s <> CLOSED -> shouldRun (st w) = true ->
       outcome (step cfg env (SockError h e)) (exec connect w) = Throw e.
Proof.
  intros w. split.
  - intros i. apply step_outcome. apply reachable_socks.
  - intros h s e Hws Hs Hr Hrun.
    pose proof (reachable_running cfg env l Hrun) as Hv. fold w in Hv.
    destruct (valid_pair_truthy _ Hv) as [Hw Hm].
    assert (Hold : socks (exec connect w) !! h
                   = Some {| readyState := readyState s; listeners := false;
                             pong_listener := false |}).
    { apply connect_socket_left; trivial.
      pose proof (reachable_handles cfg env l h) as Hf. fold w in Hf.
      specialize (Hf (ex_intro _ s Hs)). lia. }
    unfold outcome. cbn [step]. cbv [bind gets]. rewrite Hold. simpl.
    destruct (readyState s); done.
Qed.

Lemma only_an_unhandled_error_escapes_witness :
  let w := exec (run default_config env_quiet [CallStart pair_AM; SockOpen 0])
             initial_world in
  outcome (step default_config env_quiet (SockError 0 "ECONNRESET"))
    (exec connect w)
  = Throw "ECONNRESET"
  /\ outcome (run default_config env_quiet
                [CallStart pair_AM; SockOpen 0; CallStart pair_AM;
                 SockError 0 "ECONNRESET"]) initial_world
     = Throw "ECONNRESET".
Proof.
  intros w.
  assert (Hs : socks w !! 0%nat
               = Some {| readyState := OPEN; listeners := true;
                         pong_listener := true |})
    by (vm_compute; reflexivity).
  assert (Hws : ws (st w) = Some 0%nat) by (vm_compute; reflexivity).
  assert (Hrun : shouldRun (st w) = true) by (vm_compute; reflexivity).
  assert (Hr : readyState {| readyState := OPEN; listeners := true;
                             pong_listener := true |} <> CLOSED)
    by discriminate.
  assert (Hc : outcome (run default_config env_quiet
                          [CallStart pair_AM; SockOpen 0; CallStart pair_AM;
                           SockError 0 "ECONNRESET"]) initial_world
               = Throw "ECONNRESET")
    by (vm_compute; reflexivity).
  exact (conj
           (proj2 (only_an_unhandled_error_escapes default_config env_quiet
                     [CallStart pair_AM; SockOpen 0])
              0%nat _ "ECONNRESET" Hws Hs Hr Hrun)
           Hc).
Defined.

(** ** After [stop] *)

#[local] Instance quiet_rel_preorder : PreOrder quiet_rel.
Proof.
  split.
  - intros w Hq. split; [done|]. exists []. by rewrite app_nil_r.
  - intros a b c Hab Hbc Hq.
    destruct (Hab Hq) as (Hb & t1 & Ht1 & Hs1).
    destruct (Hbc Hb) as (Hc & t2 & Ht2 & Hs2).
    split; [done|]. exists (t1 ++ t2).
    rewrite Ht2, Ht1, <- app_assoc. split; [done|].
    rewrite forallb_app. by rewrite Hs1, Hs2.
Qed.

Lemma quiet_rel_same_trace w w' :
  trace w' = trace w -> (quiet w -> quiet w') -> quiet_rel w w'.
Proof.
  intros Ht H Hq. split; [auto|]. exists []. by rewrite app_nil_r.
Qed.

Lemma Forall_filter_keep {A} (P : A -> Prop) f (l : list A) :
  Forall P l -> Forall P (List.filter f l).
Proof.
  intros H. apply List.Forall_forall. intros x Hx.
  apply filter_In in Hx as [Hx _]. rewrite List.Forall_forall in H. auto.
Qed.

Ltac quiet_atom :=
  first
    [ apply quiet_rel_same_trace; [reflexivity|];
      unfold quiet; simpl; intros (? & ? & ? & ?); repeat split; trivial;
      first [ by apply Forall_filter_keep
            | apply no_live_alter; [by intros [[] [] []] | assumption] ]
    | unfold quiet_rel, quiet; simpl; intros (? & ? & ? & ?);
      split; [repeat split; trivial|];
      eexists [_]; split; reflexivity ].

Lemma scheduleReconnect_quiet cfg tag :
  steps_in quiet_rel (scheduleReconnect cfg tag).
Proof.
  intros w Hq. unfold scheduleReconnect. cbv [bind get_st gets].
  destruct Hq as (Hrun & ?). rewrite Hrun. simpl.
  split; [done|]. exists []. by rewrite app_nil_r.
Qed.

Lemma connect_quiet : steps_in quiet_rel connect.
Proof.
  intros w Hq. unfold connect. cbv [bind get_st gets].
  destruct Hq as (Hrun & ?). rewrite Hrun. simpl.
  split; [done|]. exists []. by rewrite app_nil_r.
Qed.

#[local] Hint Resolve scheduleReconnect_quiet connect_quiet : steps.

Lemma probe_callback_quiet cfg env : steps_in quiet_rel (probe_callback cfg env).
Proof. walk quiet_atom. Qed.

Lemma on_error_quiet e : steps_in quiet_rel (on_error e).
Proof. walk quiet_atom. Qed.

Lemma on_close_quiet cfg c r : steps_in quiet_rel (on_close cfg c r).
Proof. walk quiet_atom. Qed.

Lemma stop_quiet : steps_in quiet_rel stop.
Proof. walk quiet_atom. Qed.

Lemma detail_k_quiet cfg j r : steps_in quiet_rel (detail_k cfg j r).
Proof. walk quiet_atom. Qed.

#[local] Hint Resolve probe_callback_quiet on_error_quiet on_close_quiet
  stop_quiet detail_k_quiet : steps.

(** A change of a socket's state that leaves it without listeners or
    closing. *)
Lemma quiet_alter f h w :
  (forall s, live (f s) = true -> live s = true) ->
  quiet_rel w (with_socks (alter f h) w).
Proof.
  intros Hf. apply quiet_rel_same_trace; [reflexivity|].
  intros (? & ? & ? & ?). repeat split; trivial. by apply no_live_alter.
Qed.

Lemma quiet_rel_intro w w' : (quiet w -> quiet_rel w w') -> quiet_rel w w'.
Proof. intros H Hq. exact (H Hq Hq). Qed.

Lemma quiet_alter_at f h s w :
  socks w !! h = Some s -> live (f s) = false ->
  quiet_rel w (with_socks (alter f h) w).
Proof.
  intros Hs Hf. apply quiet_rel_same_trace; [reflexivity|].
  intros (? & ? & Hn & ?). repeat split; trivial. simpl.
  intros h' s' Hs'. destruct (decide (h' = h)) as [->|Hne].
  - rewrite lookup_alter_eq, Hs in Hs'. by injection Hs' as <-.
  - rewrite lookup_alter_ne in Hs' by done. eauto.
Qed.

Lemma quiet_rel_then (f : World -> World) (m : M unit) w :
  quiet_rel w (f w) -> steps_in quiet_rel m -> quiet_rel w (snd (m (f w))).
Proof. intros H Hm. etransitivity; [exact H | apply Hm]. Qed.

Lemma find_in_pool h (p : list (nat * TimerKind * Z)) x :
  List.find (handle_is h) p = Some x -> In x p.
Proof. intros H. by apply find_some in H as [? _]. Qed.

Lemma step_quiet cfg env i :
  asks_to_run i = false -> steps_in quiet_rel (step cfg env i).
Proof.
  intros Hi. destruct i; try discriminate; try (walk quiet_atom; fail);
    intros w; apply quiet_rel_intro; intros Hq; cbn [step]; cbv [bind gets].
  - (* open *)
    destruct (socks w !! h) as [s|] eqn:E; [|reflexivity].
    pose proof (proj1 (proj2 (proj2 Hq)) h s E) as Hl. unfold live in Hl.
    destruct (readyState s) eqn:Hr; try reflexivity.
    destruct (listeners s) eqn:Hls; [discriminate|]. cbv [modify]. cbn [when].
    apply (quiet_alter_at _ h s); [done|]. unfold live. simpl. by rewrite Hls.
  - (* message *)
    destruct (socks w !! h) as [s|] eqn:E; [|reflexivity].
    pose proof (proj1 (proj2 (proj2 Hq)) h s E) as Hl. unfold live in Hl.
    destruct (readyState s) eqn:Hr; try reflexivity.
    destruct (listeners s) eqn:Hls; [discriminate|]. reflexivity.
  - (* a timer fires *)
    destruct (List.find (handle_is h) (pool w)) as [[[h' k] d]|] eqn:E;
      [|reflexivity].
    apply find_in_pool in E.
    destruct Hq as (_ & _ & _ & Hp). rewrite List.Forall_forall in Hp.
    specialize (Hp _ E). unfold timer_kind in Hp. simpl in Hp. subst k.
    assert (H : steps_in quiet_rel (clearTimer h;; timer_callback cfg env TProbe))
      by (cbn [timer_callback]; walk quiet_atom).
    apply H.
Qed.

Lemma run_quiet cfg env l :
  Forall (fun i => asks_to_run i = false) l ->
  steps_in quiet_rel (run cfg env l).
Proof.
  intros Hl. induction Hl as [|i rest Hi Hrest IH]; cbn [run];
    fold (run cfg env).
  - walk quiet_atom.
  - apply steps_in_bind; [tc_solve | by apply step_quiet | auto].
Qed.

Lemma stop_socks_after w :
  socks (exec stop w)
  = match ws (st w) with
    | Some h =>
        alter (fun s => match readyState s with
                        | CLOSED => s
                        | _ => set_readyState CLOSING s
                        end) h (socks w)
    | None => socks w
    end.
Proof.
  unfold exec, stop, clearAllTimers, clear_key.
  cbv [bind get_st gets modify_st modify modify_timers clearTimer ret
       terminate emit].
  destruct w as [[sk [p l i pr] b pa n se sr] d so po jo fr tr]; simpl.
  destruct p, l, i, pr, sk; reflexivity.
Qed.

Lemma stop_pool_subset w x : In x (pool (exec stop w)) -> In x (pool w).
Proof.
  unfold exec, stop, clearAllTimers, clear_key.
  cbv [bind get_st gets modify_st modify modify_timers clearTimer ret
       terminate emit].
  destruct w as [[sk [p l i pr] b pa n se sr] d so po jo fr tr]; simpl.
  destruct p, l, i, pr, sk; simpl; rewrite ?filter_In; tauto.
Qed.

(** What [stop] leaves, in a state the client can be in. *)
Lemma stop_gives_quiet w : timers_inv w -> socks_inv w -> quiet (exec stop w).
Proof.
  intros (_ & _ & Hslot) Hsocks.
  destruct (stop_state w) as (Hrun & Hws & _).
  repeat split; trivial.
  - rewrite stop_socks_after.
    apply no_live_after; [|exact Hsocks]. by intros [[] [] []].
  - apply List.Forall_forall. intros x Hx.
    destruct (stop_disarms w x Hx) as (Hp & Hl & Hi & Hpr).
    apply stop_pool_subset in Hx.
    rewrite List.Forall_forall in Hslot.
    destruct (Hslot x Hx) as [?|Hs]; [done|].
    unfold timer_handle in Hs. destruct (timer_kind x); simpl in Hs; done.
Qed.

Lemma isConnected_quiet w : quiet w -> isConnected w = (Ok false, w).
Proof.
  intros (_ & Hws & _). unfold isConnected. cbv [bind get_st gets].
  by rewrite Hws.
Qed.



(** ** Bounds on the reconnect delays *)

#[local] Instance backoff_rel_preorder cfg : PreOrder (backoff_rel cfg).
Proof. split; unfold backoff_rel; [intros w; auto | intros a b c; auto]. Qed.

Lemma round_times_1_5_grows b : 1000 <= b -> 1500 <= round_times_1_5 b.
Proof.
  intros H. unfold round_times_1_5.
  apply Z.div_le_lower_bound; lia.
Qed.

Ltac backoff_atom :=
  unfold backoff_rel, backoff_inv, delays_within; cbn -[reconnect_delays Z.min Z.max];
  rewrite ?reconnect_delays_app; cbn -[Z.min Z.max]; rewrite ?app_nil_r;
  intros [? ?]; split; [lia | assumption].

Lemma scheduleReconnect_bounds cfg tag :
  1000 <= maxBackoffMs cfg ->
  steps_in (backoff_rel cfg) (scheduleReconnect cfg tag).
Proof.
  intros Hmax w. unfold scheduleReconnect.
  cbv [bind get_st gets modify_st modify onLog emit setTimer modify_timers ret].
  destruct (shouldRun (st w)); cbn [negb]; [|reflexivity].
  unfold backoff_rel, backoff_inv, delays_within.
  cbn -[reconnect_delays Z.min Z.max].
  rewrite !reconnect_delays_app. cbn -[Z.min Z.max]. rewrite app_nil_r.
  intros [Hb Hd].
  pose proof (round_times_1_5_grows _ (proj1 Hb)) as Hr.
  split; [lia|]. apply Forall_app. split; [done|].
  constructor; [lia | constructor].
Qed.

#[local] Hint Resolve scheduleReconnect_bounds : steps.

Lemma backfill_loop_bounds cfg env w m l :
  1000 <= maxBackoffMs cfg ->
  steps_in (backoff_rel cfg) (backfill_loop cfg env w m l).
Proof.
  intros Hmax. induction l as [|i rest IH]; cbn [backfill_loop];
    fold (backfill_loop cfg env); walk backoff_atom.
Qed.

#[local] Hint Resolve backfill_loop_bounds : steps.

Lemma step_bounds cfg env i :
  1000 <= maxBackoffMs cfg -> steps_in (backoff_rel cfg) (step cfg env i).
Proof. intros Hmax. destruct i; walk backoff_atom. Qed.

Lemma run_bounds cfg env l :
  1000 <= maxBackoffMs cfg -> steps_in (backoff_rel cfg) (run cfg env l).
Proof.
  intros Hmax. induction l as [|i rest IH]; cbn [run]; fold (run cfg env).
  - walk backoff_atom.
  - apply steps_in_bind; [tc_solve | by apply step_bounds | auto].
Qed.

(** X14.  With [maxBackoffMs] at least 1000, after every run from the
    initial state the backoff is between 1000 and [maxBackoffMs], and every
    reconnect was scheduled with a delay of at least 1500 ms (or
    [maxBackoffMs], if that is less) and at most [maxBackoffMs]. *)
Theorem reconnect_delays_are_bounded cfg env l :
  1000 <= maxBackoffMs cfg ->
  let w := exec (run cfg env l) initial_world in
  1000 <= backoffMs (st w) <= maxBackoffMs cfg
  /\ Forall (fun d => Z.min (maxBackoffMs cfg) 1500 <= d <= maxBackoffMs cfg)
       (reconnect_delays (trace w)).
Proof.
  intros Hmax w.
  destruct (run_bounds cfg env l Hmax initial_world) as [Hb Hd].
  { split; [split; [done | exact Hmax] | constructor]. }
  split; [exact Hb | exact Hd].
Qed.

Lemma reconnect_delays_are_bounded_witness :
  let w := exec (run default_config env_flaky
                   [CallStart pair_AM; SockClose 0 1006 ""; Fire 1; Fire 2])
             initial_world in
  reconnect_delays (trace w) = [1500; 2250; 3375]
  /\ Forall (fun d => 1500 <= d <= 5000) (reconnect_delays (trace w)).
Proof.
  intros w.
  assert (Hd : reconnect_delays (trace w) = [1500; 2250; 3375])
    by (vm_compute; reflexivity).
  assert (Hmax : 1000 <= maxBackoffMs default_config)
    by (vm_compute; discriminate).
  exact (conj Hd
           (proj2 (reconnect_delays_are_bounded default_config env_flaky
                     [CallStart pair_AM; SockClose 0 1006 ""; Fire 1; Fire 2]
                     Hmax))).
Defined.

(** ** Heartbeat and idle timers *)

Lemma armed_none k (p : list (nat * TimerKind * Z)) :
  (forall x, In x p -> timer_kind x <> k) ->
  List.filter (fun x => kind_eqb (timer_kind x) k) p = [].
Proof.
  intros H. induction p as [|x p IH]; simpl; [done|].
  destruct (kind_eqb (timer_kind x) k) eqn:E.
  - exfalso. apply (H x); [by left|]. by destruct (timer_kind x), k.
  - apply IH. intros y Hy. apply H. by right.
Qed.

(** X15.  A pong on an open socket that carries the pong listener
    leaves no liveness timeout armed: the handle in [timers.liveness] is
    the armed one. *)
Theorem pong_disarms_the_liveness_timer cfg env l h s :
  let w := exec (run cfg env l) initial_world in
  socks w !! h = Some s -> readyState s = OPEN -> pong_listener s = true ->
  armed TLiveness (exec (step cfg env (SockPong h)) w) = [].
Proof.
  intros w Hs Hr Hp. unfold exec. cbn [step]. cbv [bind gets].
  rewrite Hs, Hr, Hp. cbn [when]. unfold on_pong, armed.
  cbv [bind get_st gets clear_handle clearTimer modify].
  pose proof (reachable_timers cfg env l) as Hinv. fold w in Hinv.
  apply armed_none. intros x Hx.
  apply (cleared_kind TLiveness (pool w) (fresh w) (timers (st w)));
    [done | done |]. simpl.
  destruct (liveness (timers (st w))); exact Hx.
Qed.

Lemma pong_disarms_the_liveness_timer_witness :
  let w := exec (run default_config env_quiet
                   [CallStart pair_AM; SockOpen 0; Fire 1]) initial_world in
  armed TLiveness w = [(3%nat, TLiveness, 8000)]
  /\ armed TLiveness (exec (step default_config env_quiet (SockPong 0)) w) = [].
Proof.
  intros w.
  assert (Ha : armed TLiveness w = [(3%nat, TLiveness, 8000)])
    by (vm_compute; reflexivity).
  assert (Hs : socks w !! 0%nat
               = Some {| readyState := OPEN; listeners := true;
                         pong_listener := true |})
    by (vm_compute; reflexivity).
  exact (conj Ha
           (pong_disarms_the_liveness_timer default_config env_quiet
              [CallStart pair_AM; SockOpen 0; Fire 1] 0%nat _ Hs eq_refl
              eq_refl)).
Defined.

(** ** The order of the effects around a delivery *)

#[local] Instance protocol_rel_preorder cfg : PreOrder (protocol_rel cfg).
Proof. split; unfold protocol_rel; [intros w; auto | intros a b c; auto]. Qed.

Lemma each_after_nil P : each_after P [].
Proof. intros [|? ?] ? ? H; discriminate. Qed.

Lemma each_after_snoc P t e :
  each_after P t -> P t e -> each_after P (t ++ [e]).
Proof.
  intros Ht He t1 e' t2 Heq.
  destruct t2 as [|x t2 _] using rev_ind.
  - apply app_inj_tail in Heq as [-> ->]. exact He.
  - rewrite app_comm_cons, app_assoc in Heq.
    apply app_inj_tail in Heq as [-> _]. by eapply Ht.
Qed.

Lemma pending_fetched_grow (w w' : World) :
  jobs w' = jobs w -> (forall x, In x (trace w) -> In x (trace w')) ->
  pending_fetched w -> pending_fetched w'.
Proof.
  unfold pending_fetched. intros -> Ht H.
  eapply List.Forall_impl; [|exact H]. simpl. auto.
Qed.

Ltac keep_pending :=
  match goal with
  | H : pending_fetched ?w |- pending_fetched _ =>
      first [ exact H
            | apply (pending_fetched_grow w);
              [ reflexivity
              | intros ?; simpl; rewrite ?in_app_iff; tauto
              | exact H ] ]
  end.

Ltac protocol_atom :=
  unfold protocol_rel, protocol_inv; simpl; intros [? ?];
  split;
  [ first [ assumption | apply each_after_snoc; [assumption | exact I] ]
  | keep_pending ].

Lemma txHasWalletMintPair_protocol cfg env sig :
  steps_in (protocol_rel cfg) (txHasWalletMintPair env sig).
Proof. walk protocol_atom. Qed.

Ltac snoc_protocol :=
  repeat (apply each_after_snoc;
          [| first [ exact I
                   | split;
                     [ rewrite ?in_app_iff; simpl; tauto
                     | intros ? ?; first [ congruence
                                         | simplify_eq; split; [assumption | apply last_snoc] ] ]
                   | split; [assumption|]; eexists; split; [apply last_snoc|];
                     split; reflexivity ] ]).

Lemma backfill_item_protocol cfg env wl mt i :
  steps_in (protocol_rel cfg) (backfill_item cfg env wl mt i).
Proof.
  intros w [Ht Hp].
  unfold backfill_item, txHasWalletMintPair, txHasWalletMintPair_k, rpc_send,
    rpc_recv, run_saveEvent, remember, loadState, saveState.
  cbv [try_catch bind get_st gets emit modify modify_st ret onLog throw].
  destruct (has (si_signature i) (seen (st w))); [by split|].
  destruct (env (length (trace w)) (getTransaction (si_signature i)))
    as [e|e|e|[| |tx|]];
    cbn [fst snd negb];
    try (split; [simpl; by snoc_protocol | keep_pending]).
  destruct (touches _ tx); cbn [negb];
    [|split; [simpl; by snoc_protocol | keep_pending]].
  destruct (saveEvent cfg) as [f|] eqn:Hf.
  - destruct (f (backfill_event wl mt i)) eqn:Hfe; cbn [fst snd];
      [split; [simpl; by snoc_protocol | keep_pending]|].
    destruct (persist cfg) eqn:Hpe; cbn [negb fst snd];
      (split; [simpl; by snoc_protocol | keep_pending]).
  - destruct (persist cfg) eqn:Hpe; cbn [negb fst snd];
      (split; [simpl; by snoc_protocol | keep_pending]).
Qed.

Lemma backfill_loop_protocol cfg env wl mt l :
  steps_in (protocol_rel cfg) (backfill_loop cfg env wl mt l).
Proof.
  induction l as [|i rest IH]; [walk protocol_atom|].
  intros w. rewrite backfill_loop_cons.
  revert w. apply steps_in_bind; [tc_solve | | intros _; exact IH].
  apply backfill_item_protocol.
Qed.

#[local] Hint Resolve backfill_loop_protocol : steps.

(** The one place where a fetch becomes pending: right after its request
    has left. *)
Lemma on_message_protocol cfg m : steps_in (protocol_rel cfg) (on_message cfg m).
Proof.
  destruct m; try (walk protocol_atom; fail).
  intros w [Ht Hp]. unfold on_message.
  cbv [try_catch bind armIdleRecycle get_st gets clear_handle setTimer
       modify_timers modify_st modify clearTimer ret rpc_send emit add_job].
  destruct (idle (timers (st w))); cbn [fst snd];
    destruct (has sig (seen (st _))); cbn [fst snd];
    try (split; [simpl; by snoc_protocol | keep_pending]);
    destruct (isImportantLog cfg logs); cbn [negb fst snd];
    try (split; [simpl; by snoc_protocol | keep_pending]);
    destruct (maxDetailConcurrency cfg <=? _); cbn [fst snd];
    try (split; [simpl; by snoc_protocol | keep_pending]).
  all: split; [simpl; by snoc_protocol|].
  all: unfold pending_fetched; simpl; apply Forall_app; split;
    [ eapply List.Forall_impl; [|exact Hp]; simpl; intros ?;
      rewrite ?in_app_iff; tauto
    | constructor; [|constructor]; simpl; rewrite ?in_app_iff; simpl; tauto ].
Qed.

#[local] Hint Resolve on_message_protocol : steps.

(** The continuation of a detail fetch whose request is in the trace. *)
Lemma detail_k_protocol cfg j r w :
  In (Fetch (getTransaction (j_signature j))) (trace w) ->
  protocol_rel cfg w (snd (detail_k cfg j r w)).
Proof.
  intros Hj [Ht Hp].
  unfold detail_k, txHasWalletMintPair_k, rpc_recv, run_saveEvent, remember,
    loadState, saveState.
  cbv [try_catch bind get_st gets emit modify modify_st ret onLog throw].
  destruct r as [e|e|e|[| |tx|]]; cbn [fst snd negb];
    try (split; [simpl; by snoc_protocol | keep_pending]).
  destruct (touches _ tx); cbn [negb fst snd];
    [|split; [simpl; by snoc_protocol | keep_pending]].
  destruct (saveEvent cfg) as [f|] eqn:Hf.
  - match goal with
    | |- context [f ?ev] => destruct (f ev) eqn:Hfe
    end; cbn [fst snd];
      [split; [simpl; by snoc_protocol | keep_pending]|].
    destruct (persist cfg) eqn:Hpe; cbn [negb fst snd];
      (split; [simpl; by snoc_protocol | keep_pending]).
  - destruct (persist cfg) eqn:Hpe; cbn [negb fst snd];
      (split; [simpl; by snoc_protocol | keep_pending]).
Qed.

Lemma step_protocol cfg env i : steps_in (protocol_rel cfg) (step cfg env i).
Proof.
  destruct i; try (walk protocol_atom; fail).
  intros w Hinv. cbn [step]. cbv [bind gets].
  destruct (List.find (job_is j) (jobs w)) as [[id job]|] eqn:Hfind;
    [|exact Hinv].
  cbv [modify]. destruct Hinv as [Ht Hp].
  apply find_some in Hfind as [Hin _].
  apply detail_k_protocol.
  - unfold pending_fetched in Hp. rewrite List.Forall_forall in Hp.
    apply (Hp _ Hin).
  - split; [exact Ht|]. unfold pending_fetched in *. simpl.
    apply List.Forall_forall. intros x Hx. apply filter_In in Hx as [Hx _].
    rewrite List.Forall_forall in Hp. auto.
Qed.

Lemma run_protocol cfg env l : steps_in (protocol_rel cfg) (run cfg env l).
Proof.
  induction l as [|i rest IH]; cbn [run]; fold (run cfg env).
  - walk protocol_atom.
  - apply steps_in_bind; [tc_solve | apply step_protocol | auto].
Qed.

Lemma reachable_protocol cfg env l :
  protocol_inv cfg (exec (run cfg env l) initial_world).
Proof.
  apply (run_protocol cfg env l initial_world).
  split; [apply each_after_nil | constructor].
Qed.

(** X16.  Every [onEvent] call, on either path, comes after a
    [getTransaction] request for the signature of the event. *)
Theorem event_is_checked_before_delivery cfg env l before ev after :
  trace (exec (run cfg env l) initial_world) = before ++ OnEvent ev :: after ->
  In (Fetch (getTransaction (signature ev))) before.
Proof.
  intros H. destruct (reachable_protocol cfg env l) as [Ht _].
  apply (Ht _ _ _ H).
Qed.

Lemma event_is_checked_before_delivery_witness :
  In (Fetch (getTransaction "sigA"))
    [Fetch getLatestBlockhash;
     OnLog info "Helius HTTP probe OK" CNone;
     OnLog info "Backfill start" (CBackfill 15 (Some wallet_A) (Some mint_M));
     Fetch (getSignaturesForAddress wallet_A 15 0);
     Fetch (getTransaction "sigA")].
Proof.
  refine (event_is_checked_before_delivery default_config env_one
            [CallStart pair_AM] _ event_A
            [FsWrite file_AM {| lastSlot := 50; lastSig := Some "sigA" |};
             WsNew 0] _).
  vm_compute. reflexivity.
Defined.

(** X17.  With a [saveEvent] configured, every [onEvent] call comes
    after a [saveEvent] call for the same event, and that call did not
    fail.  (Only the order of the two calls is stated: what other turns
    do while [saveEvent] is awaited is not modelled.) *)
Theorem event_is_saved_before_delivery cfg env l f before ev after :
  saveEvent cfg = Some f ->
  trace (exec (run cfg env l) initial_world) = before ++ OnEvent ev :: after ->
  f ev = None /\ In (SaveEvent ev) before.
Proof.
  intros Hf H. destruct (reachable_protocol cfg env l) as [Ht _].
  destruct (Ht _ _ _ H) as [_ Hs]. destruct (Hs f Hf) as [Hok Hlast].
  split; [exact Hok|].
  destruct before as [|x b _] using rev_ind; [discriminate|].
  rewrite last_snoc in Hlast. injection Hlast as ->.
  apply in_or_app. right. by left.
Qed.

Lemma event_is_saved_before_delivery_witness :
  In (SaveEvent event_A)
    [Fetch getLatestBlockhash;
     OnLog info "Helius HTTP probe OK" CNone;
     OnLog info "Backfill start" (CBackfill 15 (Some wallet_A) (Some mint_M));
     Fetch (getSignaturesForAddress wallet_A 15 0);
     Fetch (getTransaction "sigA");
     SaveEvent event_A].
Proof.
  refine (proj2 (event_is_saved_before_delivery config_saving env_one
                   [CallStart pair_AM] (fun _ => None) _ event_A
                   [FsWrite file_AM {| lastSlot := 50; lastSig := Some "sigA" |};
                    WsNew 0] eq_refl _)).
  vm_compute. reflexivity.
Defined.

(** X18.  A state file is written only with persistence on, only
    directly after an [onEvent] call and with the signature of that event
    as [lastSig].  It is the state file of the pair of that event when the
    event comes from the backfill, which names the file by its own
    arguments, or when no [saveEvent] is configured.  (The live path reads
    the pair again after the await of [saveEvent]; what other turns do
    during that await is not modelled, so nothing is stated for it.) *)
Theorem cursor_write_records_the_delivered_event cfg env l before file c after :
  trace (exec (run cfg env l) initial_world)
  = before ++ FsWrite file c :: after ->
  persist cfg = true
  /\ exists t ev,
       before = t ++ [OnEvent ev]
       /\ lastSig c = Some (signature ev)
       /\ (source ev = backfill \/ saveEvent cfg = None ->
           file = stateFile cfg (wallet (ev_pair ev)) (mint (ev_pair ev))).
Proof.
  intros H. destruct (reachable_protocol cfg env l) as [Ht _].
  destruct (Ht _ _ _ H) as (Hp & ev & Hlast & Hfile & Hsig).
  split; [exact Hp|].
  destruct before as [|x b _] using rev_ind; [discriminate|].
  rewrite last_snoc in Hlast. injection Hlast as ->.
  exists b, ev. split; [reflexivity|]. split; [exact Hsig|].
  intros _. exact Hfile.
Qed.

Lemma cursor_write_records_the_delivered_event_witness :
  exists t ev,
    [Fetch getLatestBlockhash;
     OnLog info "Helius HTTP probe OK" CNone;
     OnLog info "Backfill start" (CBackfill 15 (Some wallet_A) (Some mint_M));
     Fetch (getSignaturesForAddress wallet_A 15 0);
     Fetch (getTransaction "sigA");
     OnEvent event_A]
    = t ++ [OnEvent ev]
    /\ Some "sigA" = Some (signature ev)
    /\ (source ev = backfill \/ saveEvent default_config = None ->
        file_AM
        = stateFile default_config (wallet (ev_pair ev)) (mint (ev_pair ev))).
Proof.
  refine (proj2 (cursor_write_records_the_delivered_event default_config
                   env_one [CallStart pair_AM] _ file_AM
                   {| lastSlot := 50; lastSig := Some "sigA" |} [WsNew 0] _)).
  vm_compute. reflexivity.
Defined.

(** ** What is on disk *)

#[local] Instance cursor_rel_preorder cfg : PreOrder (cursor_rel cfg).
Proof. split; unfold cursor_rel; [intros w; auto | intros a b c; auto]. Qed.

#[local] Instance no_write_rel_preorder : PreOrder no_write_rel.
Proof.
  split; unfold no_write_rel; [intros w; auto|].
  intros a b c [] []. split; congruence.
Qed.

Lemma files_written_app t1 t2 :
  files_written (t1 ++ t2) = files_written t1 ++ files_written t2.
Proof. apply omap_app. Qed.

Ltac no_write_atom Hp :=
  try (exfalso; rewrite Hp in *; discriminate);
  unfold no_write_rel; cbn -[files_written];
  rewrite ?files_written_app; simpl; rewrite ?app_nil_r; auto.

Section Volatile.

Context (cfg : Config) (env : Env) (Hp : persist cfg = false).

Lemma saveState_no_write w m c : steps_in no_write_rel (saveState cfg w m c).
Proof. unfold saveState. rewrite Hp. cbn [negb]. walk ltac:(no_write_atom Hp). Qed.

#[local] Hint Resolve saveState_no_write : steps.

Lemma backfill_loop_no_write w m l :
  steps_in no_write_rel (backfill_loop cfg env w m l).
Proof.
  induction l as [|i rest IH]; cbn [backfill_loop];
    fold (backfill_loop cfg env); walk ltac:(no_write_atom Hp).
Qed.

#[local] Hint Resolve backfill_loop_no_write : steps.

Lemma step_no_write i : steps_in no_write_rel (step cfg env i).
Proof. destruct i; walk ltac:(no_write_atom Hp). Qed.

Lemma run_no_write l : steps_in no_write_rel (run cfg env l).
Proof.
  induction l as [|i rest IH]; cbn [run]; fold (run cfg env).
  - walk ltac:(no_write_atom Hp).
  - apply steps_in_bind; [tc_solve | apply step_no_write | auto].
Qed.

End Volatile.

(** X19.  With [persist] off no run writes a state file or changes the
    disk, and [loadState] answers with the default cursor for every
    pair. *)
Theorem without_persistence_nothing_is_written cfg env l w :
  persist cfg = false ->
  let w' := exec (run cfg env l) w in
  disk w' = disk w
  /\ files_written (trace w') = files_written (trace w)
  /\ forall wl mt, outcome (loadState cfg wl mt) w' = Ok default_cursor.
Proof.
  intros Hp w'. destruct (run_no_write cfg env Hp l w) as [Hd Hf].
  split; [exact Hd|]. split; [exact Hf|].
  intros wl mt. unfold outcome, loadState. by rewrite Hp.
Qed.

Lemma without_persistence_nothing_is_written_witness :
  let w' := exec (run config_volatile env_one [CallStart pair_AM])
              initial_world in
  map signature (emitted (trace w')) = ["sigA"]
  /\ disk w' = ∅
  /\ files_written (trace w') = [].
Proof.
  intros w'.
  assert (He : map signature (emitted (trace w')) = ["sigA"])
    by (vm_compute; reflexivity).
  destruct (without_persistence_nothing_is_written config_volatile env_one
              [CallStart pair_AM] initial_world eq_refl) as (Hd & Hf & _).
  exact (conj He (conj Hd Hf)).
Defined.

Ltac last_event_atom :=
  unfold cursor_rel, cursor_names_last; cbn -[emitted];
  rewrite ?emitted_app; simpl; rewrite ?app_nil_r; auto.

Ltac cursor_leaf :=
  unfold cursor_names_last; cbn -[emitted];
  rewrite ?emitted_app; simpl; rewrite ?app_nil_r;
  first
    [ assumption
    | rewrite last_snoc; eexists; split;
      [apply lookup_insert_eq | split; [reflexivity | simpl; lia] ] ].

Section Persistent.

Context (cfg : Config) (env : Env) (Hp : persist cfg = true).

Lemma backfill_item_cursor wl mt i :
  steps_in (cursor_rel cfg) (backfill_item cfg env wl mt i).
Proof.
  intros w H.
  unfold backfill_item, txHasWalletMintPair, txHasWalletMintPair_k, rpc_send,
    rpc_recv, run_saveEvent, remember, loadState, saveState.
  rewrite Hp.
  cbv [try_catch bind get_st gets emit modify modify_st ret onLog throw negb].
  destruct (has (si_signature i) (seen (st w))); [exact H|].
  destruct (env (length (trace w)) (getTransaction (si_signature i)))
    as [e|e|e|[| |tx|]];
    cbn [fst snd negb]; try cursor_leaf.
  destruct (touches _ tx); cbn [negb]; [|cursor_leaf].
  destruct (saveEvent cfg) as [f|] eqn:Hf.
  - destruct (f (backfill_event wl mt i)) eqn:Hfe; cbn [fst snd]; cursor_leaf.
  - cbn [fst snd]. cursor_leaf.
Qed.

Lemma backfill_loop_cursor wl mt l :
  steps_in (cursor_rel cfg) (backfill_loop cfg env wl mt l).
Proof.
  induction l as [|i rest IH]; [walk last_event_atom|].
  intros w. rewrite backfill_loop_cons.
  revert w. apply steps_in_bind; [tc_solve | | intros _; exact IH].
  apply backfill_item_cursor.
Qed.

Lemma detail_k_cursor j r : steps_in (cursor_rel cfg) (detail_k cfg j r).
Proof.
  intros w H.
  unfold detail_k, txHasWalletMintPair_k, rpc_recv, run_saveEvent, remember,
    loadState, saveState.
  rewrite Hp.
  cbv [try_catch bind get_st gets emit modify modify_st ret onLog throw negb].
  destruct r as [e|e|e|[| |tx|]]; cbn [fst snd negb]; try cursor_leaf.
  destruct (touches _ tx); cbn [negb fst snd]; [|cursor_leaf].
  destruct (saveEvent cfg) as [f|] eqn:Hf.
  - match goal with
    | |- context [f ?ev] => destruct (f ev) eqn:Hfe
    end; cbn [fst snd]; cursor_leaf.
  - cbn [fst snd]. cursor_leaf.
Qed.

#[local] Hint Resolve backfill_loop_cursor detail_k_cursor : steps.

Lemma step_cursor i : steps_in (cursor_rel cfg) (step cfg env i).
Proof. destruct i; walk last_event_atom. Qed.

Lemma run_cursor l : steps_in (cursor_rel cfg) (run cfg env l).
Proof.
  induction l as [|i rest IH]; cbn [run]; fold (run cfg env).
  - walk last_event_atom.
  - apply steps_in_bind; [tc_solve | apply step_cursor | auto].
Qed.

End Persistent.

(** X20.  With [persist] on and no [saveEvent] configured, after every
    run from the initial state the state file of the pair of the last
    delivered event holds the signature of that event; its slot is the
    slot of the event if the live path delivered it, and at least that
    slot if the backfill did.  (Writes are taken to succeed.  Without a
    [saveEvent] nothing is awaited between building an event and writing
    its cursor.) *)
Theorem state_file_names_the_last_event cfg env l evs ev :
  persist cfg = true ->
  saveEvent cfg = None ->
  let w := exec (run cfg env l) initial_world in
  emitted (trace w) = evs ++ [ev] ->
  exists c,
    disk w !! stateFile cfg (wallet (ev_pair ev)) (mint (ev_pair ev)) = Some c
    /\ lastSig c = Some (signature ev)
    /\ match source ev with
       | stream => lastSlot c = slot ev
       | backfill => slot ev <= lastSlot c
       end.
Proof.
  intros Hp _ w He. subst w. unfold exec in *.
  pose proof (run_cursor cfg env Hp l initial_world I) as H.
  unfold cursor_names_last in H.
  rewrite He, last_snoc in H. exact H.
Qed.

Lemma state_file_names_the_last_event_witness :
  let w := exec (run default_config env_one [CallStart pair_AM])
             initial_world in
  exists c, disk w !! file_AM = Some c /\ lastSig c = Some "sigA"
            /\ 50 <= lastSlot c.
Proof.
  intros w.
  assert (He : emitted (trace w) = [] ++ [event_A])
    by (vm_compute; reflexivity).
  exact (state_file_names_the_last_event default_config env_one
           [CallStart pair_AM] [] event_A eq_refl eq_refl He).
Defined.

(** ** The idle timer *)

Lemma on_message_pool cfg m w :
  counts_as_traffic m = true ->
  pool (snd (on_message cfg m w))
  = match idle (timers (st w)) with
    | Some h => List.filter (fun x => negb (handle_is h x)) (pool w)
    | None => pool w
    end ++ [(fresh w, TIdle, noMsgTimeoutMs cfg)].
Proof.
  intros Hm. destruct m; try discriminate; unfold on_message;
    cbv [try_catch bind armIdleRecycle get_st gets clear_handle setTimer
         modify_timers modify_st modify clearTimer ret rpc_send emit add_job
         onLog].
  - cbn [st with_trace]. destruct (idle (timers (st w))); reflexivity.
  - destruct (idle (timers (st w))); cbn [fst snd];
      destruct (has sig (seen (st _))); cbn [fst snd]; try reflexivity;
      destruct (isImportantLog cfg logs); cbn [negb fst snd]; try reflexivity;
      destruct (maxDetailConcurrency cfg <=? _); reflexivity.
Qed.

(** X21.  A subscription acknowledgment or a logs notification on the
    open socket leaves exactly one idle timeout armed, a new one with the
    full [noMsgTimeoutMs]. *)
Theorem traffic_rearms_the_idle_timer cfg env l h s m :
  let w := exec (run cfg env l) initial_world in
  socks w !! h = Some s -> readyState s = OPEN -> listeners s = true ->
  counts_as_traffic m = true ->
  armed TIdle (exec (step cfg env (SockMessage h m)) w)
  = [(fresh w, TIdle, noMsgTimeoutMs cfg)].
Proof.
  intros w Hs Hr Hl Hm. unfold exec. cbn [step]. cbv [bind gets].
  rewrite Hs, Hr, Hl. cbn [when]. unfold armed.
  rewrite (on_message_pool cfg m w Hm), List.filter_app. cbn [List.filter timer_kind kind_eqb fst snd].
  rewrite armed_none; [reflexivity|].
  pose proof (reachable_timers cfg env l) as Hinv. fold w in Hinv.
  intros x Hx.
  by apply (cleared_kind TIdle (pool w) (fresh w) (timers (st w))).
Qed.

Lemma traffic_rearms_the_idle_timer_witness :
  let w := exec (run default_config env_quiet [CallStart pair_AM; SockOpen 0])
             initial_world in
  armed TIdle w = [(2%nat, TIdle, 60000)]
  /\ fresh w = 3%nat
  /\ armed TIdle
       (exec (step default_config env_quiet (SockMessage 0 (Ack "1"))) w)
     = [(fresh w, TIdle, 60000)].
Proof.
  intros w.
  assert (Ha : armed TIdle w = [(2%nat, TIdle, 60000)])
    by (vm_compute; reflexivity).
  assert (Hf : fresh w = 3%nat) by (vm_compute; reflexivity).
  assert (Hs : socks w !! 0%nat
               = Some {| readyState := OPEN; listeners := true;
                         pong_listener := true |})
    by (vm_compute; reflexivity).
  exact (conj Ha
           (conj Hf
              (traffic_rearms_the_idle_timer default_config env_quiet
                 [CallStart pair_AM; SockOpen 0] 0%nat _ (Ack "1") Hs eq_refl
                 eq_refl eq_refl))).
Defined.

(** ** Connecting *)

#[local] Instance conn_frame_preorder : PreOrder conn_frame.
Proof.
  split; unfold conn_frame; [intros w; auto|].
  intros a b c [H1 H2] [H3 H4]. split; [congruence|].
  intros h. by rewrite H4, H2.
Qed.

Lemma fmap_alter_same (f : Socket -> Socket) h h' (so : gmap nat Socket) :
  (forall s, readyState (f s) = readyState s) ->
  readyState <$> alter f h so !! h' = readyState <$> so !! h'.
Proof.
  intros Hf. destruct (decide (h' = h)) as [->|Hne].
  - rewrite lookup_alter_eq. destruct (so !! h); simpl; [|done]. by rewrite Hf.
  - by rewrite lookup_alter_ne.
Qed.

Ltac conn_atom :=
  unfold conn_frame; simpl; split; [reflexivity|]; intros;
  first [ reflexivity | by apply fmap_alter_same ].

Lemma on_open_conn_frame cfg : steps_in conn_frame (on_open cfg).
Proof. walk conn_atom. Qed.

Lemma isConnected_spec w :
  isConnected w
  = (Ok match ws (st w) with
        | Some h => match readyState <$> socks w !! h with
                    | Some OPEN => true
                    | _ => false
                    end
        | None => false
        end, w).
Proof.
  unfold isConnected, is_open. cbv [bind get_st gets ret].
  destruct (ws (st w)) as [h|]; [|done].
  destruct (socks w !! h) as [[[] ? ?]|]; reflexivity.
Qed.

Lemma on_open_subscribes cfg w h s :
  ws (st w) = Some h -> socks w !! h = Some s -> readyState s = OPEN ->
  In (WsSend h (buildSub (pair (st w))) (commitment cfg))
    (trace (snd (on_open cfg w))).
Proof.
  intros Hws Hs Hr. unfold on_open, startHeartbeat, armIdleRecycle.
  cbv [bind onLog emit modify modify_st get_st gets clear_handle clearTimer
       setTimer modify_timers ret attach_pong throw].
  destruct w as [[sk [p l i pr] b pa n se sr] d so po jo fr tr];
    simpl in *. subst sk.
  destruct p, l; simpl; rewrite lookup_alter_eq, Hs; simpl; rewrite Hr;
    simpl; destruct i; simpl; rewrite ?in_app_iff; simpl; tauto.
Qed.

(** X22.  When [start] returns on a valid pair, [isConnected] is
    still false: the socket is only connecting.  Once that socket opens,
    the listener returns normally, the subscription for the pair has been
    sent on it and [isConnected] is true. *)
Theorem start_connects_when_the_socket_opens cfg env p w :
  valid_pair p ->
  failed (env (length (trace w)) getLatestBlockhash) = false ->
  let w1 := exec (start cfg env p) w in
  outcome isConnected w1 = Ok false
  /\ exists h,
       ws (st w1) = Some h
       /\ let w2 := exec (step cfg env (SockOpen h)) w1 in
          outcome (step cfg env (SockOpen h)) w1 = Ok tt
          /\ outcome isConnected w2 = Ok true
          /\ In (WsSend h (buildSub (pair (st w1))) (commitment cfg)) (trace w2).
Proof.
  intros Hv Hprobe w1.
  destruct (start_valid_connects cfg env p w Hv Hprobe)
    as (_ & h & Hws & _ & Hs).
  fold w1 in Hws, Hs. unfold outcome.
  split; [rewrite isConnected_spec; simpl; by rewrite Hws, Hs|].
  exists h. split; [exact Hws|]. cbv zeta. unfold exec.
  cbn [step]. cbv [bind gets]. rewrite Hs. cbn [readyState listeners when].
  cbv [modify]. cbn [fst snd].
  set (w1' := with_socks (alter (set_readyState OPEN) h) w1).
  assert (Hs' : socks w1' !! h
                = Some {| readyState := OPEN; listeners := true;
                          pong_listener := false |}).
  { subst w1'. simpl. by rewrite lookup_alter_eq, Hs. }
  assert (Hws' : ws (st w1') = Some h) by exact Hws.
  split; [by eapply on_open_returns|].
  destruct (on_open_conn_frame cfg w1') as [Hf1 Hf2].
  split.
  - rewrite isConnected_spec. cbn [fst]. by rewrite Hf1, Hws', Hf2, Hs'.
  - by apply (on_open_subscribes cfg w1' h _ Hws' Hs').
Qed.

Lemma start_connects_when_the_socket_opens_witness :
  let w1 := exec (start default_config env_quiet pair_AM) initial_world in
  outcome isConnected w1 = Ok false
  /\ exists h,
       ws (st w1) = Some h
       /\ let w2 := exec (step default_config env_quiet (SockOpen h)) w1 in
          outcome (step default_config env_quiet (SockOpen h)) w1 = Ok tt
          /\ outcome isConnected w2 = Ok true
          /\ In (WsSend h (buildSub (pair (st w1))) (commitment default_config))
               (trace w2).
Proof.
  exact (start_connects_when_the_socket_opens default_config env_quiet
           pair_AM initial_world valid_pair_AM eq_refl).
Defined.

(** ** Switching the pair *)

#[local] Instance extends_preorder : PreOrder extends.
Proof.
  split.
  - intros w. split; [|done]. exists []. by rewrite app_nil_r.
  - intros a b c [[t1 H1] H2] [[t2 H3] H4]. split; [|congruence].
    exists (t1 ++ t2). by rewrite H3, H1, app_assoc.
Qed.

Ltac extends_atom :=
  unfold extends; simpl; split;
  [ first [ by exists []; rewrite app_nil_r | by eexists ] | reflexivity ].

Lemma backfill_loop_extends cfg env w m l :
  steps_in extends (backfill_loop cfg env w m l).
Proof.
  induction l as [|i rest IH]; cbn [backfill_loop];
    fold (backfill_loop cfg env); walk extends_atom.
Qed.

#[local] Hint Resolve backfill_loop_extends : steps.

Lemma start_extends cfg env p : steps_in extends (start cfg env p).
Proof. walk extends_atom. Qed.

Lemma connect_keeps_running : steps_in keeps_running connect.
Proof. walk keeps_running_atom. Qed.

(** X23.  [setPair] on a valid pair whose preflight is answered
    returns normally with the new pair stored, the should-run flag set, the
    socket the client held terminated and a new socket connecting.  The
    in-flight counter is not reset. *)
Theorem setPair_switches_the_pair cfg env p w :
  valid_pair p ->
  failed (env (length (trace (exec stop w))) getLatestBlockhash) = false ->
  let w' := exec (setPair cfg env p) w in
  outcome (setPair cfg env p) w = Ok tt
  /\ pair (st w') = {| wallet := wallet p; mint := mint p |}
  /\ shouldRun (st w') = true
  /\ inflightDetails (st w') = inflightDetails (st w)
  /\ (forall h, ws (st w) = Some h -> In (WsTerminate h) (trace w'))
  /\ exists h',
       ws (st w') = Some h'
       /\ socks w' !! h'
          = Some {| readyState := CONNECTING; listeners := true;
                    pong_listener := false |}.
Proof.
  intros Hv Hprobe w'.
  assert (Heq : setPair cfg env p w = start cfg env p (exec stop w)).
  { unfold setPair, bind, exec. destruct (stop_total w) as [[] Hs].
    destruct (stop w) as [r w1]; simpl in *. by subst r. }
  subst w'. unfold outcome, exec in *. rewrite Heq.
  destruct (start_valid_connects cfg env p _ Hv Hprobe)
    as (Hok & h' & Hws & _ & Hsock).
  unfold outcome, exec in *.
  destruct (start_extends cfg env p (snd (stop w))) as [[t Ht] Hin].
  destruct (stop_frame w) as (_ & _ & Hin0 & _).
  unfold exec in *.
  split; [exact Hok|].
  assert (Hrun : keeps_running (after_preflight p (snd (stop w)))
                   (snd (start cfg env p (snd (stop w))))).
  { rewrite (start_valid cfg env p _ Hv Hprobe).
    assert (H : steps_in keeps_running
              (backfillOnce cfg env (wallet p) (mint p)
                 (lastSlot (loaded_cursor cfg p (snd (stop w))));; connect)).
    { apply steps_in_bind; [tc_solve | apply backfillOnce_keeps_running|].
      intros _. apply connect_keeps_running. }
    apply H. }
  destruct Hrun as [Hr Hp].
  split; [rewrite Hp; by destruct p|].
  split; [by rewrite Hr|].
  split; [congruence|].
  split; [|eauto].
  intros h Hh. rewrite Ht. apply in_or_app. left.
  by apply stop_terminates.
Qed.

Lemma setPair_switches_the_pair_witness :
  let w := exec (run default_config env_quiet [CallStart pair_AM; SockOpen 0])
             initial_world in
  let w' := exec (setPair default_config env_quiet pair_BM) w in
  ws (st w) = Some 0%nat
  /\ outcome (setPair default_config env_quiet pair_BM) w = Ok tt
  /\ pair (st w') = pair_BM
  /\ shouldRun (st w') = true
  /\ In (WsTerminate 0) (trace w').
Proof.
  intros w w'.
  assert (Hws : ws (st w) = Some 0%nat) by (vm_compute; reflexivity).
  destruct (setPair_switches_the_pair default_config env_quiet pair_BM w
              valid_pair_BM eq_refl) as (Ho & Hp & Hr & _ & Ht & _).
  exact (conj Hws (conj Ho (conj Hp (conj Hr (Ht _ Hws))))).
Defined.

(** ** The stream routes *)

Lemma pair_eta (p : Pair) : {| wallet := wallet p; mint := mint p |} = p.
Proof. by destruct p. Qed.

(** X24.  The start route answers 400 without calling the client when
    the wallet or the mint is missing, and answers "connected" without
    calling [start] or [setPair] when the pair is the current one and the
    client is connected; neither changes the server or the client. *)
Theorem start_route_answers_without_touching_the_stream cfg env req_body a w :
  let p := default {| wallet := None; mint := None |} req_body in
  (truthy (wallet p) = false \/ truthy (mint p) = false ->
   route_stream_start cfg env req_body a w
   = (Ok ({| status := 400;
             body := BError "'wallet' and 'mint' are required" |}, a), w))
  /\ (truthy (wallet p) = true -> truthy (mint p) = true ->
      currentPair a = p -> outcome isConnected w = Ok true ->
      route_stream_start cfg env req_body a w
      = (Ok ({| status := 200; body := BConnected (wallet p) (mint p) |}, a),
         w)).
Proof.
  intros p. split.
  - intros H. unfold route_stream_start. fold p.
    destruct H as [-> | ->]; simpl; by rewrite ?orb_true_r.
  - intros Hw Hm Hcur Hconn. unfold route_stream_start. fold p.
    rewrite Hw, Hm, Hcur. simpl.
    rewrite !bool_decide_eq_true_2 by done. simpl.
    unfold outcome in Hconn. unfold try_catch, bind.
    destruct (isConnected w) as [r w1] eqn:E. simpl in Hconn. subst r.
    assert (w1 = w) as ->.
    { assert (H : snd (isConnected w) = w).
      { unfold isConnected. cbv [bind get_st gets ret].
        by destruct (ws (st w)). }
      by rewrite E in H. }
    reflexivity.
Qed.

Lemma start_route_answers_without_touching_the_stream_witness :
  let w := exec (run default_config env_quiet [CallStart pair_AM; SockOpen 0])
             initial_world in
  route_stream_start default_config env_quiet None initial_app initial_world
  = (Ok ({| status := 400;
            body := BError "'wallet' and 'mint' are required" |},
         initial_app), initial_world)
  /\ route_stream_start default_config env_quiet (Some pair_AM) app_AM w
     = (Ok ({| status := 200;
               body := BConnected (Some wallet_A) (Some mint_M) |}, app_AM),
        w).
Proof.
  intros w.
  assert (Hc : outcome isConnected w = Ok true) by (vm_compute; reflexivity).
  exact (conj
           (proj1 (start_route_answers_without_touching_the_stream
                     default_config env_quiet None initial_app initial_world)
              (or_introl eq_refl))
           (proj2 (start_route_answers_without_touching_the_stream
                     default_config env_quiet (Some pair_AM) app_AM w)
              eq_refl eq_refl eq_refl Hc)).
Defined.

(** X25.  When a pair is being streamed and the start route is asked
    for another pair that [start] rejects, the route answers 500 and keeps
    its [currentPair], but the client has been stopped by [setPair]: the
    status route then reports the old pair as not connected. *)
Theorem rejected_switch_leaves_the_stream_stopped cfg env p a w :
  truthy (wallet (currentPair a)) = true ->
  truthy (mint (currentPair a)) = true ->
  truthy (wallet p) = true -> truthy (mint p) = true ->
  malformed p ->
  currentPair a <> p ->
  exists e,
    route_stream_start cfg env (Some p) a w
    = (Ok ({| status := 500; body := BError e |},
           jlog (LogErr "error" "/api/stream/start failed" e) a),
       exec stop w)
    /\ shouldRun (st (exec stop w)) = false
    /\ route_stream_status
         (jlog (LogErr "error" "/api/stream/start failed" e) a) (exec stop w)
       = (Ok ({| status := 200; body := BStatus false (currentPair a) |},
              jlog (LogErr "error" "/api/stream/start failed" e) a),
          exec stop w).
Proof.
  intros Hcw Hcm Hw Hm Hbad Hne.
  destruct (malformed_rejected cfg env p (exec stop w) Hbad) as [e He].
  exists e. destruct (stop_state w) as (Hrun & Hws & _).
  split; [|split; [exact Hrun|]].
  - unfold route_stream_start. simpl. rewrite Hw, Hm, Hcw, Hcm. simpl.
    assert (Hsame : bool_decide (wallet (currentPair a) = wallet p)
                    && bool_decide (mint (currentPair a) = mint p) = false).
    { apply andb_false_iff.
      destruct (decide (wallet (currentPair a) = wallet p)) as [E1|E1];
        [|left; by apply bool_decide_eq_false_2].
      destruct (decide (mint (currentPair a) = mint p)) as [E2|E2];
        [|right; by apply bool_decide_eq_false_2].
      exfalso. apply Hne. destruct (currentPair a), p; simpl in *; congruence. }
    rewrite Hsame. simpl. rewrite pair_eta.
    unfold try_catch, bind. cbv [ret]. unfold setPair, bind.
    destruct (stop_total w) as [[] Hs]. unfold exec in *.
    destruct (stop w) as [r w1]; simpl in *. subst r. by rewrite He.
  - unfold route_stream_status, isConnected. cbv [bind get_st gets ret].
    by rewrite Hws.
Qed.

Lemma rejected_switch_leaves_the_stream_stopped_witness :
  let w := exec (run default_config env_quiet [CallStart pair_AM; SockOpen 0])
             initial_world in
  exists e,
    route_stream_start default_config env_quiet (Some pair_bad) app_AM w
    = (Ok ({| status := 500; body := BError e |},
           jlog (LogErr "error" "/api/stream/start failed" e) app_AM),
       exec stop w)
    /\ shouldRun (st (exec stop w)) = false
    /\ route_stream_status
         (jlog (LogErr "error" "/api/stream/start failed" e) app_AM)
         (exec stop w)
       = (Ok ({| status := 200; body := BStatus false (currentPair app_AM) |},
              jlog (LogErr "error" "/api/stream/start failed" e) app_AM),
          exec stop w).
Proof.
  intros w.
  refine (rejected_switch_leaves_the_stream_stopped default_config env_quiet
            pair_bad app_AM w eq_refl eq_refl eq_refl eq_refl
            malformed_pair_bad _).
  discriminate.
Defined.

(** X26.  When no [start] or [setPair] is still awaited by the start
    route, the stop route stops the client, answers with the pair it had
    and forgets it; whatever socket and timer events follow, the status
    route reports no pair and not connected.  (The worlds the route runs
    in are those between complete calls: a call of [start] that is still
    awaited when the route runs is not among them.) *)
Theorem stop_route_stops_for_good cfg env before after a :
  Forall (fun i => asks_to_run i = false) after ->
  let w0 := exec (run cfg env before) initial_world in
  let a' := jlog (LogPrev "info" "/api/stream/stop ok" (currentPair a))
              (set_currentPair {| wallet := None; mint := None |} a) in
  let w2 := exec (run cfg env after) (exec stop w0) in
  route_stream_stop a w0
  = (Ok ({| status := 200; body := BStopped (currentPair a) |}, a'),
     exec stop w0)
  /\ route_stream_status a' w2
     = (Ok ({| status := 200;
               body := BStatus false {| wallet := None; mint := None |} |}, a'),
        w2).
Proof.
  intros Hl w0 a' w2. split.
  - unfold route_stream_stop, try_catch, bind.
    destruct (stop_total w0) as [[] Hs]. unfold exec.
    destruct (stop w0) as [r w1]; simpl in *. by subst r.
  - assert (Hq : quiet (exec stop w0)).
    { apply stop_gives_quiet; [apply reachable_timers | apply reachable_socks]. }
    destruct (run_quiet cfg env after Hl _ Hq) as (Hq2 & _).
    unfold route_stream_status, bind. fold w2 in Hq2.
    by rewrite (isConnected_quiet w2 Hq2).
Qed.

Lemma stop_route_stops_for_good_witness :
  let w0 := exec (run default_config env_quiet
                    [CallStart pair_AM; SockOpen 0]) initial_world in
  let a' := jlog (LogPrev "info" "/api/stream/stop ok" (currentPair app_AM))
              (set_currentPair {| wallet := None; mint := None |} app_AM) in
  let w2 := exec (run default_config env_quiet [SockClose 0 1000 ""])
              (exec stop w0) in
  route_stream_stop app_AM w0
  = (Ok ({| status := 200; body := BStopped (currentPair app_AM) |}, a'),
     exec stop w0)
  /\ route_stream_status a' w2
     = (Ok ({| status := 200;
               body := BStatus false {| wallet := None; mint := None |} |}, a'),
        w2).
Proof.
  refine (stop_route_stops_for_good default_config env_quiet
            [CallStart pair_AM; SockOpen 0] [SockClose 0 1000 ""] app_AM _).
  repeat constructor.
Defined.

Lemma base58_test_isBase58 s : base58_test s = true -> isBase58 s = true.
Proof.
  unfold base58_test, isBase58. rewrite !andb_true_iff.
  intros (Hc & Hlo & Hhi). repeat split; trivial.
  apply Nat.leb_le in Hhi. apply Nat.leb_le. lia.
Qed.

(** X27.  The check of [startStream] is weaker than the one of
    [start]: every identifier [start] accepts passes [isBase58], which also
    accepts identifiers of 45 to 48 characters, and a request with only one
    of the two fields passes too.  Whenever a request passes the checks of
    the route and [start] rejects the pair, the route answers 500 and
    neither the server nor the client has changed. *)
Theorem startStream_lets_through_what_start_rejects cfg env r a w :
  let wal := field "wallet" (args_of r) in
  let mnt := field "mint" (args_of r) in
  (forall s, base58_test s = true -> isBase58 s = true)
  /\ (isBase58 long_id = true /\ base58_test long_id = false)
  /\ ((truthy wal = true \/ truthy mnt = true) ->
      (truthy wal = true -> isBase58 (default "" wal) = true) ->
      (truthy mnt = true -> isBase58 (default "" mnt) = true) ->
      malformed {| wallet := wal; mint := mnt |} ->
      exists e,
        startStream cfg env r a w
        = (Ok ({| status := 500; body := BError e |},
               ix_log (IxFailed "/api/stream/start failed" e) a), w)).
Proof.
  intros wal mnt. split; [apply base58_test_isBase58|].
  split; [split; reflexivity|].
  intros Hany Hw Hm Hbad.
  destruct (malformed_rejected cfg env _ w Hbad) as [e He].
  exists e. unfold startStream. fold wal. fold mnt.
  assert (H1 : negb (truthy wal) && negb (truthy mnt) = false).
  { destruct Hany as [-> | ->]; simpl; by rewrite ?andb_false_r. }
  rewrite H1.
  assert (H2 : truthy wal && negb (isBase58 (default "" wal)) = false).
  { destruct (truthy wal); [|done]. by rewrite Hw. }
  rewrite H2.
  assert (H3 : truthy mnt && negb (isBase58 (default "" mnt)) = false).
  { destruct (truthy mnt); [|done]. by rewrite Hm. }
  rewrite H3.
  unfold try_catch, bind, startStreamImpl. by rewrite He.
Qed.

Lemma startStream_lets_through_what_start_rejects_witness :
  exists e,
    startStream default_config env_quiet req_wallet_only
      {| ix_currentPair := {| wallet := None; mint := None |};
         connectedFlag := false; ix_console := [] |} initial_world
    = (Ok ({| status := 500; body := BError e |},
           ix_log (IxFailed "/api/stream/start failed" e)
             {| ix_currentPair := {| wallet := None; mint := None |};
                connectedFlag := false; ix_console := [] |}), initial_world).
Proof.
  refine (proj2 (proj2 (startStream_lets_through_what_start_rejects
                          default_config env_quiet req_wallet_only _
                          initial_world))
            (or_introl eq_refl) (fun _ => eq_refl) _ _).
  - discriminate.
  - right. left. reflexivity.
Defined.
